(** * ScaleFS core (kernel/scalefs.cc): a shallow embedding and its properties

    The development follows the layout of [mfs_interface] in
    kernel/scalefs.cc:

    - [Allocator]   : the free-bit vector and freelist ([alloc_block],
                      [free_block], [initialize_free_bit_vector]);
    - [Recovery]    : the journal replay of [process_journal];
    - [LogicalLog]  : [find_dependent_ops] and the fsync flavour of
                      [process_metadata_log];
    - [Journal]     : the commit path ([add_fsync_to_journal],
                      [flush_journal_locked]) as a trace of the calls it makes;
    - [Mfs]         : the mnode/inode mapping tables and the helpers that
                      edit them ([create_file_if_new], [unlink_old_inode], ...);
    - [FreeBlocks]  : [print_free_blocks] and runs of allocator calls;
    - [Replay]      : the journal file as the commit path leaves it;
    - [Sync]        : the sync flavour of [process_metadata_log];
    - [MfsOps]      : the metadata operations ([mfs_create], [mfs_link],
                      [mfs_unlink], [mfs_delete], [mfs_rename]), [load_root]
                      and [evict_bufcache].

    Kernel panics and failed assertions are modelled as failure ([None] or
    [Panic]); locks are not modelled, the code is read sequentially. *)

From Stdlib Require Import ZArith Lia Bool.
From stdpp Require Import base option list sorting gmap strings fin_maps.

Local Open Scope Z_scope.

(** ** Data shared by the journal and the logical log *)

(** A block of [BSIZE] bytes, [transaction_diskblock::blockdata]. *)
Abbreviation block_data := (list Z).

(** [transaction_diskblock]: a disk block number with its new contents. *)
Record transaction_diskblock := mk_diskblock {
  blocknum : Z;
  blockdata : block_data;
}.

(** [transaction]: the dirty blocks of one metadata operation, the blocks it
    allocated and freed, and the timestamp of the operation. *)
Record transaction := mk_transaction {
  timestamp_ : Z;
  blocks : list transaction_diskblock;
  allocated_block_list : list Z;
  free_block_list : list Z;
}.

(** [new transaction(ts)] *)
Definition new_transaction (ts : Z) : transaction :=
  {| timestamp_ := ts; blocks := []; allocated_block_list := [];
     free_block_list := [] |}.

(** ** The block allocator *)

Module Allocator.

(** [free_bit]: one entry of the free-bit vector. *)
Record free_bit := mk_free_bit {
  bno_ : Z;
  is_free : bool;
}.

(** The allocator part of [mfs_interface]. The freelist is an intrusive list
    of pointers to the [free_bit] objects owned by [free_bit_vector]; a
    pointer is modelled by the index of the object in the vector.
    [sb_size] is the [size] field that [get_superblock] reads. *)
Record alloc_state := mk_alloc_state {
  free_bit_vector : list free_bit;
  free_bit_freelist : list nat;
  sb_size : Z;
}.

Definition set_is_free (b : bool) (bit : free_bit) : free_bit :=
  {| bno_ := bno_ bit; is_free := b |}.

(** [mfs_interface::alloc_block]. [None] is the failed
    [assert(it->is_free == true)]. *)
Definition alloc_block (s : alloc_state) : option (Z * alloc_state) :=
  match free_bit_freelist s with
  | it :: rest =>
      match free_bit_vector s !! it with
      | Some bit =>
          if is_free bit then
            Some (bno_ bit,
                  {| free_bit_vector :=
                       <[it := set_is_free false bit]> (free_bit_vector s);
                     free_bit_freelist := rest;
                     sb_size := sb_size s |})
          else None
      | None => None
      end
  | [] => Some (sb_size s, s)
  end.

(** [mfs_interface::free_block]. [None] is either the range check of
    [free_bit_vector.at(bno)] or the panic "freeing free block". *)
Definition free_block (bno : Z) (s : alloc_state) : option alloc_state :=
  if bno <? 0 then None else
  match free_bit_vector s !! Z.to_nat bno with
  | Some bit =>
      if is_free bit then None
      else Some {| free_bit_vector :=
                     <[Z.to_nat bno := set_is_free true bit]> (free_bit_vector s);
                   free_bit_freelist := Z.to_nat bno :: free_bit_freelist s;
                   sb_size := sb_size s |}
  | None => None
  end.

(** [BPB], bits per bitmap block ([BSIZE * 8]). *)
Definition BPB : Z := 4096 * 8.

Section Initialize.
(** The on-disk bitmap as [initialize_free_bit_vector] reads it:
    [bitmap k j] is byte [j] of the bitmap block that covers the block
    numbers [k * BPB .. (k+1) * BPB - 1] (the block
    [BBLOCK(k * BPB, sb.ninodes)]). *)
Variable bitmap : Z -> Z -> Z.

(** The body of the inner loop for bit [bi] of the bitmap block of [b]. *)
Definition init_bit (b : Z) (s : alloc_state) (bi : nat) : alloc_state :=
  let m := Z.shiftl 1 (Z.of_nat bi mod 8) in
  let f := Z.land (bitmap (b / BPB) (Z.of_nat bi / 8)) m =? 0 in
  let idx := length (free_bit_vector s) in
  {| free_bit_vector := free_bit_vector s ++ [mk_free_bit (b + Z.of_nat bi) f];
     free_bit_freelist :=
       if f then free_bit_freelist s ++ [idx] else free_bit_freelist s;
     sb_size := sb_size s |}.

(** The body of the outer loop: [nbits = min(BPB, sb.size - b)]. *)
Definition init_block (s : alloc_state) (k : nat) : alloc_state :=
  let b := Z.of_nat k * BPB in
  let nbits := Z.min BPB (sb_size s - b) in
  foldl (init_bit b) s (seq 0 (Z.to_nat nbits)).

(** [mfs_interface::initialize_free_bit_vector]: [b] runs over
    [0, BPB, 2 * BPB, ...] while [b < sb.size]. *)
Definition initialize_free_bit_vector (size : Z) : alloc_state :=
  foldl init_block
        {| free_bit_vector := []; free_bit_freelist := []; sb_size := size |}
        (seq 0 (Z.to_nat ((size + BPB - 1) / BPB))).
End Initialize.

(** [free_bit_vector.at(bno)->is_free], when [bno] is in range. *)
Definition bit_is_free (s : alloc_state) (bno : Z) : option bool :=
  if bno <? 0 then None else is_free <$> free_bit_vector s !! Z.to_nat bno.

(** Invariant F1/I2 of the allocator: the object at index [i] is the bit of
    block [i], a bit is linked in the freelist exactly when it is free, and it
    is linked at most once. *)
Record alloc_inv (s : alloc_state) : Prop := {
  inv_bno : forall i bit, free_bit_vector s !! i = Some bit -> bno_ bit = Z.of_nat i;
  inv_nodup : NoDup (free_bit_freelist s);
  inv_free : forall i, i ∈ free_bit_freelist s <->
               exists bit, free_bit_vector s !! i = Some bit /\ is_free bit = true;
  inv_size : Z.of_nat (length (free_bit_vector s)) = sb_size s;
}.

(** The part of the invariant that holds while
    [initialize_free_bit_vector] is still building the vector. *)
Definition building (s : alloc_state) : Prop :=
  (forall i bit, free_bit_vector s !! i = Some bit -> bno_ bit = Z.of_nat i) /\
  NoDup (free_bit_freelist s) /\
  (forall i, i ∈ free_bit_freelist s <->
     exists bit, free_bit_vector s !! i = Some bit /\ is_free bit = true).

(** The allocator states the kernel can be in: what
    [initialize_free_bit_vector] builds, followed by any number of
    [alloc_block] and [free_block] calls that return. *)
Inductive reachable : alloc_state -> Prop :=
| reach_init bitmap size :
    0 <= size -> reachable (initialize_free_bit_vector bitmap size)
| reach_alloc s bno s' :
    reachable s -> alloc_block s = Some (bno, s') -> reachable s'
| reach_free s bno s' :
    reachable s -> free_block bno s = Some s' -> reachable s'.

End Allocator.

(** ** The on-disk journal format *)

Module Hdr.
(** [journal_block_header]: the packed header that precedes every block in
    the journal file. *)
Record journal_block_header := mk_header {
  timestamp : Z;
  blocknum : Z;
  block_type : Z;
}.
End Hdr.
Abbreviation journal_block_header := Hdr.journal_block_header.

(** One record of [/sv6journal]: a header followed by a block of data. *)
Abbreviation journal_record := (journal_block_header * block_data)%type.

(** Modelled from the spec: the enumerators [jrnl_start], [jrnl_data] and
    [jrnl_commit] are declared in scalefs.hh, which is not among the sources.
    The spec gives the header's type as "u8 ∈ {Start, Data, Commit}"; the
    numeric values are left open here and only taken to be distinct, which is
    what the [switch] of [process_journal] needs. *)
Class JournalBlockTypes := {
  jrnl_start : Z;
  jrnl_data : Z;
  jrnl_commit : Z;
  jrnl_start_data : jrnl_start <> jrnl_data;
  jrnl_start_commit : jrnl_start <> jrnl_commit;
  jrnl_data_commit : jrnl_data <> jrnl_commit;
}.

(** The values used for concrete runs. *)
#[export] Instance sv6_block_types : JournalBlockTypes :=
  {| jrnl_start := 1; jrnl_data := 2; jrnl_commit := 3;
     jrnl_start_data := ltac:(discriminate);
     jrnl_start_commit := ltac:(discriminate);
     jrnl_data_commit := ltac:(discriminate) |}.

(** [!memcmp(hdcmp, hdbuf, hdr_size)] with [hdcmp] zero-filled: every field
    of the header is zero. *)
Definition is_zero_header (hd : journal_block_header) : bool :=
  (Hdr.timestamp hd =? 0) && (Hdr.blocknum hd =? 0) && (Hdr.block_type hd =? 0).

(** A block of zeroes, [memset(databuf, 0, sizeof(databuf))]. *)
Definition BSIZE : Z := 4096.
Definition zero_block : block_data := replicate (Z.to_nat BSIZE) 0.

(** ** Recovery *)

Module Recovery.
Section Recovery.
Context `{JournalBlockTypes}.

(** The [while (!jrnl_error)] loop of [mfs_interface::process_journal].
    [journal] is what is left of the file from the current [offset] on, cut
    into records; a short read of the header or of the data block (the end
    of the list) leaves the loop, and so does [jrnl_error = true].
    [block_vec] is the pending vector, [trans] the blocks added to the
    recovery transaction so far. After
    [trans->add_blocks(std::move(block_vec))] the moved-from [block_vec] is
    empty. *)
Fixpoint process_journal_loop (journal : list journal_record)
    (current_transaction : Z) (block_vec trans : list transaction_diskblock)
    : list transaction_diskblock :=
  match journal with
  | [] => trans
  | (hd, databuf) :: rest =>
      if is_zero_header hd then trans
      else if Hdr.block_type hd =? jrnl_start then
        process_journal_loop rest (Hdr.timestamp hd) [] trans
      else if Hdr.block_type hd =? jrnl_data then
        if Hdr.timestamp hd =? current_transaction then
          process_journal_loop rest current_transaction
            (block_vec ++ [mk_diskblock (Hdr.blocknum hd) databuf]) trans
        else trans
      else if Hdr.block_type hd =? jrnl_commit then
        if Hdr.timestamp hd =? current_transaction then
          process_journal_loop rest current_transaction [] (trans ++ block_vec)
        else trans
      else trans
  end.

(** [mfs_interface::process_journal]: the blocks of the transaction that
    [write_to_disk_update_bufcache] applies, in order. *)
Definition process_journal (journal : list journal_record)
    : list transaction_diskblock :=
  process_journal_loop journal 0 [] [].

(** *** The journal as the commit path lays it out *)

(** The records of one committed transaction with timestamp [ts]: a Start
    record, one Data record per block, a Commit record. The headers are
    those that [write_journal_header] and
    [write_journal_transaction_blocks] build. *)
Definition start_record (ts : Z) : journal_record :=
  (Hdr.mk_header ts 0 jrnl_start, zero_block).
Definition data_record (ts : Z) (b : transaction_diskblock) : journal_record :=
  (Hdr.mk_header ts (blocknum b) jrnl_data, blockdata b).
Definition commit_record (ts : Z) : journal_record :=
  (Hdr.mk_header ts 0 jrnl_commit, zero_block).

Definition committed_records (tx : Z * list transaction_diskblock)
    : list journal_record :=
  start_record tx.1 :: map (data_record tx.1) tx.2 ++ [commit_record tx.1].

(** No header of the transaction is all zero (it would read as the end of
    the log). *)
Definition nonzero_headers (tx : Z * list transaction_diskblock) : Prop :=
  Forall (fun r => is_zero_header r.1 = false) (committed_records tx).

(** The timestamp of the last Start record of a run of committed
    transactions; [0] when there is none. *)
Definition last_timestamp (txs : list (Z * list transaction_diskblock)) : Z :=
  match last txs with Some tx => tx.1 | None => 0 end.

(** What may follow the committed transactions: the end of the file, a zero
    header, a record of unknown type, a Data or Commit record whose
    timestamp differs from the Start record in force, or a Start record and
    matching Data records followed by one of these. What comes after the
    record that stops the scan is arbitrary. *)
Inductive uncommitted (cur : Z) : list journal_record -> Prop :=
| unc_end : uncommitted cur []
| unc_zero hd d rest :
    is_zero_header hd = true -> uncommitted cur ((hd, d) :: rest)
| unc_unknown hd d rest :
    Hdr.block_type hd <> jrnl_start -> Hdr.block_type hd <> jrnl_data ->
    Hdr.block_type hd <> jrnl_commit -> uncommitted cur ((hd, d) :: rest)
| unc_mismatch hd d rest :
    Hdr.block_type hd <> jrnl_start -> Hdr.timestamp hd <> cur ->
    uncommitted cur ((hd, d) :: rest)
| unc_start hd d rest :
    Hdr.block_type hd = jrnl_start ->
    uncommitted (Hdr.timestamp hd) rest -> uncommitted cur ((hd, d) :: rest)
| unc_data hd d rest :
    Hdr.block_type hd = jrnl_data -> Hdr.timestamp hd = cur ->
    uncommitted cur rest -> uncommitted cur ((hd, d) :: rest).

(** A transaction in the journal, whole or cut short: the Start record and
    the Data records of [tx.1], and the Commit record when [tx.2] says that
    the transaction has one. *)
Definition logged_records (tx : (Z * list transaction_diskblock) * bool)
    : list journal_record :=
  start_record tx.1.1 :: map (data_record tx.1.1) tx.1.2 ++
  (if tx.2 then [commit_record tx.1.1] else []).

(** The blocks of a transaction that has its Commit record; none otherwise. *)
Definition logged_blocks (tx : (Z * list transaction_diskblock) * bool)
    : list transaction_diskblock :=
  if tx.2 then tx.1.2 else [].

(** *** Any journal content *)

(** The records that a sequential read from the start of [journal] accepts,
    when [cur] is the timestamp in force: the read ends at the end of the
    file, at a zero header, at a record of unknown type, and at a Data or
    Commit record whose timestamp is not [cur]; a Start record puts its own
    timestamp in force. *)
Fixpoint scanned (cur : Z) (journal : list journal_record) : list journal_record :=
  match journal with
  | [] => []
  | (hd, d) :: rest =>
      if is_zero_header hd then []
      else if Hdr.block_type hd =? jrnl_start then
        (hd, d) :: scanned (Hdr.timestamp hd) rest
      else if (Hdr.block_type hd =? jrnl_data) || (Hdr.block_type hd =? jrnl_commit) then
        if Hdr.timestamp hd =? cur then (hd, d) :: scanned cur rest else []
      else []
  end.

(** The run of Data records at the head of [records] ends in a Commit
    record (and not in a Start record or with the records). *)
Fixpoint next_is_commit (records : list journal_record) : bool :=
  match records with
  | [] => false
  | (hd, _) :: rest =>
      if Hdr.block_type hd =? jrnl_data then next_is_commit rest
      else Hdr.block_type hd =? jrnl_commit
  end.

(** The blocks of the Data records of [records] whose run of Data records
    ends in a Commit record, in the order of the records. *)
Fixpoint committed_blocks (records : list journal_record)
    : list transaction_diskblock :=
  match records with
  | [] => []
  | (hd, d) :: rest =>
      if (Hdr.block_type hd =? jrnl_data) && next_is_commit rest
      then mk_diskblock (Hdr.blocknum hd) d :: committed_blocks rest
      else committed_blocks rest
  end.
End Recovery.
End Recovery.

(** ** The logical log and the fsync dependency walk *)

Module LogicalLog.

(** Modelled from the spec: the classes [mfs_operation_create], [_link],
    [_unlink], [_delete] and [_rename] are declared in scalefs.hh, which is
    not among the sources. The payloads are those of the spec's MfsOperation
    table, with the field names that [mfs_create], [mfs_link], [mfs_unlink],
    [mfs_delete] and [mfs_rename] read. Every operation carries its
    [timestamp]. *)
Inductive mfs_operation :=
| mfs_operation_create (timestamp mnode parent mnode_type : Z) (name : string)
| mfs_operation_link (timestamp mnode parent mnode_type : Z) (name : string)
| mfs_operation_unlink (timestamp parent : Z) (name : string)
| mfs_operation_delete (timestamp mnode : Z)
| mfs_operation_rename (timestamp mnode parent new_parent mnode_type : Z)
                       (name newname : string).

Definition timestamp (op : mfs_operation) : Z :=
  match op with
  | mfs_operation_create ts _ _ _ _ => ts
  | mfs_operation_link ts _ _ _ _ => ts
  | mfs_operation_unlink ts _ _ => ts
  | mfs_operation_delete ts _ => ts
  | mfs_operation_rename ts _ _ _ _ _ _ => ts
  end.

(** The state that [find_dependent_ops] works on: the merged vector of the
    logical log, the growing [mnode_vec], and the output vector. *)
Record walk_state := mk_walk {
  operation_vec : list mfs_operation;
  mnode_vec : list Z;
  dependent_ops : list mfs_operation;
}.

Section FindDependentOps.
(** The two virtual methods of [mfs_operation] that the walk calls. They
    take [mnode_vec] by reference: the result is the verdict and the vector
    as the call leaves it. *)
Variable check_parent_dependency : mfs_operation -> list Z -> Z -> bool * list Z.
Variable check_dependency : mfs_operation -> list Z -> bool * list Z.

(** The condition of the [if]/[else if] of the loop body, with the effect of
    its calls on [mnode_vec]: [check_parent_dependency] is called only when
    [isdir] holds, [check_dependency] only when the first condition
    fails. *)
Definition is_dependent (inum : Z) (isdir : bool) (op : mfs_operation)
    (vec : list Z) : bool * list Z :=
  let '(par, vec1) :=
    if isdir then check_parent_dependency op vec inum else (false, vec) in
  if par then (true, vec1) else check_dependency op vec1.

(** The walk seen from the operations: [newest_first] is [operation_vec]
    read from its end; every operation is paired with the verdict of
    [is_dependent] on the [mnode_vec] that the newer operations left. *)
Fixpoint scan (inum : Z) (isdir : bool) (newest_first : list mfs_operation)
    (vec : list Z) : list (mfs_operation * bool) * list Z :=
  match newest_first with
  | [] => ([], vec)
  | op :: older =>
      let '(dep, vec1) := is_dependent inum isdir op vec in
      let '(marks, vec2) := scan inum isdir older vec1 in
      ((op, dep) :: marks, vec2)
  end.

(** One pass through the body of the [do ... while] loop, for the element
    at position [index] (the value of [index] after [index--]): a dependent
    operation is pushed onto [dependent_ops] and erased from
    [operation_vec]. *)
Definition find_step (inum : Z) (isdir : bool) (index : nat) (st : walk_state)
    : walk_state :=
  match operation_vec st !! index with
  | None => st
  | Some op =>
      let '(dep, vec) := is_dependent inum isdir op (mnode_vec st) in
      if dep then
        {| operation_vec := delete index (operation_vec st);
           mnode_vec := vec;
           dependent_ops := dependent_ops st ++ [op] |}
      else
        {| operation_vec := operation_vec st;
           mnode_vec := vec;
           dependent_ops := dependent_ops st |}
  end.

(** The loop: [index] starts at [operation_vec.size()] and the body runs for
    [index - 1], ..., [0]; the loop ends when [it] is back at [begin()].
    Erasing at [index] moves only the elements behind it, so the iterator
    and [index] keep naming the same position. *)
Fixpoint find_loop (inum : Z) (isdir : bool) (index : nat) (st : walk_state)
    : walk_state :=
  match index with
  | O => st
  | S i => find_loop inum isdir i (find_step inum isdir i st)
  end.

(** [mfs_interface::find_dependent_ops]: the dependent operations in the
    order they were pushed, and what is left of [operation_vec]. An empty
    [operation_vec] returns at once. *)
Definition find_dependent_ops (inum : Z) (isdir : bool)
    (ops : list mfs_operation) : list mfs_operation * list mfs_operation :=
  let st := find_loop inum isdir (length ops)
              {| operation_vec := ops; mnode_vec := [inum]; dependent_ops := [] |} in
  (dependent_ops st, operation_vec st).

(** The rest of the kernel state that [apply] works on, and the virtual
    [mfs_operation::apply(tr)], which fills the transaction. *)
Variable world : Type.
Variable apply : mfs_operation -> transaction -> world -> transaction * world.

(** The state of the fsync path: the logical log, the journal's
    [transaction_log] (to which [add_to_journal_locked] appends), the rest,
    and, for reference, the operations applied so far in the order of their
    application. *)
Record log_state := mk_log_state {
  log_operation_vec : list mfs_operation;
  transaction_log : list transaction;
  the_world : world;
  applied : list mfs_operation;
}.

(** The body of the second [do ... while]: a transaction with the
    operation's timestamp is created, filled by [apply] and added to the
    journal. *)
Definition apply_op (op : mfs_operation) (st : log_state) : log_state :=
  let '(tr, w) := apply op (new_transaction (timestamp op)) (the_world st) in
  {| log_operation_vec := log_operation_vec st;
     transaction_log := transaction_log st ++ [tr];
     the_world := w;
     applied := applied st ++ [op] |}.

(** The second loop runs [it] from [dependent_ops.end()] down to
    [begin()]. *)
Fixpoint apply_loop (deps : list mfs_operation) (index : nat) (st : log_state)
    : log_state :=
  match index with
  | O => st
  | S i =>
      match deps !! i with
      | Some op => apply_loop deps i (apply_op op st)
      | None => st
      end
  end.

(** [mfs_interface::process_metadata_log(max_tsc, inum, isdir)], after
    [wait_synchronize(max_tsc)] has merged the per-core logs into
    [operation_vec]. *)
Definition process_metadata_log (inum : Z) (isdir : bool) (st : log_state)
    : log_state :=
  let '(deps, ops) := find_dependent_ops inum isdir (log_operation_vec st) in
  let st1 := {| log_operation_vec := ops;
                transaction_log := transaction_log st;
                the_world := the_world st;
                applied := applied st |} in
  if (length deps =? 0)%nat then st1
  else apply_loop deps (length deps) st1.
End FindDependentOps.

Arguments log_operation_vec {world} _.
Arguments transaction_log {world} _.
Arguments the_world {world} _.
Arguments applied {world} _.
Arguments mk_log_state {world} _ _ _ _.

(** The mnode numbers an operation mentions. *)
Definition mnums (op : mfs_operation) : list Z :=
  match op with
  | mfs_operation_create _ mnode parent _ _ => [mnode; parent]
  | mfs_operation_link _ mnode parent _ _ => [parent; mnode]
  | mfs_operation_unlink _ parent _ => [parent]
  | mfs_operation_delete _ mnode => [mnode]
  | mfs_operation_rename _ mnode parent new_parent _ _ _ => [parent; new_parent; mnode]
  end.

Definition mentions (op : mfs_operation) (vec : list Z) : bool :=
  existsb (fun m => bool_decide (m ∈ vec)) (mnums op).

(** Modelled from the spec: [check_dependency] is declared in scalefs.hh,
    which is not among the sources. Spec: it "holds — i.e., any mnum mentioned
    by op is in needed", and "when an op is included, all mnums it mentions
    are added to needed". *)
Definition check_dependency (op : mfs_operation) (vec : list Z) : bool * list Z :=
  if mentions op vec then (true, vec ++ mnums op) else (false, vec).

(** Modelled from the spec: [check_parent_dependency] is declared in
    scalefs.hh, which is not among the sources. Spec: it "holds — i.e., op's
    parent or child touches an mnum already in needed via a
    directory-structural edge"; every mnum that an operation mentions is its
    parent or its child, and an included operation adds all of them to
    needed. *)
Definition check_parent_dependency (op : mfs_operation) (vec : list Z) (pt : Z)
    : bool * list Z :=
  if mentions op vec then (true, vec ++ mnums op) else (false, vec).

(** The operations of [marks] with verdict [b], in the order of [marks]. *)
Definition marked (b : bool) (marks : list (mfs_operation * bool))
    : list mfs_operation :=
  (filter (fun p => p.2 = b) marks).*1.

(** The elements of [ops] whose position carries [b] in [mask], in the order
    of [ops]. *)
Definition select_by (mask : list bool) (b : bool) (ops : list mfs_operation)
    : list mfs_operation :=
  (filter (fun p => p.2 = b) (zip ops mask)).*1.

(** The order of the merged logical log: timestamps ascend. *)
Definition oldest_first (ops : list mfs_operation) : Prop :=
  StronglySorted (fun a b => timestamp a <= timestamp b) ops.
Definition newest_first (ops : list mfs_operation) : Prop :=
  StronglySorted (fun a b => timestamp b <= timestamp a) ops.

(** [depends] with a set of needed mnums in place of the single target. *)
Inductive depends_on (needed : list Z) (ops : list mfs_operation) : nat -> Prop :=
| dep_on_needed i o x :
    ops !! i = Some o -> x ∈ mnums o -> x ∈ needed -> depends_on needed ops i
| dep_on_newer i j o o' x :
    depends_on needed ops j -> (i < j)%nat ->
    ops !! i = Some o -> ops !! j = Some o' ->
    x ∈ mnums o -> x ∈ mnums o' -> depends_on needed ops i.

(** The verdicts of the walk for target [M], as a mask over the positions of
    [ops], with the dependency checks modelled above. *)
Definition dependency_mask (needed : list Z) (M : Z) (isdir : bool)
    (ops : list mfs_operation) : list bool :=
  reverse ((scan check_parent_dependency check_dependency M isdir
              (reverse ops) needed).1.*2).

(** The operation at position [i] of [ops] is one that the durability of
    mnode [M] depends on: it mentions [M], or it shares an mnum with a newer
    operation (one at a later position) that [M] depends on. *)
Inductive depends (M : Z) (ops : list mfs_operation) : nat -> Prop :=
| dep_target i o :
    ops !! i = Some o -> M ∈ mnums o -> depends M ops i
| dep_newer i j o o' x :
    depends M ops j -> (i < j)%nat ->
    ops !! i = Some o -> ops !! j = Some o' ->
    x ∈ mnums o -> x ∈ mnums o' -> depends M ops i.

(** The closure with the direction of time left out: the operation at
    position [i] mentions [M], or shares an mnum with any operation, older or
    newer, whose closure touches [M]. *)
Inductive touches (M : Z) (ops : list mfs_operation) : nat -> Prop :=
| touches_target i o :
    ops !! i = Some o -> M ∈ mnums o -> touches M ops i
| touches_shared i j o o' x :
    touches M ops j ->
    ops !! i = Some o -> ops !! j = Some o' ->
    x ∈ mnums o -> x ∈ mnums o' -> touches M ops i.

(** A set of positions of [ops] that contains every operation that mentions
    [M] and, with an operation, every older operation that shares an mnum with
    it. *)
Definition dependency_closed (M : Z) (ops : list mfs_operation)
    (S : nat -> Prop) : Prop :=
  (forall i o, ops !! i = Some o -> M ∈ mnums o -> S i) /\
  (forall i j o o' x, S j -> (i < j)%nat -> ops !! i = Some o -> ops !! j = Some o' ->
     x ∈ mnums o -> x ∈ mnums o' -> S i).

End LogicalLog.

(** ** The commit path of the physical journal *)

Module Journal.

(** The calls of the commit path that reach outside [mfs_interface]
    (transactions, buffer cache, disk) and its calls of [free_block], in the
    order in which they are made. *)
Inductive event :=
| Ev_journal_lock
    (* fs_journal->prepare_for_commit(): the journal lock is taken *)
| Ev_balloc_on_disk (blks : list Z)
| Ev_bfree_on_disk (blks : list Z)
| Ev_prepare_for_commit (ts : Z)
    (* tr->prepare_for_commit() *)
| Ev_journal_record (offset : Z) (hd : journal_block_header) (data : block_data)
    (* write_journal_hdrblock: header and data block written with writei into
       the in-memory transaction [trans] at [offset] *)
| Ev_write_to_disk (recs : list journal_record)
    (* trans->write_to_disk(): the records that [trans] holds go to the disk
       and are waited for *)
| Ev_free_block (bno : Z)
| Ev_writeback_async (bno : Z)
| Ev_async_iowait (bno : Z)
| Ev_ideflush
| Ev_zero_fill (size : Z).

(** What the commit path reads and writes: the allocator, the journal's
    write offset and its [transaction_log], and the calls made so far. *)
Record kstate := mk_kstate {
  alloc : Allocator.alloc_state;
  journal_offset : Z;
  transaction_log : list transaction;
  trace : list event;
}.

(** A computation either returns or panics; the state at the panic is kept,
    with the calls made until then. *)
Inductive result (A : Type) :=
| Ok (a : A)
| Panic.
Arguments Ok {A} a.
Arguments Panic {A}.

Definition M (A : Type) : Type := kstate -> result A * kstate.

Definition ret {A} (a : A) : M A := fun st => (Ok a, st).
Definition bind {A B} (m : M A) (k : A -> M B) : M B :=
  fun st => match m st with
            | (Ok a, st') => k a st'
            | (Panic, st') => (Panic, st')
            end.
Definition panic {A} : M A := fun st => (Panic, st).

Declare Scope journal_scope.
Delimit Scope journal_scope with J.
Notation "'do' x <- m ; k" := (bind m (fun x => k))
  (at level 10, x name, m at level 100, k at level 200) : journal_scope.
Notation "m ;; k" := (bind m (fun _ => k))
  (at level 100, k at level 200, right associativity) : journal_scope.
Local Open Scope journal_scope.

Definition emit (e : event) : M unit :=
  fun st => (Ok tt, {| alloc := alloc st; journal_offset := journal_offset st;
                       transaction_log := transaction_log st;
                       trace := trace st ++ [e] |}).

(** [fs_journal->current_offset()] and [fs_journal->update_offset(o)]. *)
Definition current_offset : M Z := fun st => (Ok (journal_offset st), st).
Definition update_offset (o : Z) : M unit :=
  fun st => (Ok tt, {| alloc := alloc st; journal_offset := o;
                       transaction_log := transaction_log st;
                       trace := trace st |}).

(** A [for] loop over a vector. *)
Fixpoint for_each {A} (f : A -> M unit) (l : list A) : M unit :=
  match l with
  | [] => ret tt
  | x :: l' => f x ;; for_each f l'
  end.

(** Modelled from the spec: [sizeof(journal_block_header)] for the packed
    header (u64, u32, u8) of scalefs.hh, which is not among the sources. No
    property below depends on the value. [u32] is the wrap-around of the
    [u32] offset. *)
Definition hdr_size : Z := 13.
Definition u32 (z : Z) : Z := z mod 2 ^ 32.

Section Commit.
Context `{JournalBlockTypes}.

(** The byte count that [writei(sv6_journal, buf, offset, n, trans)]
    returns. *)
Variable writei : kstate -> Z -> Z -> Z.
(** What [balloc_on_disk], [bfree_on_disk] and [tr->prepare_for_commit()]
    leave in the transaction they are given: the bitmap blocks join
    [blocks], which is then deduplicated. *)
Variable balloc_on_disk : list Z -> transaction -> transaction.
Variable bfree_on_disk : list Z -> transaction -> transaction.
Variable prepare_for_commit : transaction -> transaction.

(** [writei] on the journal file; anything but [n] bytes written makes the
    caller panic. *)
Definition journal_writei (offset n : Z) : M unit :=
  fun st => if writei st offset n =? n then ret tt st else panic st.

(** [mfs_interface::write_journal_hdrblock]; [trans] collects the records
    written so far. *)
Definition write_journal_hdrblock (header : journal_block_header)
    (datablock : block_data) (trans : list journal_record)
    : M (list journal_record) :=
  do offset <- current_offset;
  emit (Ev_journal_record offset header datablock);;
  journal_writei offset hdr_size;;
  let offset := u32 (offset + hdr_size) in
  journal_writei offset BSIZE;;
  let offset := u32 (offset + BSIZE) in
  update_offset offset;;
  ret (trans ++ [(header, datablock)]).

(** [mfs_interface::write_journal_header]: the [switch] on [hdr_type]. *)
Definition write_journal_header (hdr_type : Z) (timestamp : Z)
    (trans : list journal_record) : M (list journal_record) :=
  let hdstart := Hdr.mk_header timestamp 0 jrnl_start in
  let hdcommit := Hdr.mk_header timestamp 0 jrnl_commit in
  if hdr_type =? jrnl_start then write_journal_hdrblock hdstart zero_block trans
  else if hdr_type =? jrnl_commit then write_journal_hdrblock hdcommit zero_block trans
  else ret trans.

(** [mfs_interface::write_journal_transaction_blocks] *)
Fixpoint write_journal_transaction_blocks (vec : list transaction_diskblock)
    (timestamp : Z) (trans : list journal_record) : M (list journal_record) :=
  match vec with
  | [] => ret trans
  | b :: vec' =>
      let hddata := Hdr.mk_header timestamp (blocknum b) jrnl_data in
      do trans <- write_journal_hdrblock hddata (blockdata b) trans;
      write_journal_transaction_blocks vec' timestamp trans
  end.

(** [trans->write_to_disk()] *)
Definition write_to_disk (trans : list journal_record) : M unit :=
  emit (Ev_write_to_disk trans).

(** [mfs_interface::pre_process_transaction] *)
Definition pre_process_transaction (tr : transaction) : M transaction :=
  emit (Ev_balloc_on_disk (allocated_block_list tr));;
  let tr := balloc_on_disk (allocated_block_list tr) tr in
  emit (Ev_bfree_on_disk (free_block_list tr));;
  ret (bfree_on_disk (free_block_list tr) tr).

(** [mfs_interface::free_block] on the allocator of the state. *)
Definition free_block (bno : Z) : M unit :=
  emit (Ev_free_block bno);;
  fun st => match Allocator.free_block bno (alloc st) with
            | Some a => (Ok tt, {| alloc := a; journal_offset := journal_offset st;
                                   transaction_log := transaction_log st;
                                   trace := trace st |})
            | None => panic st
            end.

(** [mfs_interface::post_process_transaction] *)
Definition post_process_transaction (tr : transaction) : M unit :=
  for_each free_block (free_block_list tr);;
  for_each (fun b => emit (Ev_writeback_async (blocknum b))) (blocks tr);;
  for_each (fun b => emit (Ev_async_iowait (blocknum b))) (blocks tr);;
  emit Ev_ideflush.

(** [mfs_interface::clear_journal] *)
Definition clear_journal : M unit :=
  do offset <- current_offset;
  emit (Ev_zero_fill offset);;
  update_offset 0.

(** The statements that [add_fsync_to_journal] and the loop body of
    [flush_journal_locked] share word for word, from
    [pre_process_transaction] to [clear_journal]. *)
Definition commit_transaction (tr : transaction) : M unit :=
  let timestamp := timestamp_ tr in
  do tr <- pre_process_transaction tr;
  emit (Ev_prepare_for_commit timestamp);;
  let tr := prepare_for_commit tr in
  do trans <- write_journal_header jrnl_start timestamp [];
  do trans <- write_journal_transaction_blocks (blocks tr) timestamp trans;
  write_to_disk trans;;
  do trans <- write_journal_header jrnl_commit timestamp [];
  write_to_disk trans;;
  post_process_transaction tr;;
  clear_journal.

(** [mfs_interface::add_fsync_to_journal] *)
Definition add_fsync_to_journal (tr : transaction) : M unit :=
  emit Ev_journal_lock;;
  commit_transaction tr.

(** [mfs_interface::flush_journal_locked] *)
Definition flush_journal_locked : M unit :=
  do log <- (fun st => (Ok (transaction_log st), st));
  for_each commit_transaction log;;
  fun st => (Ok tt, {| alloc := alloc st; journal_offset := journal_offset st;
                       transaction_log := []; trace := trace st |}).

(** *** The protocol as a sequence of calls *)

(** The offset of the [n]-th record written from [offset] on. *)
Fixpoint record_offset (offset : Z) (n : nat) : Z :=
  match n with
  | O => offset
  | S n' => record_offset (u32 (u32 (offset + hdr_size) + BSIZE)) n'
  end.

(** The calls that write the records [recs] from [offset] on. *)
Fixpoint record_events (offset : Z) (recs : list journal_record) : list event :=
  match recs with
  | [] => []
  | (hd, d) :: recs' =>
      Ev_journal_record offset hd d ::
      record_events (u32 (u32 (offset + hdr_size) + BSIZE)) recs'
  end.

(** The transaction as it is when its blocks are written: after
    [pre_process_transaction] and [prepare_for_commit]. *)
Definition prepared (tr : transaction) : transaction :=
  let tr1 := balloc_on_disk (allocated_block_list tr) tr in
  prepare_for_commit (bfree_on_disk (free_block_list tr1) tr1).

(** The Start and Data records of a transaction, and its Commit record. *)
Definition start_and_data (tr : transaction) : list journal_record :=
  (Hdr.mk_header (timestamp_ tr) 0 jrnl_start, zero_block) ::
  map (fun b => (Hdr.mk_header (timestamp_ tr) (blocknum b) jrnl_data, blockdata b))
      (blocks (prepared tr)).
Definition commit_only (tr : transaction) : list journal_record :=
  [(Hdr.mk_header (timestamp_ tr) 0 jrnl_commit, zero_block)].

(** The calls of a commit that runs to its end, with the journal offset at
    [offset] when it starts. *)
Definition commit_events (offset : Z) (tr : transaction) : list event :=
  let tr1 := balloc_on_disk (allocated_block_list tr) tr in
  let n := length (start_and_data tr) in
  [Ev_balloc_on_disk (allocated_block_list tr);
   Ev_bfree_on_disk (free_block_list tr1);
   Ev_prepare_for_commit (timestamp_ tr)] ++
  record_events offset (start_and_data tr) ++
  [Ev_write_to_disk (start_and_data tr)] ++
  record_events (record_offset offset n) (commit_only tr) ++
  [Ev_write_to_disk (commit_only tr)] ++
  map Ev_free_block (free_block_list (prepared tr)) ++
  map (fun b => Ev_writeback_async (blocknum b)) (blocks (prepared tr)) ++
  map (fun b => Ev_async_iowait (blocknum b)) (blocks (prepared tr)) ++
  [Ev_ideflush; Ev_zero_fill (record_offset offset (S n))].

(** The calls of [flush_journal_locked] when no commit panics: the
    transactions of the log are committed one after the other, each from
    offset 0 on once the first has cleared the journal. *)
Fixpoint flush_events (offset : Z) (log : list transaction) : list event :=
  match log with
  | [] => []
  | tr :: log' => commit_events offset tr ++ flush_events 0 log'
  end.
End Commit.

(** The calls that a computation adds to the trace. *)
Definition events_of {A} (m : M A) (st : kstate) : list event :=
  drop (length (trace st)) (trace (m st).2).

(** *** A concrete commit *)

(** Every [writei] writes all the bytes it is given; the bitmap updates and
    [prepare_for_commit] leave the transaction as it is. *)
Definition writei_all : kstate -> Z -> Z -> Z := fun _ _ n => n.
Definition keep_transaction : list Z -> transaction -> transaction := fun _ tr => tr.

(** A transaction with timestamp 7 that writes block 50 and frees block 60,
    committed on a disk of 64 blocks that are all allocated, with an empty
    journal. *)
Definition example_transaction : transaction :=
  {| timestamp_ := 7; blocks := [mk_diskblock 50 [1]];
     allocated_block_list := []; free_block_list := [60] |}.
Definition example_kstate : kstate :=
  {| alloc := Allocator.initialize_free_bit_vector (fun _ _ => 255) 64;
     journal_offset := 0; transaction_log := []; trace := [] |}.
Definition example_commit : list event :=
  events_of (add_fsync_to_journal (H := sv6_block_types) writei_all
               keep_transaction keep_transaction id example_transaction)
            example_kstate.

(** *** Kinds of calls and their order in a trace *)

Definition is_record_of (ty : Z) (e : event) : Prop :=
  match e with
  | Ev_journal_record _ hd _ => Hdr.block_type hd = ty
  | _ => False
  end.

Definition is_write_to_disk (e : event) : Prop :=
  match e with Ev_write_to_disk _ => True | _ => False end.

(** A [write_to_disk] that carries a record of type [ty]. *)
Definition is_write_to_disk_of (ty : Z) (e : event) : Prop :=
  match e with
  | Ev_write_to_disk recs => Exists (fun r => Hdr.block_type r.1 = ty) recs
  | _ => False
  end.

Definition is_free_block (e : event) : Prop :=
  match e with Ev_free_block _ => True | _ => False end.

(** The writeback of the blocks to their home locations and the barrier. *)
Definition is_home_writeback (e : event) : Prop :=
  match e with
  | Ev_writeback_async _ | Ev_async_iowait _ | Ev_ideflush => True
  | _ => False
  end.

(** Every call of kind [P] in the trace comes before every call of kind
    [Q]. *)
Definition all_before (P Q : event -> Prop) (evs : list event) : Prop :=
  forall i j x y, evs !! i = Some x -> evs !! j = Some y -> P x -> Q y -> (i < j)%nat.

(** Some call of kind [W] lies between any call of kind [P] and any later
    call of kind [Q]. *)
Definition separated_by (W P Q : event -> Prop) (evs : list event) : Prop :=
  forall i j x y, evs !! i = Some x -> evs !! j = Some y -> P x -> Q y ->
    (i < j)%nat ->
    exists k w, (i < k < j)%nat /\ evs !! k = Some w /\ W w.

(** Every call of kind [Q] in the trace has a call of kind [W] before
    it. *)
Definition preceded_by (W Q : event -> Prop) (evs : list event) : Prop :=
  forall j y, evs !! j = Some y -> Q y ->
    exists i w, (i < j)%nat /\ evs !! i = Some w /\ W w.

Definition is_ideflush (e : event) : Prop :=
  match e with Ev_ideflush => True | _ => False end.

(** The free bits are marked only after the home-location writeback and the
    barrier: every writeback call comes before every [free_block], and every
    [free_block] has the [ideflush] before it. *)
Definition freed_after_writeback (evs : list event) : Prop :=
  all_before is_home_writeback is_free_block evs /\
  preceded_by is_ideflush is_free_block evs.

(** Every record is awaited on its own: a [write_to_disk] lies between the
    Start record and any Data record, between any Data record and the Commit
    record, and between the Commit record and the home-location writeback. *)
Definition awaited_per_record `{JournalBlockTypes} (evs : list event) : Prop :=
  separated_by is_write_to_disk (is_record_of jrnl_start) (is_record_of jrnl_data) evs /\
  separated_by is_write_to_disk (is_record_of jrnl_data) (is_record_of jrnl_commit) evs /\
  separated_by is_write_to_disk (is_record_of jrnl_commit) is_home_writeback evs.


(** [m], started in [st], makes the calls [E] in this order and returns with
    [Q], or panics after an initial part of them. *)
Definition follows {A} (m : M A) (st : kstate) (E : list event)
    (Q : A -> kstate -> Prop) : Prop :=
  exists evs, trace (m st).2 = trace st ++ evs /\ (evs `prefix_of` E) /\
    match (m st).1 with
    | Ok a => evs = E /\ Q a (m st).2
    | Panic => True
    end.

End Journal.

(** ** The mnode/inode mapping tables and the helpers that edit them *)

Module Mfs.

(** Modelled from the spec: the inode layer (InodeLayer in the spec's list of
    collaborators: [ialloc], [iget], [iupdate], [itrunc], [dirlookup],
    [dirlink], [dirunlink], [dir_flush]) is fs.cc, which is not among the
    sources. It is taken as an interface: [disk] stands for the on-disk inodes
    and directories together with the inode cache, an [sref<inode>] is the
    inode's number, and the fields that scalefs.cc reads from an inode are
    observations of [disk]. The functions that are handed the transaction
    return it with what they logged. *)
Class InodeLayer := {
  disk : Type;
  (** [T_DIR] of fs.h and [mnode::types::file], [mnode::types::dir] *)
  T_DIR : Z;
  type_file : Z;
  type_dir : Z;
  type_file_dir : type_file <> type_dir;
  (** [ialloc(1, type)]: the number of the fresh inode; [None] when it does
      not return one *)
  ialloc : Z -> disk -> option (Z * disk);
  (** [iget(1, inum)] returns a non-null reference *)
  iget : disk -> Z -> bool;
  (** [ip->type], [ip->nlink()], [ip->size] *)
  inode_type : disk -> Z -> Z;
  inode_nlink : disk -> Z -> Z;
  inode_size : disk -> Z -> Z;
  (** [ip->type = t] and [ip->dec()] *)
  set_type : Z -> Z -> disk -> disk;
  inode_dec : Z -> disk -> disk;
  iupdate : Z -> transaction -> disk -> transaction * disk;
  itrunc : Z -> Z -> transaction -> disk -> transaction * disk;
  (** [dirlookup(dp, name)]: the number of the inode that the entry names *)
  dirlookup : disk -> Z -> string -> option Z;
  dirlink : Z -> string -> Z -> bool -> disk -> disk;
  dirunlink : Z -> string -> Z -> bool -> disk -> disk;
  dir_flush : Z -> transaction -> disk -> transaction * disk;
}.

(** Modelled from the spec: what [unlink_old_inode] relies on from
    [dirunlink] (fs.cc, not among the sources): it removes the name from the
    directory, and it neither changes the type of an inode nor its size. *)
Class InodeLayerLaws `{InodeLayer} := {
  dirunlink_lookup dp name inum dec d :
    dirlookup (dirunlink dp name inum dec d) dp name = None;
  dirunlink_type dp name inum dec d x :
    inode_type (dirunlink dp name inum dec d) x = inode_type d x;
  dirunlink_size dp name inum dec d x :
    inode_size (dirunlink dp name inum dec d) x = inode_size d x;
}.

(** Modelled from the spec: the mnode layer (MnodeLayer in the spec's list of
    collaborators, mnode.hh and mfs.hh, not among the sources).
    [mfs_get fs mnum] tells whether [root_fs->get(mnum)] is a non-null
    reference, [mfs_alloc] is [root_fs->alloc(type)] and returns the number of
    the new mnode. *)
Class MnodeLayer := {
  mfs : Type;
  mfs_get : mfs -> Z -> bool;
  mfs_alloc : Z -> mfs -> Z * mfs;
}.

(** Modelled from the spec: [linearhash] (linearhash.hh, not among the
    sources) gives the two "keyed-unique" tables with [lookup], [insert] and
    [remove]. Whether [insert] on a key that is present replaces the value or
    leaves the table alone is not visible in the sources; [insert_replaces]
    leaves both open. *)
Class LinearHash := {
  insert_replaces : bool;
}.

Section MfsInterface.
Context `{InodeLayer} `{MnodeLayer} `{LinearHash}.

Definition lh_insert {V} (k : Z) (v : V) (m : gmap Z V) : gmap Z V :=
  match m !! k with
  | Some _ => if insert_replaces then <[k := v]> m else m
  | None => <[k := v]> m
  end.

(** The part of [mfs_interface] that the helpers work on. A value of
    [inum_to_mnode] is an [sref<mnode>]: [None] is the null reference,
    [Some m] the reference to the mnode with number [m]. *)
Record mfs_state := mk_mfs_state {
  mnode_to_inode : gmap Z Z;
  inum_to_mnode : gmap Z (option Z);
  dsk : disk;
  root_fs : mfs;
}.

(** [root_fs->get(mnum)] as a reference. *)
Definition mnode_ref (s : mfs_state) (mnum : Z) : option Z :=
  if mfs_get (root_fs s) mnum then Some mnum else None.

(** [mfs_interface::inode_lookup]: [Some inum] for [true] with [*inum]
    set. *)
Definition inode_lookup (mnode : Z) (s : mfs_state) : option Z :=
  mnode_to_inode s !! mnode.

(** [mfs_interface::get_inode]; [None] is one of its panics. *)
Definition get_inode (mnode_inum : Z) (s : mfs_state) : option Z :=
  match mnode_to_inode s !! mnode_inum with
  | None => None
  | Some inum => if iget (dsk s) inum then Some inum else None
  end.

(** [mfs_interface::create_file_if_new]. The result is the return value,
    the transaction and the state; [None] is a panic. *)
Definition create_file_if_new (mfile_inum parent type : Z) (name : string)
    (tr : transaction) (link_in_parent : bool) (s : mfs_state)
    : option (Z * transaction * mfs_state) :=
  match inode_lookup mfile_inum s with
  | Some _ => Some (0, tr, s)
  | None =>
      match inode_lookup parent s with
      | None => None
      | Some parent_inum =>
          match ialloc type (dsk s) with
          | None => None
          | Some (inum, d1) =>
              let m2i := lh_insert mfile_inum inum (mnode_to_inode s) in
              let i2m := lh_insert inum (mnode_ref s mfile_inum) (inum_to_mnode s) in
              let returnval := inum in
              let '(tr1, d2) := iupdate inum tr d1 in
              if link_in_parent then
                if iget d2 parent_inum then
                  let d3 := dirlink parent_inum name inum false d2 in
                  let '(tr2, d4) := dir_flush parent_inum tr1 d3 in
                  Some (returnval, tr2,
                        {| mnode_to_inode := m2i; inum_to_mnode := i2m;
                           dsk := d4; root_fs := root_fs s |})
                else None
              else
                Some (returnval, tr1,
                      {| mnode_to_inode := m2i; inum_to_mnode := i2m;
                         dsk := d2; root_fs := root_fs s |})
          end
      end
  end.

(** [mfs_interface::create_dir_if_new]. With [link_in_parent] the parent
    is fetched with [iget] and locked at once; a null reference there is a
    crash. *)
Definition create_dir_if_new (mdir_inum parent type : Z) (name : string)
    (tr : transaction) (link_in_parent : bool) (s : mfs_state)
    : option (Z * transaction * mfs_state) :=
  match inode_lookup mdir_inum s with
  | Some _ => Some (0, tr, s)
  | None =>
      match inode_lookup parent s with
      | None => None
      | Some parent_inum =>
          match ialloc type (dsk s) with
          | None => None
          | Some (inum, d1) =>
              let m2i := lh_insert mdir_inum inum (mnode_to_inode s) in
              let i2m := lh_insert inum (mnode_ref s mdir_inum) (inum_to_mnode s) in
              let returnval := inum in
              let d2 := dirlink inum ".." parent_inum false d1 in
              let '(tr1, d3) := dir_flush inum tr d2 in
              if link_in_parent then
                if iget d3 parent_inum then
                  let d4 := dirlink parent_inum name inum true d3 in
                  let '(tr2, d5) := dir_flush parent_inum tr1 d4 in
                  Some (returnval, tr2,
                        {| mnode_to_inode := m2i; inum_to_mnode := i2m;
                           dsk := d5; root_fs := root_fs s |})
                else None
              else
                Some (returnval, tr1,
                      {| mnode_to_inode := m2i; inum_to_mnode := i2m;
                         dsk := d3; root_fs := root_fs s |})
          end
      end
  end.

Definition set_dsk (d : disk) (s : mfs_state) : mfs_state :=
  {| mnode_to_inode := mnode_to_inode s; inum_to_mnode := inum_to_mnode s;
     dsk := d; root_fs := root_fs s |}.

(** The second half of [create_directory_entry], from [ilock(i, 1)] on:
    the entry is linked to the inode of [dirent_inum], which is created
    first when [inode_lookup] leaves [inum] at zero. *)
Definition link_directory_entry (i mdir_inum : Z) (name : string)
    (dirent_inum type : Z) (tr : transaction) (s : mfs_state)
    : option (transaction * mfs_state) :=
  let inum := default 0 (inode_lookup dirent_inum s) in
  if negb (inum =? 0) then
    Some (tr, set_dsk (dirlink i name inum (type =? type_dir) (dsk s)) s)
  else if type =? type_file then
    match create_file_if_new dirent_inum mdir_inum type name tr false s with
    | None => None
    | Some (inum, tr1, s1) =>
        Some (tr1, set_dsk (dirlink i name inum false (dsk s1)) s1)
    end
  else if type =? type_dir then
    match create_dir_if_new dirent_inum mdir_inum type name tr false s with
    | None => None
    | Some (inum, tr1, s1) =>
        Some (tr1, set_dsk (dirlink i name inum true (dsk s1)) s1)
    end
  else Some (tr, s).

(** [mfs_interface::create_directory_entry]. The test
    [di->inum == dirent_inum] compares the inode number of the entry with
    the mnode number it is given, as the source does. *)
Definition create_directory_entry (mdir_inum : Z) (name : string)
    (dirent_inum type : Z) (tr : transaction) (s : mfs_state)
    : option (transaction * mfs_state) :=
  match get_inode mdir_inum s with
  | None => None
  | Some i =>
      match dirlookup (dsk s) i name with
      | Some di =>
          if di =? dirent_inum then Some (tr, s)
          else
            let d1 := dirunlink i name di (inode_type (dsk s) di =? T_DIR) (dsk s) in
            if inode_nlink d1 di =? 0 then
              let '(tr1, d2) := itrunc di 0 tr d1 in
              link_directory_entry i mdir_inum name dirent_inum type tr1
                {| mnode_to_inode := mnode_to_inode s;
                   inum_to_mnode := delete di (inum_to_mnode s);
                   dsk := d2; root_fs := root_fs s |}
            else
              link_directory_entry i mdir_inum name dirent_inum type tr
                (set_dsk d1 s)
      | None => link_directory_entry i mdir_inum name dirent_inum type tr s
      end
  end.

(** [mfs_interface::unlink_old_inode] *)
Definition unlink_old_inode (mdir_inum : Z) (name : string) (tr : transaction)
    (s : mfs_state) : option (transaction * mfs_state) :=
  match get_inode mdir_inum s with
  | None => None
  | Some i =>
      match dirlookup (dsk s) i name with
      | None => Some (tr, s)
      | Some target =>
          let d1 := dirunlink i name target
                      (inode_type (dsk s) target =? T_DIR) (dsk s) in
          Some (tr,
                {| mnode_to_inode := mnode_to_inode s;
                   inum_to_mnode :=
                     if inode_nlink d1 target =? 0
                     then delete target (inum_to_mnode s)
                     else inum_to_mnode s;
                   dsk := d1; root_fs := root_fs s |})
      end
  end.

(** [mfs_interface::free_inode]; [None] is a panic of [get_inode] or the
    failed [assert(ip->nlink() == 0)]. *)
Definition free_inode (mnode_inum : Z) (tr : transaction) (s : mfs_state)
    : option (transaction * mfs_state) :=
  match get_inode mnode_inum s with
  | None => None
  | Some ip =>
      let d1 := set_type ip 0 (dsk s) in
      if inode_nlink d1 ip =? 0 then
        let '(tr1, d2) := iupdate ip tr d1 in
        Some (tr1, set_dsk (inode_dec ip d2) s)
      else None
  end.

(** [mfs_interface::delete_old_inode] *)
Definition delete_old_inode (mfile_inum : Z) (tr : transaction) (s : mfs_state)
    : option (transaction * mfs_state) :=
  match get_inode mfile_inum s with
  | None => None
  | Some ip =>
      let '(tr1, d1) := itrunc ip 0 tr (dsk s) in
      match free_inode mfile_inum tr1 (set_dsk d1 s) with
      | None => None
      | Some (tr2, s2) =>
          Some (tr2,
                {| mnode_to_inode := delete mfile_inum (mnode_to_inode s2);
                   inum_to_mnode := inum_to_mnode s2;
                   dsk := dsk s2; root_fs := root_fs s2 |})
      end
  end.

(** [mfs_interface::create_mapping] *)
Definition create_mapping (mnode inode : Z) (s : mfs_state) : mfs_state :=
  {| mnode_to_inode := lh_insert mnode inode (mnode_to_inode s);
     inum_to_mnode := inum_to_mnode s; dsk := dsk s; root_fs := root_fs s |}.

(** [mfs_interface::mnode_alloc]: the number of the new mnode and the
    state. *)
Definition mnode_alloc (inum mtype : Z) (s : mfs_state) : Z * mfs_state :=
  let '(m, fs) := mfs_alloc mtype (root_fs s) in
  (m, create_mapping m inum
        {| mnode_to_inode := mnode_to_inode s;
           inum_to_mnode := lh_insert inum (Some m) (inum_to_mnode s);
           dsk := dsk s; root_fs := fs |}).

(** *** The two directions of the mapping *)


(** One direction of it: the mnode that an inode number maps to maps back
    to that inode number. *)
Definition tables_map_back (m2i : gmap Z Z) (i2m : gmap Z (option Z)) : Prop :=
  forall mnum inum, i2m !! inum = Some (Some mnum) -> m2i !! mnum = Some inum.
Definition maps_back (s : mfs_state) : Prop :=
  tables_map_back (mnode_to_inode s) (inum_to_mnode s).

End MfsInterface.

(** *** A small file system behind the interfaces, for concrete runs *)

(** An inode with the fields that scalefs.cc reads and, for a directory, its
    entries. *)
Record inode := mk_inode {
  i_type : Z;
  i_nlink : Z;
  i_size : Z;
  i_entries : gmap string Z;
}.

Definition add_nlink (n : Z) (ip : inode) : inode :=
  {| i_type := i_type ip; i_nlink := i_nlink ip + n; i_size := i_size ip;
     i_entries := i_entries ip |}.
Definition with_entries (f : gmap string Z -> gmap string Z) (ip : inode) : inode :=
  {| i_type := i_type ip; i_nlink := i_nlink ip; i_size := i_size ip;
     i_entries := f (i_entries ip) |}.
Definition with_type (t : Z) (ip : inode) : inode :=
  {| i_type := t; i_nlink := i_nlink ip; i_size := i_size ip;
     i_entries := i_entries ip |}.
Definition with_size (n : Z) (ip : inode) : inode :=
  {| i_type := i_type ip; i_nlink := i_nlink ip; i_size := n;
     i_entries := i_entries ip |}.

(** The inode block of [inum] joins the transaction. *)
Definition log_inode (inum : Z) (tr : transaction) : transaction :=
  {| timestamp_ := timestamp_ tr;
     blocks := blocks tr ++ [mk_diskblock inum []];
     allocated_block_list := allocated_block_list tr;
     free_block_list := free_block_list tr |}.

(** Modelled from the spec: a stand-in for fs.cc (not among the sources) with
    the behaviour that the names and the spec's text give: [dirlink] adds an
    entry and a link, [dirunlink] removes them, with the flag also the link
    that a child directory holds on its parent; [itrunc] sets the size;
    [ialloc] takes an unused inode number. *)
#[export] Instance simple_fs : InodeLayer := {|
  disk := gmap Z inode;
  T_DIR := 1;
  type_file := 2;
  type_dir := 1;
  type_file_dir := ltac:(discriminate);
  ialloc := fun ty d =>
    let inum := fresh (dom d) in
    Some (inum, <[inum := mk_inode ty 0 0 ∅]> d);
  iget := fun d inum => bool_decide (is_Some (d !! inum));
  inode_type := fun d inum => from_option i_type 0 (d !! inum);
  inode_nlink := fun d inum => from_option i_nlink 0 (d !! inum);
  inode_size := fun d inum => from_option i_size 0 (d !! inum);
  set_type := fun inum t d => alter (with_type t) inum d;
  inode_dec := fun inum d => d;
  iupdate := fun inum tr d => (log_inode inum tr, d);
  itrunc := fun inum off tr d => (log_inode inum tr, alter (with_size off) inum d);
  dirlookup := fun d dp name => d !! dp ≫= fun ip => i_entries ip !! name;
  dirlink := fun dp name inum inc d =>
    alter (add_nlink 1) inum
      (alter (fun ip => add_nlink (if inc then 1 else 0)
                          (with_entries (insert name inum) ip)) dp d);
  dirunlink := fun dp name inum dec d =>
    alter (add_nlink (-1)) inum
      (alter (fun ip => add_nlink (if dec then -1 else 0)
                          (with_entries (delete name) ip)) dp d);
  dir_flush := fun dp tr d => (log_inode dp tr, d);
|}.

(** Modelled from the spec: a stand-in for the mnode layer: the next mnode
    number and the mnodes that are alive; "a process-wide unique 64-bit
    id". *)
#[export] Instance simple_mnodes : MnodeLayer := {|
  mfs := Z * gset Z;
  mfs_get := fun fs mnum => bool_decide (mnum ∈ fs.2);
  mfs_alloc := fun ty fs => (fs.1, (fs.1 + 1, {[fs.1]} ∪ fs.2));
|}.

Definition keeping_hash : LinearHash := {| insert_replaces := false |}.
Definition replacing_hash : LinearHash := {| insert_replaces := true |}.

(** The root directory (mnode 10, inode 1) holds the file ["a"] (mnode 20,
    inode 2) with one link; both tables hold both pairs. *)
Definition example_state : @mfs_state simple_fs simple_mnodes :=
  {| mnode_to_inode := {[10 := 1; 20 := 2]};
     inum_to_mnode := {[1 := Some 10; 2 := Some 20]};
     dsk := {[1 := mk_inode 1 1 0 {["a" := 2]}; 2 := mk_inode 2 1 0 ∅]};
     root_fs := (21, {[10; 20]}) |}.

End Mfs.

(** ** Further functions of scalefs.cc *)

(** *** Around the allocator *)

Module FreeBlocks.
Import Allocator.

(** [mfs_interface::print_free_blocks], which [kfreeblockprint] and
    [blkstatsread] hand to the block-statistics device: the two numbers it
    prints, the [u32] count of the entries of [free_bit_vector] whose
    [is_free] is set and [free_bit_vector.size()]. *)
Definition count_free (v : list free_bit) : Z :=
  foldl (fun count bit => if is_free bit then Journal.u32 (count + 1) else count) 0 v.
Definition print_free_blocks (s : alloc_state) : Z * Z :=
  (count_free (free_bit_vector s), Z.of_nat (length (free_bit_vector s))).

(** The test that the inner loop of [initialize_free_bit_vector] makes for
    block [bno]: bit [bi % 8] of byte [bi / 8] of its bitmap block is clear,
    with [bi] the position of [bno] in the bitmap block. *)
Definition free_on_disk (bitmap : Z -> Z -> Z) (bno : Z) : bool :=
  Z.land (bitmap (bno / BPB) (bno mod BPB / 8))
         (Z.shiftl 1 (bno mod BPB mod 8)) =? 0.

(** [n] calls of [alloc_block] in a row, with the block numbers they
    return. *)
Fixpoint alloc_blocks (n : nat) (s : alloc_state) : option (list Z * alloc_state) :=
  match n with
  | O => Some ([], s)
  | S n' =>
      match alloc_block s with
      | None => None
      | Some (bno, s1) =>
          match alloc_blocks n' s1 with
          | None => None
          | Some (l, s2) => Some (bno :: l, s2)
          end
      end
  end.

(** The loop of [post_process_transaction] over [free_block_list], on the
    allocator alone. *)
Fixpoint free_blocks (l : list Z) (s : alloc_state) : option alloc_state :=
  match l with
  | [] => Some s
  | bno :: l' =>
      match free_block bno s with
      | None => None
      | Some s1 => free_blocks l' s1
      end
  end.

(** What the loops of [initialize_free_bit_vector] have built when the vector
    has [n] entries. *)
Definition built (bitmap : Z -> Z -> Z) (n : nat) (s : alloc_state) : Prop :=
  free_bit_vector s =
    (fun i => mk_free_bit (Z.of_nat i) (free_on_disk bitmap (Z.of_nat i))) <$> seq 0 n /\
  free_bit_freelist s =
    filter (fun i => free_on_disk bitmap (Z.of_nat i) = true) (seq 0 n).

End FreeBlocks.

(** *** Around the recovery *)

Module Replay.
Section Replay.
Context `{JournalBlockTypes}.

(** The blocks of the Data records of a journal, in journal order. *)
Definition data_blocks (journal : list journal_record) : list transaction_diskblock :=
  omap (fun r : journal_record =>
          if Hdr.block_type r.1 =? jrnl_data
          then Some (mk_diskblock (Hdr.blocknum r.1) r.2) else None) journal.

(** The record at position [i] is a Data record that carries [b], and a
    Commit record with its timestamp follows at position [k]. *)
Definition committed_at (journal : list journal_record) (b : transaction_diskblock)
    (i k : nat) : Prop :=
  exists hd d hc dc,
    (i < k)%nat /\
    journal !! i = Some (hd, d) /\ Hdr.block_type hd = jrnl_data /\
    b = mk_diskblock (Hdr.blocknum hd) d /\
    journal !! k = Some (hc, dc) /\ Hdr.block_type hc = jrnl_commit /\
    Hdr.timestamp hc = Hdr.timestamp hd.

(** The records that the journal file holds after the calls [evs], made on
    an empty journal: [write_to_disk] puts the records of its transaction
    behind those that are there, and the [zero_fill] of [clear_journal], which
    runs from the start of the file to the write offset, wipes them all. *)
Definition journal_on_disk (evs : list Journal.event) : list journal_record :=
  foldl (fun j e => match e with
                    | Journal.Ev_write_to_disk recs => j ++ recs
                    | Journal.Ev_zero_fill _ => []
                    | _ => j
                    end) [] evs.

Definition is_zero_fill (e : Journal.event) : Prop :=
  match e with Journal.Ev_zero_fill _ => True | _ => False end.

(** The offsets at which the records of a trace were written, in the order
    of the calls. *)
Definition record_offsets (evs : list Journal.event) : list Z :=
  omap (fun e => match e with
                 | Journal.Ev_journal_record offset _ _ => Some offset
                 | _ => None
                 end) evs.

(** A call that leaves the journal file alone. *)
Definition quiet (e : Journal.event) : Prop :=
  match e with
  | Journal.Ev_write_to_disk _ | Journal.Ev_zero_fill _ => False
  | _ => True
  end.
End Replay.
End Replay.

(** *** Around the logical log *)

Module Sync.
Section Sync.
Variable world : Type.
Variable apply : LogicalLog.mfs_operation -> transaction -> world -> transaction * world.

(** What it is to apply the operations [ops] one after the other, from the
    first to the last, in the world [w]: each operation is converted into a
    transaction, a new one that carries the operation's timestamp and is
    filled by [apply] in the world that the operations before it have left.
    The result is the transactions in this order, and the world after the
    last. *)
Fixpoint apply_in_order (ops : list LogicalLog.mfs_operation) (w : world)
    : list transaction * world :=
  match ops with
  | [] => ([], w)
  | op :: ops' =>
      let '(tr, w1) := apply op (new_transaction (LogicalLog.timestamp op)) w in
      let '(trs, w2) := apply_in_order ops' w1 in
      (tr :: trs, w2)
  end.

(** [mfs_interface::process_metadata_log()], the flavour without arguments
    that [sync] runs, after [wait_synchronize(sync_tsc)] has merged the
    per-core logs into [operation_vec]: the operations are copied to [ops],
    [operation_vec] is cleared, and the copies are applied from [ops.begin()]
    to [ops.end()], each in a transaction of its own that joins the
    journal. *)
Definition process_metadata_log (st : LogicalLog.log_state world)
    : LogicalLog.log_state world :=
  let ops := LogicalLog.log_operation_vec st in
  foldl (fun s op => LogicalLog.apply_op world apply op s)
        {| LogicalLog.log_operation_vec := [];
           LogicalLog.transaction_log := LogicalLog.transaction_log st;
           LogicalLog.the_world := LogicalLog.the_world st;
           LogicalLog.applied := LogicalLog.applied st |}
        ops.
End Sync.
End Sync.

(** *** The metadata operations and the loaders *)

Module MfsOps.
Import Mfs.

(** Modelled from the spec: [update_dir] is a function of fs.cc, which is
    not among the sources; as the other functions of the inode layer that are
    handed the transaction, it returns it with what it logged. *)
Class DirLayer `{InodeLayer} := {
  update_dir : Z -> transaction -> disk -> transaction * disk;
}.

(** Modelled from the spec: [m->type()] of mnode.hh, which is not among the
    sources: the type of the mnode with a given number. *)
Class MnodeTypes `{MnodeLayer} := {
  mnode_type : mfs -> Z -> Z;
}.

Section Operations.
Context `{InodeLayer} `{MnodeLayer} `{LinearHash} `{!DirLayer} `{!MnodeTypes}.

(** [mfs_interface::get_file_size]; [None] is a panic of [get_inode]. *)
Definition get_file_size (mfile_inum : Z) (s : mfs_state) : option Z :=
  match get_inode mfile_inum s with
  | None => None
  | Some i => Some (inode_size (dsk s) i)
  end.

(** [mfs_interface::update_dir_inode] *)
Definition update_dir_inode (mdir_inum : Z) (tr : transaction) (s : mfs_state)
    : option (transaction * mfs_state) :=
  match get_inode mdir_inum s with
  | None => None
  | Some i =>
      let '(tr1, d1) := update_dir i tr (dsk s) in
      Some (tr1, set_dsk d1 s)
  end.

(** [mfs_interface::mfs_create], on the fields of the operation; a type that
    is neither [file] nor [dir] is passed over. *)
Definition mfs_create (mnode parent mnode_type : Z) (name : string)
    (tr : transaction) (s : mfs_state) : option (transaction * mfs_state) :=
  if mnode_type =? type_file then
    match create_file_if_new mnode parent mnode_type name tr true s with
    | None => None
    | Some (_, tr1, s1) => Some (tr1, s1)
    end
  else if mnode_type =? type_dir then
    match create_dir_if_new mnode parent mnode_type name tr true s with
    | None => None
    | Some (_, tr1, s1) => Some (tr1, s1)
    end
  else Some (tr, s).

(** [mfs_interface::mfs_link] *)
Definition mfs_link (mnode parent mnode_type : Z) (name : string)
    (tr : transaction) (s : mfs_state) : option (transaction * mfs_state) :=
  match create_directory_entry parent name mnode mnode_type tr s with
  | None => None
  | Some (tr1, s1) => update_dir_inode parent tr1 s1
  end.

(** [mfs_interface::mfs_unlink]; the name is copied into a buffer of
    [DIRSIZ] bytes first, which leaves a name that fits unchanged. *)
Definition mfs_unlink (parent : Z) (name : string)
    (tr : transaction) (s : mfs_state) : option (transaction * mfs_state) :=
  match unlink_old_inode parent name tr s with
  | None => None
  | Some (tr1, s1) => update_dir_inode parent tr1 s1
  end.

(** [mfs_interface::mfs_delete] *)
Definition mfs_delete (mnode : Z) (tr : transaction) (s : mfs_state)
    : option (transaction * mfs_state) :=
  delete_old_inode mnode tr s.

(** [mfs_interface::mfs_rename]: the new entry is created and its directory
    updated before the old entry is unlinked. *)
Definition mfs_rename (mnode parent new_parent mnode_type : Z)
    (name newname : string) (tr : transaction) (s : mfs_state)
    : option (transaction * mfs_state) :=
  match create_directory_entry new_parent newname mnode mnode_type tr s with
  | None => None
  | Some (tr1, s1) =>
      match update_dir_inode new_parent tr1 s1 with
      | None => None
      | Some (tr2, s2) =>
          match unlink_old_inode parent name tr2 s2 with
          | None => None
          | Some (tr3, s3) => update_dir_inode parent tr3 s3
          end
      end
  end.

(** [mfs_interface::load_root]: the reference it returns, which is the one
    found in [inum_to_mnode] when inode 1 has an entry there. [None] is the
    failed [assert(i->type.load() == T_DIR)] or the use of a null inode
    reference. *)
Definition load_root (s : mfs_state) : option (option Z * mfs_state) :=
  match inum_to_mnode s !! 1 with
  | Some m => Some (m, s)
  | None =>
      if iget (dsk s) 1 then
        if inode_type (dsk s) 1 =? T_DIR then
          let '(m, s1) := mnode_alloc 1 type_dir s in
          Some (Some m, s1)
        else None
      else None
  end.

(** The test of the loops of [sync_dirty_files], [evict_bufcache] and
    [evict_pagecache]: [inum_to_mnode] has a non-null mnode for [i], and it
    is a file. *)
Definition is_file_inode (s : mfs_state) (i : Z) : bool :=
  match inum_to_mnode s !! i with
  | Some (Some m) => mnode_type (root_fs s) m =? type_file
  | _ => false
  end.

(** [mfs_interface::evict_bufcache], for a superblock with [ninodes]
    inodes ([i] runs from 0 up to [sb.ninodes]): the inodes that are handed
    to [drop_bufcache], in the order of the calls. [None] is a panic of
    [get_inode]. *)
Definition evict_bufcache (ninodes : Z) (s : mfs_state) : option (list Z) :=
  foldl (fun acc i =>
           match acc with
           | None => None
           | Some dropped =>
               match inum_to_mnode s !! Z.of_nat i with
               | Some (Some m) =>
                   if mnode_type (root_fs s) m =? type_file then
                     match get_inode m s with
                     | None => None
                     | Some ip => Some (dropped ++ [ip])
                     end
                   else Some dropped
               | _ => Some dropped
               end
           end)
        (Some []) (seq 0 (Z.to_nat ninodes)).
End Operations.

(** A stand-in for [update_dir], which logs the directory's inode, and the
    mnode types of the example: mnode 10 is a directory, the others are
    files. *)
#[export] Instance simple_dirs : @DirLayer simple_fs :=
  {| update_dir := fun dp tr d => (log_inode dp tr, d) |}.
#[export] Instance simple_types : @MnodeTypes simple_mnodes :=
  {| mnode_type := fun _ m => if m =? 10 then 1 else 2 |}.

End MfsOps.

(** * Properties *)

(** ** The block allocator *)

Section AllocatorFacts.
Import Allocator.

Lemma init_bit_building bitmap b s bi :
  building s ->
  b + Z.of_nat bi = Z.of_nat (length (free_bit_vector s)) ->
  building (init_bit bitmap b s bi) /\
  length (free_bit_vector (init_bit bitmap b s bi)) = S (length (free_bit_vector s)) /\
  sb_size (init_bit bitmap b s bi) = sb_size s.
Proof.
  intros (Hb & Hn & Hf) Hlen.
  assert (Hfresh : length (free_bit_vector s) ∉ free_bit_freelist s).
  { intros Hin. apply Hf in Hin as (bit & Hl & _).
    apply lookup_lt_Some in Hl. lia. }
  split; [|split]; [|unfold init_bit; simpl; rewrite length_app; simpl; lia|reflexivity].
  unfold init_bit, building; simpl.
  set (f := Z.land _ _ =? 0).
  split; [|split].
  - intros i bit Hl. apply lookup_app_Some in Hl as [Hl|[Hge Hl]].
    + eauto.
    + apply list_lookup_singleton_Some in Hl as [Hi <-]. simpl. lia.
  - destruct f; [|done]. apply NoDup_app. split; [done|]. split.
    + intros x Hx Hx'. apply list_elem_of_singleton in Hx'. subst. done.
    + apply NoDup_singleton.
  - intros i. split.
    + intros Hin.
      assert (Hcase : i ∈ free_bit_freelist s \/
                      (f = true /\ i = length (free_bit_vector s))).
      { destruct f; [|by left].
        apply elem_of_app in Hin as [?|Hin]; [by left|].
        apply list_elem_of_singleton in Hin. by right. }
      destruct Hcase as [Hin'|[Hft ->]].
      * apply Hf in Hin' as (bit & Hl & Hfree). exists bit. split; [|done].
        by apply lookup_app_l_Some.
      * exists (mk_free_bit (b + Z.of_nat bi) f). split; [|exact Hft].
        rewrite lookup_app_r by lia. by rewrite Nat.sub_diag.
    + intros (bit & Hl & Hfree).
      apply lookup_app_Some in Hl as [Hl|[Hge Hl]].
      * assert (i ∈ free_bit_freelist s) by (apply Hf; eauto).
        destruct f; [apply elem_of_app; by left|done].
      * apply list_lookup_singleton_Some in Hl as [Hi <-]. simpl in Hfree.
        rewrite Hfree. apply elem_of_app. right.
        apply list_elem_of_singleton. lia.
Qed.

Lemma init_bits_building bitmap b s n :
  building s ->
  b = Z.of_nat (length (free_bit_vector s)) ->
  let s' := foldl (init_bit bitmap b) s (seq 0 n) in
  building s' /\
  length (free_bit_vector s') = (length (free_bit_vector s) + n)%nat /\
  sb_size s' = sb_size s.
Proof.
  intros Hb Hlen. induction n as [|n IH]; cbv zeta.
  - simpl. split; [done|]. split; [lia|done].
  - rewrite seq_S, foldl_app. cbv zeta in IH. cbn [foldl Nat.add].
    destruct IH as (IH1 & IH2 & IH3).
    pose proof (init_bit_building bitmap b _ n IH1) as (H1 & H2 & H3).
    { rewrite IH2. lia. }
    split; [done|]. split; [rewrite H2, IH2; lia|congruence].
Qed.

Lemma init_blocks_building bitmap size K :
  0 <= size ->
  (Z.of_nat K <= (size + BPB - 1) / BPB) ->
  let s' := foldl (init_block bitmap)
              {| free_bit_vector := []; free_bit_freelist := []; sb_size := size |}
              (seq 0 K) in
  building s' /\
  Z.of_nat (length (free_bit_vector s')) = Z.min size (Z.of_nat K * BPB) /\
  sb_size s' = size.
Proof.
  intros Hsize. induction K as [|K IH]; intros HK; cbv zeta.
  - simpl. split; [|split; [simpl; lia|done]].
    split; [|split]; simpl.
    + intros i bit Hl. by rewrite lookup_nil in Hl.
    + apply NoDup_nil_2.
    + intros i. split; [intros Hin; by apply elem_of_nil in Hin|].
      intros (bit & Hl & _). by rewrite lookup_nil in Hl.
  - rewrite seq_S, foldl_app. cbv zeta in IH. cbn [foldl Nat.add].
    destruct IH as (IH1 & IH2 & IH3); [lia|].
    set (s := foldl _ _ _) in *.
    assert (HBPB : BPB = 32768) by reflexivity.
    assert (Hlt : Z.of_nat K * BPB < size).
    { assert (Z.of_nat K + 1 <= (size + BPB - 1) / BPB) by lia.
      assert (BPB * ((size + BPB - 1) / BPB) <= size + BPB - 1)
        by (apply Z.mul_div_le; lia).
      nia. }
    unfold init_block. rewrite IH3.
    pose proof (init_bits_building bitmap (Z.of_nat K * BPB) s
                  (Z.to_nat (Z.min BPB (size - Z.of_nat K * BPB))) IH1)
      as (H1 & H2 & H3); [lia|].
    split; [done|]. split; [|congruence].
    rewrite H2. lia.
Qed.

Lemma initialize_inv bitmap size :
  0 <= size -> alloc_inv (initialize_free_bit_vector bitmap size).
Proof.
  intros Hsize. unfold initialize_free_bit_vector.
  pose proof (init_blocks_building bitmap size
                (Z.to_nat ((size + BPB - 1) / BPB)) Hsize) as (H1 & H2 & H3).
  { assert (BPB = 32768) by reflexivity.
    assert (0 <= (size + BPB - 1) / BPB) by (apply Z.div_pos; lia). lia. }
  destruct H1 as (Hb & Hn & Hf).
  split; try done.
  rewrite H2, H3.
  assert (HBPB : BPB = 32768) by reflexivity.
  assert (0 <= (size + BPB - 1) / BPB) by (apply Z.div_pos; lia).
  rewrite Z2Nat.id by done.
  assert (size + BPB - 1 < BPB * ((size + BPB - 1) / BPB) + BPB).
  { pose proof (Z.mod_pos_bound (size + BPB - 1) BPB).
    pose proof (Z.div_mod (size + BPB - 1) BPB). lia. }
  lia.
Qed.

Lemma alloc_block_inv s bno s' :
  alloc_inv s -> alloc_block s = Some (bno, s') -> alloc_inv s'.
Proof.
  intros Hinv Ha. pose proof Hinv as [Hb Hn Hf Hs]. unfold alloc_block in Ha.
  destruct (free_bit_freelist s) as [|it rest] eqn:Hfl; [by simplify_eq|].
  destruct (free_bit_vector s !! it) as [bit|] eqn:Hit; [|done].
  destruct (is_free bit) eqn:Hfree; [|done]. simplify_eq.
  apply NoDup_cons in Hn as [Hnotin Hn].
  split; simpl.
  - intros i b Hl. destruct (decide (i = it)) as [->|Hne].
    + rewrite list_lookup_insert_eq in Hl by (by eapply lookup_lt_Some).
      simplify_eq. simpl. eauto.
    + rewrite list_lookup_insert_ne in Hl by done. eauto.
  - done.
  - intros i. split.
    + intros Hin. assert (i <> it) by (intros ->; done).
      rewrite list_lookup_insert_ne by done. apply Hf. by right.
    + intros (b & Hl & Hfr). destruct (decide (i = it)) as [->|Hne].
      * rewrite list_lookup_insert_eq in Hl by (by eapply lookup_lt_Some).
        by simplify_eq.
      * rewrite list_lookup_insert_ne in Hl by done.
        assert (Hin : i ∈ it :: rest) by (apply Hf; eauto).
        apply elem_of_cons in Hin as [?|?]; done.
  - by rewrite length_insert.
Qed.

Lemma free_block_inv s bno s' :
  alloc_inv s -> free_block bno s = Some s' -> alloc_inv s'.
Proof.
  intros [Hb Hn Hf Hs] Ha. unfold free_block in Ha.
  destruct (bno <? 0); [done|].
  destruct (free_bit_vector s !! Z.to_nat bno) as [bit|] eqn:Hit; [|done].
  destruct (is_free bit) eqn:Hfree; [done|]. simplify_eq.
  set (it := Z.to_nat bno) in *.
  assert (Hnotin : it ∉ free_bit_freelist s).
  { intros Hin. apply Hf in Hin as (b & Hl & Hfr). congruence. }
  split; simpl.
  - intros i b Hl. destruct (decide (i = it)) as [->|Hne].
    + rewrite list_lookup_insert_eq in Hl by (by eapply lookup_lt_Some).
      simplify_eq. simpl. eauto.
    + rewrite list_lookup_insert_ne in Hl by done. eauto.
  - by apply NoDup_cons.
  - intros i. destruct (decide (i = it)) as [->|Hne].
    + rewrite list_lookup_insert_eq by (by eapply lookup_lt_Some).
      split; [eauto|]. intros _. by left.
    + rewrite list_lookup_insert_ne by done. rewrite <- Hf.
      rewrite elem_of_cons. split; [intros [?|?]; done|by right].
  - by rewrite length_insert.
Qed.

Lemma reachable_inv s : reachable s -> alloc_inv s.
Proof.
  induction 1; eauto using initialize_inv, alloc_block_inv, free_block_inv.
Qed.

(** The two outcomes of [alloc_block] on a state that satisfies the
    invariant. *)
Lemma alloc_block_cases s :
  alloc_inv s ->
  exists bno s',
    alloc_block s = Some (bno, s') /\
    ((free_bit_freelist s <> [] /\
      0 <= bno < sb_size s /\
      bit_is_free s bno = Some true /\
      bit_is_free s' bno = Some false /\
      (Z.to_nat bno ∉ free_bit_freelist s') /\
      (forall b, b <> bno -> bit_is_free s' b = bit_is_free s b)) \/
     (free_bit_freelist s = [] /\ bno = sb_size s /\ s' = s)).
Proof.
  intros Hinv. pose proof Hinv as [Hb Hn Hf Hs].
  unfold alloc_block.
  destruct (free_bit_freelist s) as [|it rest] eqn:Hfl.
  { exists (sb_size s), s. split; [done|]. by right. }
  assert (Hin : it ∈ (it :: rest)) by by left.
  apply Hf in Hin as (bit & Hit & Hfree). rewrite Hit, Hfree.
  pose proof (Hb _ _ Hit) as Hbno.
  pose proof (lookup_lt_Some _ _ _ Hit) as Hlt.
  apply NoDup_cons in Hn as [Hnotin Hn].
  eexists _, _. split; [reflexivity|]. left.
  assert (Hnn : (bno_ bit <? 0) = false) by (apply Z.ltb_ge; lia).
  assert (Hidx : Z.to_nat (bno_ bit) = it) by lia.
  split; [done|]. split; [lia|].
  unfold bit_is_free; simpl. rewrite Hnn, Hidx.
  split; [by rewrite Hit; simpl; rewrite Hfree|].
  split; [by rewrite list_lookup_insert_eq|].
  split; [done|].
  intros b Hne. destruct (b <? 0) eqn:Hb0; [done|].
  rewrite list_lookup_insert_ne; [done|]. apply Z.ltb_ge in Hb0. lia.
Qed.

End AllocatorFacts.

(** C9. From every allocator state the kernel can reach
    ([initialize_free_bit_vector] followed by calls of [alloc_block] and
    [free_block]), [alloc_block] returns and does not panic. Either the
    freelist was not empty and the returned block number is in range, its free
    bit was [true] and is now [false], the bit is no longer in the freelist and
    no other free bit changed; or the freelist was empty, the result is the
    sentinel [sb.size] and the state is unchanged. *)
Theorem alloc_block_returns (s : Allocator.alloc_state) :
  Allocator.reachable s ->
  exists bno s',
    Allocator.alloc_block s = Some (bno, s') /\
    ((Allocator.free_bit_freelist s <> [] /\
      0 <= bno < Allocator.sb_size s /\
      Allocator.bit_is_free s bno = Some true /\
      Allocator.bit_is_free s' bno = Some false /\
      (Z.to_nat bno ∉ Allocator.free_bit_freelist s') /\
      (forall b, b <> bno -> Allocator.bit_is_free s' b = Allocator.bit_is_free s b)) \/
     (Allocator.free_bit_freelist s = [] /\ bno = Allocator.sb_size s /\ s' = s)).
Proof.
  intros Hr. apply alloc_block_cases. by apply reachable_inv.
Qed.

(** Witness state for [alloc_block_returns]: four blocks, the bitmap byte
    [5] marks blocks 0 and 2 as allocated. *)
Lemma alloc_block_returns_witness :
  exists bno s',
    Allocator.alloc_block (Allocator.initialize_free_bit_vector (fun _ _ => 5) 4)
      = Some (bno, s') /\
    ((Allocator.free_bit_freelist
        (Allocator.initialize_free_bit_vector (fun _ _ => 5) 4) <> [] /\
      0 <= bno < 4 /\
      Allocator.bit_is_free
        (Allocator.initialize_free_bit_vector (fun _ _ => 5) 4) bno = Some true /\
      Allocator.bit_is_free s' bno = Some false /\
      (Z.to_nat bno ∉ Allocator.free_bit_freelist s') /\
      (forall b, b <> bno ->
         Allocator.bit_is_free s' b =
         Allocator.bit_is_free
           (Allocator.initialize_free_bit_vector (fun _ _ => 5) 4) b)) \/
     (Allocator.free_bit_freelist
        (Allocator.initialize_free_bit_vector (fun _ _ => 5) 4) = [] /\
      bno = 4 /\ s' = Allocator.initialize_free_bit_vector (fun _ _ => 5) 4)).
Proof.
  apply (alloc_block_returns (Allocator.initialize_free_bit_vector (fun _ _ => 5) 4)).
  apply Allocator.reach_init. lia.
Defined.

(** The first free block of that state is block 1. *)
Example alloc_block_example :
  fst <$> Allocator.alloc_block (Allocator.initialize_free_bit_vector (fun _ _ => 5) 4)
  = Some 1.
Proof. reflexivity. Qed.

(** ** Recovery *)

Section RecoveryFacts.
Import Recovery.
Context `{JournalBlockTypes}.

Lemma eqb_start_data : (jrnl_data =? jrnl_start) = false.
Proof. apply Z.eqb_neq. pose proof jrnl_start_data. congruence. Qed.
Lemma eqb_commit_start : (jrnl_commit =? jrnl_start) = false.
Proof. apply Z.eqb_neq. pose proof jrnl_start_commit. congruence. Qed.
Lemma eqb_commit_data : (jrnl_commit =? jrnl_data) = false.
Proof. apply Z.eqb_neq. pose proof jrnl_data_commit. congruence. Qed.
Lemma eqb_start_data_l : (jrnl_start =? jrnl_data) = false.
Proof. apply Z.eqb_neq, jrnl_start_data. Qed.
Lemma eqb_start_commit_l : (jrnl_start =? jrnl_commit) = false.
Proof. apply Z.eqb_neq, jrnl_start_commit. Qed.

(** Nothing is added to the recovery transaction by a tail that holds no
    matching Commit record. *)
Lemma loop_uncommitted cur tail :
  uncommitted cur tail ->
  forall block_vec trans, process_journal_loop tail cur block_vec trans = trans.
Proof.
  induction 1 as [cur|cur hd d rest Hz|cur hd d rest H1 H2 H3|cur hd d rest H1 H2
                 |cur hd d rest H1 _ IH|cur hd d rest H1 H2 _ IH];
    intros block_vec trans; simpl.
  - done.
  - by rewrite Hz.
  - destruct (is_zero_header hd); [done|].
    apply Z.eqb_neq in H1, H2, H3. by rewrite H1, H2, H3.
  - destruct (is_zero_header hd); [done|].
    apply Z.eqb_neq in H1, H2. rewrite H1, H2.
    by repeat case_match.
  - destruct (is_zero_header hd); [done|].
    rewrite H1, Z.eqb_refl. apply IH.
  - destruct (is_zero_header hd); [done|].
    rewrite H1, eqb_start_data, Z.eqb_refl, H2, Z.eqb_refl. apply IH.
Qed.

Lemma loop_data_records ts bs rest block_vec trans :
  Forall (fun r : journal_record => is_zero_header r.1 = false)
         (map (data_record ts) bs) ->
  process_journal_loop (map (data_record ts) bs ++ rest) ts block_vec trans =
  process_journal_loop rest ts (block_vec ++ bs) trans.
Proof.
  revert block_vec. induction bs as [|b bs IH]; intros block_vec Hnz; simpl.
  - by rewrite app_nil_r.
  - apply Forall_cons in Hnz as [Hb Hnz]. simpl in Hb. rewrite Hb.
    rewrite eqb_start_data, !Z.eqb_refl. rewrite IH by done.
    rewrite <- app_assoc. by destruct b.
Qed.

(** A committed transaction moves its blocks, and only them, into the
    recovery transaction, whatever was pending before its Start record. *)
Lemma loop_committed tx rest cur block_vec trans :
  nonzero_headers tx ->
  process_journal_loop (committed_records tx ++ rest) cur block_vec trans =
  process_journal_loop rest tx.1 [] (trans ++ tx.2).
Proof.
  destruct tx as [ts bs]. unfold nonzero_headers, committed_records. simpl.
  intros Hnz. apply Forall_cons in Hnz as [Hs Hnz]. simpl in Hs. rewrite Hs.
  rewrite Z.eqb_refl. apply Forall_app in Hnz as [Hd Hc].
  rewrite <- app_assoc, loop_data_records by done. simpl.
  apply Forall_cons in Hc as [Hc _]. simpl in Hc. rewrite Hc.
  by rewrite eqb_commit_start, eqb_commit_data, !Z.eqb_refl.
Qed.

Lemma loop_committed_prefix txs tail cur trans :
  Forall nonzero_headers txs ->
  uncommitted (match last txs with Some tx => tx.1 | None => cur end) tail ->
  process_journal_loop (flat_map committed_records txs ++ tail) cur [] trans =
  trans ++ flat_map snd txs.
Proof.
  revert cur trans. induction txs as [|tx txs IH]; intros cur trans Hnz Htail.
  - simpl. rewrite app_nil_r. by apply loop_uncommitted.
  - apply Forall_cons in Hnz as [Hnz1 Hnz].
    change (flat_map committed_records (tx :: txs))
      with (committed_records tx ++ flat_map committed_records txs).
    change (flat_map snd (tx :: txs)) with (tx.2 ++ flat_map snd txs).
    rewrite <- app_assoc, loop_committed by done.
    rewrite IH; [by rewrite app_assoc|done|].
    destruct txs as [|tx' txs]; [exact Htail|].
    rewrite last_cons_cons in Htail.
    destruct (last (tx' :: txs)) eqn:E; [done|]. by apply last_None in E.
Qed.
(** A transaction that was cut before its Commit record leaves its blocks
    pending; one that has its Commit record moves them into the recovery
    transaction. Either way, what was pending before its Start record is
    gone. *)
Lemma loop_logged tx rest cur block_vec trans :
  Forall (fun r : journal_record => is_zero_header r.1 = false) (logged_records tx) ->
  process_journal_loop (logged_records tx ++ rest) cur block_vec trans =
  if tx.2 then process_journal_loop rest tx.1.1 [] (trans ++ tx.1.2)
  else process_journal_loop rest tx.1.1 tx.1.2 trans.
Proof.
  destruct tx as [[ts bs] c]. unfold logged_records. simpl.
  intros Hnz. apply Forall_cons in Hnz as [Hs Hnz]. simpl in Hs. rewrite Hs.
  rewrite Z.eqb_refl. apply Forall_app in Hnz as [Hd Hc].
  rewrite <- app_assoc, loop_data_records by done. simpl.
  destruct c; [|done]. simpl.
  apply Forall_cons in Hc as [Hc _]. simpl in Hc. rewrite Hc.
  by rewrite eqb_commit_start, eqb_commit_data, !Z.eqb_refl.
Qed.

Lemma loop_logged_prefix txs tail cur block_vec trans :
  Forall (fun tx => Forall (fun r : journal_record => is_zero_header r.1 = false)
                      (logged_records tx)) txs ->
  uncommitted (match last txs with Some tx => tx.1.1 | None => cur end) tail ->
  process_journal_loop (flat_map logged_records txs ++ tail) cur block_vec trans =
  trans ++ flat_map logged_blocks txs.
Proof.
  revert cur block_vec trans.
  induction txs as [|tx txs IH]; intros cur block_vec trans Hnz Htail.
  - simpl. rewrite app_nil_r. by apply loop_uncommitted.
  - apply Forall_cons in Hnz as [Hnz1 Hnz].
    change (flat_map logged_records (tx :: txs))
      with (logged_records tx ++ flat_map logged_records txs).
    change (flat_map logged_blocks (tx :: txs))
      with (logged_blocks tx ++ flat_map logged_blocks txs).
    rewrite <- app_assoc, loop_logged by done.
    assert (Hlast : uncommitted
                      (match last txs with Some tx' => tx'.1.1 | None => tx.1.1 end)
                      tail).
    { destruct txs as [|tx' txs]; [exact Htail|].
      rewrite last_cons_cons in Htail.
      destruct (last (tx' :: txs)) eqn:E; [done|]. by apply last_None in E. }
    unfold logged_blocks at 1. destruct tx.2.
    + rewrite IH by done. by rewrite app_assoc.
    + by rewrite IH.
Qed.

(** The loop on any journal: the recovery transaction receives the pending
    blocks if a Commit record closes them, and the blocks of the accepted
    Data records that a Commit record closes. *)
Lemma loop_scanned journal cur block_vec trans :
  process_journal_loop journal cur block_vec trans =
  trans ++ (if next_is_commit (scanned cur journal) then block_vec else []) ++
  committed_blocks (scanned cur journal).
Proof.
  revert cur block_vec trans.
  induction journal as [|[hd d] rest IH]; intros cur block_vec trans; simpl.
  - by rewrite app_nil_r.
  - destruct (is_zero_header hd); [by rewrite app_nil_r|].
    destruct (Hdr.block_type hd =? jrnl_start) eqn:Es.
    { apply Z.eqb_eq in Es. rewrite IH. simpl.
      rewrite Es, eqb_start_data_l, eqb_start_commit_l. simpl.
      by destruct (next_is_commit _). }
    destruct (Hdr.block_type hd =? jrnl_data) eqn:Ed.
    { simpl. destruct (Hdr.timestamp hd =? cur); [|by rewrite app_nil_r].
      rewrite IH. simpl. rewrite Ed. simpl.
      destruct (next_is_commit _); [|done].
      by rewrite <- !app_assoc. }
    destruct (Hdr.block_type hd =? jrnl_commit) eqn:Ec; simpl;
      [|by rewrite app_nil_r].
    destruct (Hdr.timestamp hd =? cur); [|by rewrite app_nil_r].
    rewrite IH. simpl. rewrite Ed, Ec. simpl.
    destruct (next_is_commit _); by rewrite <- !app_assoc.
Qed.

(** Whatever the values of the three record types: a Data record and a
    Commit record with timestamp 0 at the head of the journal are applied
    without any Start record. *)
Lemma loop_without_start bn d dc :
  bn <> 0 ->
  process_journal [(Hdr.mk_header 0 bn jrnl_data, d);
                   (Hdr.mk_header 0 bn jrnl_commit, dc)]
  = [mk_diskblock bn d].
Proof.
  intros Hbn. apply Z.eqb_neq in Hbn.
  unfold process_journal, process_journal_loop, is_zero_header. simpl.
  rewrite Hbn. simpl.
  by rewrite eqb_start_data, eqb_commit_start, eqb_commit_data, !Z.eqb_refl.
Qed.

(** The accepted records are the head of the journal. *)
Lemma scanned_prefix cur journal : scanned cur journal `prefix_of` journal.
Proof.
  revert cur. induction journal as [|[hd d] rest IH]; intros cur; simpl.
  - done.
  - repeat case_match; try apply prefix_nil; by apply prefix_cons.
Qed.
End RecoveryFacts.

(** C4 (amended). For every journal content, [process_journal] hands to the
    buffer cache exactly the blocks of those Data records, among the records
    that the sequential read from offset 0 accepts, whose run of Data records
    ends in a Commit record, in journal order. The read stops at the end of
    the file, at the first zero header, at a record of unknown type and at a
    Data or Commit record whose timestamp is not the one in force, which is
    that of the latest Start record and 0 before the first Start record.
    In particular, when the journal holds whole transactions, each a Start
    record, Data records and possibly a Commit record, all with the timestamp
    of the Start record, followed by a tail in which the scan stops before a
    matching Commit record, then exactly the blocks of the transactions that
    have their Commit record are applied: a transaction with Start and Data
    records and no Commit record contributes nothing, wherever it stands. *)
Theorem process_journal_applies_committed `{JournalBlockTypes} :
  (forall journal : list journal_record,
     Recovery.process_journal journal =
     Recovery.committed_blocks (Recovery.scanned 0 journal)) /\
  (forall (txs : list ((Z * list transaction_diskblock) * bool))
          (tail : list journal_record),
     Forall (fun tx => Forall (fun r : journal_record => is_zero_header r.1 = false)
                         (Recovery.logged_records tx)) txs ->
     Recovery.uncommitted (Recovery.last_timestamp (fst <$> txs)) tail ->
     Recovery.process_journal (flat_map Recovery.logged_records txs ++ tail)
     = flat_map Recovery.logged_blocks txs).
Proof.
  split.
  - intros journal. unfold Recovery.process_journal. rewrite loop_scanned.
    by destruct (Recovery.next_is_commit _).
  - intros txs tail Hnz Htail. unfold Recovery.process_journal.
    rewrite loop_logged_prefix; [done|done|].
    unfold Recovery.last_timestamp in Htail. rewrite fmap_last in Htail.
    by destruct (last txs).
Qed.

(** ** The logical log and the fsync dependency walk *)

Section WalkFacts.
Import LogicalLog.
Variable check_parent_dependency : mfs_operation -> list Z -> Z -> bool * list Z.
Variable check_dependency : mfs_operation -> list Z -> bool * list Z.
Variable world : Type.
Variable apply : mfs_operation -> transaction -> world -> transaction * world.

Local Abbreviation scan := (scan check_parent_dependency check_dependency).
Local Abbreviation find_loop := (find_loop check_parent_dependency check_dependency).
Local Abbreviation find_dependent_ops :=
  (find_dependent_ops check_parent_dependency check_dependency).
Local Abbreviation apply_op := (apply_op world apply).
Local Abbreviation apply_loop := (apply_loop world apply).

Lemma marked_cons_same b o (marks : list (mfs_operation * bool)) :
  marked b ((o, b) :: marks) = o :: marked b marks.
Proof. unfold marked. by rewrite filter_cons_True. Qed.

Lemma marked_cons_other b o (marks : list (mfs_operation * bool)) :
  marked b ((o, negb b) :: marks) = marked b marks.
Proof. unfold marked. rewrite filter_cons_False; [done|]. by destruct b. Qed.

(** The index loop with its erasures computes the same as the scan from the
    newest operation: the dependent operations are pushed in the order of
    the scan, the others stay in place. *)
Lemma find_loop_scan inum isdir pre post vec deps :
  find_loop inum isdir (length pre)
    {| operation_vec := pre ++ post; mnode_vec := vec; dependent_ops := deps |} =
  {| operation_vec :=
       reverse (marked false (scan inum isdir (reverse pre) vec).1) ++ post;
     mnode_vec := (scan inum isdir (reverse pre) vec).2;
     dependent_ops := deps ++ marked true (scan inum isdir (reverse pre) vec).1 |}.
Proof.
  revert post vec deps. induction pre as [|o pre IH] using rev_ind;
    intros post vec deps.
  - simpl. by rewrite app_nil_r.
  - rewrite length_app, Nat.add_1_r. cbn [LogicalLog.find_loop].
    unfold find_step. cbn [operation_vec mnode_vec dependent_ops].
    replace ((pre ++ [o]) ++ post) with (pre ++ o :: post)
      by (by rewrite <- app_assoc).
    rewrite list_lookup_middle by done.
    rewrite reverse_snoc. cbn [LogicalLog.scan].
    destruct (is_dependent _ _ inum isdir o vec) as [dep vec1].
    destruct dep.
    + rewrite delete_middle.
      rewrite IH. destruct (scan inum isdir (reverse pre) vec1) as [marks vec2].
      cbn [fst snd]. rewrite marked_cons_same.
      rewrite (marked_cons_other false). by rewrite <- app_assoc.
    + rewrite IH. destruct (scan inum isdir (reverse pre) vec1) as [marks vec2].
      cbn [fst snd]. rewrite marked_cons_same.
      rewrite (marked_cons_other true). rewrite reverse_cons.
      by rewrite <- app_assoc.
Qed.

Lemma find_dependent_ops_scan inum isdir ops :
  find_dependent_ops inum isdir ops =
  (marked true (scan inum isdir (reverse ops) [inum]).1,
   reverse (marked false (scan inum isdir (reverse ops) [inum]).1)).
Proof.
  unfold LogicalLog.find_dependent_ops.
  pose proof (find_loop_scan inum isdir ops [] [inum] []) as Hl.
  rewrite app_nil_r in Hl. rewrite Hl. cbn. by rewrite app_nil_r.
Qed.

Lemma scan_fst inum isdir l vec : (scan inum isdir l vec).1.*1 = l.
Proof.
  revert vec. induction l as [|o l IH]; intros vec; cbn; [done|].
  destruct (is_dependent _ _ inum isdir o vec) as [dep vec1].
  specialize (IH vec1). destruct (scan inum isdir l vec1). cbn in *.
  by rewrite IH.
Qed.

Lemma marked_sublist b (marks : list (mfs_operation * bool)) :
  marked b marks `sublist_of` marks.*1.
Proof. unfold marked. apply fmap_sublist, sublist_filter. Qed.

Lemma sublist_reverse {A} (l k : list A) :
  l `sublist_of` k -> reverse l `sublist_of` reverse k.
Proof.
  induction 1 as [|x l k _ IH|x l k _ IH]; [done| |].
  - rewrite !reverse_cons. by apply sublist_app.
  - rewrite reverse_cons. by apply sublist_inserts_r.
Qed.

Lemma Forall_sublist {A} (P : A -> Prop) (l k : list A) :
  l `sublist_of` k -> Forall P k -> Forall P l.
Proof.
  induction 1 as [|x l k _ IH|x l k _ IH]; intros Hk; [done| |].
  - apply Forall_cons in Hk as [? ?]. constructor; auto.
  - apply Forall_cons in Hk as [? ?]. auto.
Qed.

Lemma StronglySorted_sublist {A} (R : relation A) (l k : list A) :
  l `sublist_of` k -> StronglySorted R k -> StronglySorted R l.
Proof.
  induction 1 as [|x l k Hs IH|x l k Hs IH]; intros Hk; [done| |].
  - apply StronglySorted_inv in Hk as [Hk Hx]. constructor; [by apply IH|].
    by eapply Forall_sublist.
  - apply StronglySorted_inv in Hk as [Hk Hx]. by apply IH.
Qed.

Lemma StronglySorted_reverse {A} (R : relation A) (l : list A) :
  StronglySorted R l -> StronglySorted (flip R) (reverse l).
Proof.
  induction 1 as [|x l Hs IH Hx]; [constructor|].
  rewrite reverse_cons. apply StronglySorted_app_2; [|done|repeat constructor].
  intros y z Hy Hz. apply list_elem_of_singleton in Hz as ->.
  rewrite elem_of_reverse in Hy. unfold flip.
  revert y Hy. by apply Forall_forall.
Qed.

(** The dependent operations were collected from the newest to the oldest
    position of [operation_vec]. *)
Lemma find_dependent_ops_sublist inum isdir ops :
  (find_dependent_ops inum isdir ops).1 `sublist_of` reverse ops.
Proof.
  rewrite find_dependent_ops_scan. cbn [fst].
  rewrite <- (scan_fst inum isdir (reverse ops) [inum]) at 2.
  apply marked_sublist.
Qed.

(** The second loop is a left-to-right pass over the reversed vector. *)
Lemma apply_loop_reverse deps k st :
  (k <= length deps)%nat ->
  apply_loop deps k st = foldl (fun s o => apply_op o s) st (reverse (take k deps)).
Proof.
  revert st. induction k as [|k IH]; intros st Hk; [done|].
  cbn [LogicalLog.apply_loop].
  destruct (lookup_lt_is_Some_2 deps k) as [op Hop]; [lia|].
  rewrite Hop, (take_S_r _ _ _ Hop), reverse_snoc. cbn [foldl].
  apply IH. lia.
Qed.

Lemma foldl_apply_op st l :
  let st' := foldl (fun s o => apply_op o s) st l in
  applied st' = applied st ++ l /\
  log_operation_vec st' = log_operation_vec st /\
  length (transaction_log st') = (length (transaction_log st) + length l)%nat.
Proof.
  revert st. induction l as [|o l IH]; intros st; cbn.
  - rewrite app_nil_r. split; [done|]. split; [done|lia].
  - destruct (IH (apply_op o st)) as (H1 & H2 & H3). cbv zeta in *.
    rewrite H1, H2, H3. unfold LogicalLog.apply_op.
    destruct (apply o _ _) as [tr w]. cbn. rewrite length_app, <- app_assoc.
    split; [done|]. split; [done|cbn; lia].
Qed.

Lemma foldl_apply_in_order st l :
  let st' := foldl (fun s o => apply_op o s) st l in
  transaction_log st' =
    transaction_log st ++ (Sync.apply_in_order world apply l (the_world st)).1 /\
  the_world st' = (Sync.apply_in_order world apply l (the_world st)).2.
Proof.
  revert st. induction l as [|o l IH]; intros st; cbn [foldl Sync.apply_in_order].
  - cbn. by rewrite app_nil_r.
  - destruct (IH (apply_op o st)) as [Ht Hw]. cbv zeta in *. rewrite Ht, Hw.
    unfold LogicalLog.apply_op.
    destruct (apply o (new_transaction (timestamp o)) (the_world st)) as [tr w].
    cbn [transaction_log the_world].
    destruct (Sync.apply_in_order world apply l w) as [trs w2]. cbn [fst snd].
    by rewrite <- app_assoc.
Qed.

Lemma apply_in_order_app l1 l2 (w : world) :
  Sync.apply_in_order world apply (l1 ++ l2) w =
  ((Sync.apply_in_order world apply l1 w).1 ++
   (Sync.apply_in_order world apply l2 (Sync.apply_in_order world apply l1 w).2).1,
   (Sync.apply_in_order world apply l2 (Sync.apply_in_order world apply l1 w).2).2).
Proof.
  revert w. induction l1 as [|o l1 IH]; intros w; cbn [app Sync.apply_in_order].
  - cbn. by destruct (Sync.apply_in_order world apply l2 w).
  - destruct (apply o (new_transaction (timestamp o)) w) as [tr w1].
    rewrite IH. destruct (Sync.apply_in_order world apply l1 w1) as [trs w2].
    cbn [fst snd].
    by destruct (Sync.apply_in_order world apply l2 w2).
Qed.

Lemma process_metadata_log_foldl inum isdir st :
  process_metadata_log check_parent_dependency check_dependency world apply
    inum isdir st =
  foldl (fun s o => apply_op o s)
    {| log_operation_vec := (find_dependent_ops inum isdir (log_operation_vec st)).2;
       transaction_log := transaction_log st;
       the_world := the_world st;
       applied := applied st |}
    (reverse (find_dependent_ops inum isdir (log_operation_vec st)).1).
Proof.
  unfold process_metadata_log.
  destruct (find_dependent_ops inum isdir (log_operation_vec st)) as [deps ops].
  cbn [fst snd]. destruct (Nat.eqb_spec (length deps) 0) as [Hz|Hz].
  - apply nil_length_inv in Hz. by subst.
  - rewrite apply_loop_reverse by done. by rewrite firstn_all.
Qed.
End WalkFacts.

(** C6. However the two dependency checks and [apply] are implemented, the
    operations that an fsync resolves are applied in the reverse of the order
    in which the walk collected them: the journal's transaction log receives,
    behind what it held, exactly the transactions that applying the reversed
    [dependent_ops] one after the other produces (each a new transaction with
    the operation's timestamp, filled by [apply] in the state that the
    operations before it have left), the rest of the state is what these
    applications leave, and the logical log keeps the other operations. The
    walk collects the operations newest first; with the logical log in
    timestamp order, they are therefore applied oldest first. *)
Theorem fsync_applies_oldest_first
    (check_parent_dependency : LogicalLog.mfs_operation -> list Z -> Z -> bool * list Z)
    (check_dependency : LogicalLog.mfs_operation -> list Z -> bool * list Z)
    (world : Type)
    (apply : LogicalLog.mfs_operation -> transaction -> world -> transaction * world)
    (inum : Z) (isdir : bool) (st : LogicalLog.log_state world) :
  LogicalLog.oldest_first (LogicalLog.log_operation_vec st) ->
  let found := LogicalLog.find_dependent_ops check_parent_dependency
                 check_dependency inum isdir (LogicalLog.log_operation_vec st) in
  let deps := found.1 in
  let st' := LogicalLog.process_metadata_log check_parent_dependency
               check_dependency world apply inum isdir st in
  let run := Sync.apply_in_order world apply (reverse deps)
               (LogicalLog.the_world st) in
  LogicalLog.newest_first deps /\
  LogicalLog.applied st' = LogicalLog.applied st ++ reverse deps /\
  LogicalLog.oldest_first (reverse deps) /\
  reverse deps `sublist_of` LogicalLog.log_operation_vec st /\
  length (LogicalLog.transaction_log st') =
    (length (LogicalLog.transaction_log st) + length deps)%nat /\
  LogicalLog.transaction_log st' = LogicalLog.transaction_log st ++ run.1 /\
  LogicalLog.the_world st' = run.2 /\
  LogicalLog.log_operation_vec st' = found.2.
Proof.
  intros Hsorted found deps st' run.
  pose proof (find_dependent_ops_sublist check_parent_dependency check_dependency
                inum isdir (LogicalLog.log_operation_vec st)) as Hsub.
  fold found deps in Hsub.
  assert (Hsub' : reverse deps `sublist_of` LogicalLog.log_operation_vec st).
  { apply sublist_reverse in Hsub. by rewrite reverse_involutive in Hsub. }
  split.
  { eapply StronglySorted_sublist; [exact Hsub|].
    by apply (StronglySorted_reverse _ _ Hsorted). }
  subst st'. rewrite process_metadata_log_foldl. fold found deps.
  match goal with |- context [foldl _ ?s0 _] => set (st1 := s0) end.
  pose proof (foldl_apply_op world apply st1 (reverse deps)) as (H1 & H2 & H3).
  pose proof (foldl_apply_in_order world apply st1 (reverse deps)) as (H4 & H5).
  cbv zeta in H1, H2, H3, H4, H5. rewrite H1, H2, H3, H4, H5, length_reverse.
  split; [done|]. split; [|done].
  eapply StronglySorted_sublist; [exact Hsub'|done].
Qed.

Section DependencyFacts.
Import LogicalLog.

Local Abbreviation sscan :=
  (LogicalLog.scan check_parent_dependency check_dependency).

Lemma mentions_spec op vec :
  mentions op vec = true <-> exists x, x ∈ mnums op /\ x ∈ vec.
Proof.
  unfold mentions. rewrite existsb_exists. split.
  - intros (x & Hin & Hx). apply bool_decide_eq_true in Hx.
    exists x. split; [by apply list_elem_of_In|done].
  - intros (x & Hin & Hx). exists x. split; [by apply list_elem_of_In|].
    by apply bool_decide_eq_true.
Qed.

(** With the modelled checks the verdict does not depend on [isdir]. *)
Lemma is_dependent_mentions inum isdir op vec :
  is_dependent check_parent_dependency check_dependency inum isdir op vec =
  (mentions op vec, if mentions op vec then vec ++ mnums op else vec).
Proof.
  unfold is_dependent, check_parent_dependency, check_dependency.
  destruct isdir, (mentions op vec) eqn:Hm; try done.
  all: by rewrite Hm.
Qed.

Lemma depends_on_lt V ops i : depends_on V ops i -> (i < length ops)%nat.
Proof. destruct 1; by eapply lookup_lt_Some. Qed.

Lemma depends_on_snoc V pre o i :
  depends_on V pre i -> depends_on V (pre ++ [o]) i.
Proof.
  induction 1 as [i oi x Hi Hx HV|i j oi oj x _ IH Hij Hi Hj Hx Hx'].
  - apply (dep_on_needed V _ i oi x); [|done..]. by apply lookup_app_l_Some.
  - apply (dep_on_newer V _ i j oi oj x); [exact IH|done| | |done..];
      by apply lookup_app_l_Some.
Qed.

Lemma depends_on_snoc_selected V pre o i :
  (exists x, x ∈ mnums o /\ x ∈ V) ->
  depends_on (V ++ mnums o) pre i -> depends_on V (pre ++ [o]) i.
Proof.
  intros (y & Hy & HyV).
  assert (Hlast : depends_on V (pre ++ [o]) (length pre)).
  { apply (dep_on_needed V _ (length pre) o y); [|done..].
    by apply list_lookup_middle. }
  induction 1 as [i oi x Hi Hx HV|i j oi oj x _ IH Hij Hi Hj Hx Hx'].
  - apply elem_of_app in HV as [HV|HV].
    + apply (dep_on_needed V _ i oi x); [|done..]. by apply lookup_app_l_Some.
    + apply (dep_on_newer V _ i (length pre) oi o x);
        [exact Hlast|by eapply lookup_lt_Some| | |done..].
      * by apply lookup_app_l_Some.
      * by apply list_lookup_middle.
  - apply (dep_on_newer V _ i j oi oj x); [exact IH|done| | |done..];
      by apply lookup_app_l_Some.
Qed.

Lemma depends_on_snoc_inv V pre o i :
  depends_on V (pre ++ [o]) i -> (i < length pre)%nat ->
  depends_on (V ++ mnums o) pre i.
Proof.
  induction 1 as [i oi x Hi Hx HV|i j oi oj x Hdj IH Hij Hi Hj Hx Hx'];
    intros Hlt.
  - rewrite lookup_app_l in Hi by done.
    apply (dep_on_needed _ _ i oi x); [done..|]. apply elem_of_app. by left.
  - rewrite lookup_app_l in Hi by done.
    destruct (decide (j < length pre)%nat) as [Hj'|Hj'].
    + rewrite lookup_app_l in Hj by done.
      apply (dep_on_newer _ _ i j oi oj x); [by apply IH|done..].
    + assert (j = length pre) as ->.
      { apply lookup_lt_Some in Hj. rewrite length_app in Hj. simpl in Hj. lia. }
      rewrite list_lookup_middle in Hj by done. simplify_eq.
      apply (dep_on_needed _ _ i oi x); [done..|]. apply elem_of_app. by right.
Qed.

Lemma depends_on_snoc_skipped V pre o i :
  (forall x, x ∈ mnums o -> x ∉ V) ->
  depends_on V (pre ++ [o]) i -> (i < length pre)%nat /\ depends_on V pre i.
Proof.
  intros Hno.
  induction 1 as [i oi x Hi Hx HV|i j oi oj x Hdj IH Hij Hi Hj Hx Hx'].
  - destruct (decide (i < length pre)%nat) as [Hlt|Hge].
    + rewrite lookup_app_l in Hi by done. split; [done|].
      by apply (dep_on_needed _ _ i oi x).
    + assert (i = length pre) as ->.
      { apply lookup_lt_Some in Hi. rewrite length_app in Hi. simpl in Hi. lia. }
      rewrite list_lookup_middle in Hi by done. simplify_eq.
      by destruct (Hno x Hx).
  - destruct IH as [Hjlt IH]. assert (Hlt : (i < length pre)%nat) by lia.
    rewrite lookup_app_l in Hi, Hj by done. split; [done|].
    by apply (dep_on_newer _ _ i j oi oj x).
Qed.

Lemma dependency_mask_snoc V M isdir pre o :
  dependency_mask V M isdir (pre ++ [o]) =
  dependency_mask (if mentions o V then V ++ mnums o else V) M isdir pre
    ++ [mentions o V].
Proof.
  unfold dependency_mask. rewrite reverse_snoc. cbn [LogicalLog.scan].
  rewrite is_dependent_mentions.
  destruct (sscan M isdir (reverse pre) _) as [marks vec2].
  cbn [fst snd]. by rewrite fmap_cons, reverse_cons.
Qed.

Lemma dependency_mask_length V M isdir ops :
  length (dependency_mask V M isdir ops) = length ops.
Proof.
  unfold dependency_mask.
  rewrite length_reverse, length_fmap.
  rewrite <- (length_fmap fst), scan_fst. apply length_reverse.
Qed.

(** The one backward pass selects exactly the operations that the needed
    mnums depend on. *)
Lemma dependency_mask_depends V M isdir ops i :
  dependency_mask V M isdir ops !! i = Some true <-> depends_on V ops i.
Proof.
  revert V i. induction ops as [|o pre IH] using rev_ind; intros V i.
  - split; [done|]. intros Hd. apply depends_on_lt in Hd. simpl in Hd. lia.
  - rewrite dependency_mask_snoc.
    pose proof (dependency_mask_length (if mentions o V then V ++ mnums o else V)
                  M isdir pre) as Hlen.
    destruct (mentions o V) eqn:Hm.
    + apply mentions_spec in Hm. split.
      * intros Hl. apply lookup_app_Some in Hl as [Hl|[Hge Hl]].
        -- apply IH in Hl. by apply depends_on_snoc_selected.
        -- apply list_lookup_singleton_Some in Hl as [Hi _].
           assert (i = length pre) as -> by lia.
           destruct Hm as (x & Hx & HV).
           apply (dep_on_needed _ _ (length pre) o x); [|done..].
           by apply list_lookup_middle.
      * intros Hd. destruct (decide (i < length pre)%nat) as [Hlt|Hge].
        -- apply lookup_app_l_Some, IH. by apply depends_on_snoc_inv.
        -- apply depends_on_lt in Hd. rewrite length_app in Hd. simpl in Hd.
           assert (i = length pre) as -> by lia.
           rewrite <- Hlen. by apply list_lookup_middle.
    + assert (Hno : forall x, x ∈ mnums o -> x ∉ V).
      { intros x Hx HV. assert (mentions o V = true); [|congruence].
        apply mentions_spec. eauto. }
      split.
      * intros Hl. apply lookup_app_Some in Hl as [Hl|[Hge Hl]].
        -- apply IH in Hl. by apply depends_on_snoc.
        -- by apply list_lookup_singleton_Some in Hl as [_ ?].
      * intros Hd. apply depends_on_snoc_skipped in Hd as [Hlt Hd]; [|done].
        apply lookup_app_l_Some. by apply IH.
Qed.

Lemma depends_target M ops i : depends M ops i <-> depends_on [M] ops i.
Proof.
  split.
  - induction 1 as [i o Hi HM|i j o o' x _ IH Hij Hi Hj Hx Hx'].
    + apply (dep_on_needed _ _ i o M); [done..|]. by apply list_elem_of_singleton.
    + by apply (dep_on_newer _ _ i j o o' x).
  - induction 1 as [i o x Hi Hx HV|i j o o' x _ IH Hij Hi Hj Hx Hx'].
    + apply list_elem_of_singleton in HV as ->. by apply (dep_target _ _ i o).
    + by apply (dep_newer _ _ i j o o' x).
Qed.

Lemma depends_closed M ops : dependency_closed M ops (depends M ops).
Proof. split; [by apply dep_target|]. intros. by eapply dep_newer. Qed.

Lemma depends_least M ops (S : nat -> Prop) :
  dependency_closed M ops S -> forall i, depends M ops i -> S i.
Proof. intros [Hb Hs]. induction 1; eauto. Qed.

(** Reading the marks of the scan back in the order of [operation_vec]. *)
Lemma select_by_marks b (marks : list (mfs_operation * bool)) :
  select_by (reverse (marks.*2)) b (reverse (marks.*1)) = reverse (marked b marks).
Proof.
  unfold select_by, marked.
  rewrite <- !fmap_reverse, zip_fst_snd, filter_reverse. by rewrite fmap_reverse.
Qed.

Lemma find_dependent_ops_mask M isdir ops :
  LogicalLog.find_dependent_ops check_parent_dependency check_dependency M isdir ops =
  (reverse (select_by (dependency_mask [M] M isdir ops) true ops),
   select_by (dependency_mask [M] M isdir ops) false ops).
Proof.
  rewrite find_dependent_ops_scan. unfold dependency_mask.
  pose proof (scan_fst check_parent_dependency check_dependency M isdir
                (reverse ops) [M]) as Hfst.
  destruct (sscan M isdir (reverse ops) [M]) as [marks vec2].
  cbn [fst snd] in *.
  assert (Hops : ops = reverse (marks.*1))
    by (by rewrite Hfst, reverse_involutive).
  clear Hfst. subst ops.
  by rewrite !select_by_marks, reverse_involutive.
Qed.
End DependencyFacts.

(** C5 (amended). With the dependency checks as the spec describes them, the
    operations that [fsync(M)] selects with [find_dependent_ops] and then
    applies are those at the positions of [operation_vec] that form the
    smallest set closed under the dependencies of [M] as the walk follows
    them, from an operation to the older operations on the same mnums: the
    set contains every operation that mentions [M] and, with an operation,
    every older operation that shares an mnum with it, and every set of
    positions with these two properties contains it. The other operations
    stay in [operation_vec]. This holds for either value of [isdir]. *)
Theorem fsync_backward_minimality (world : Type)
    (apply : LogicalLog.mfs_operation -> transaction -> world -> transaction * world)
    (M : Z) (isdir : bool) (st : LogicalLog.log_state world) :
  let ops := LogicalLog.log_operation_vec st in
  let st' := LogicalLog.process_metadata_log LogicalLog.check_parent_dependency
               LogicalLog.check_dependency world apply M isdir st in
  exists mask : list bool,
    length mask = length ops /\
    LogicalLog.applied st' =
      LogicalLog.applied st ++ LogicalLog.select_by mask true ops /\
    LogicalLog.log_operation_vec st' = LogicalLog.select_by mask false ops /\
    LogicalLog.dependency_closed M ops (fun i => mask !! i = Some true) /\
    (forall S : nat -> Prop, LogicalLog.dependency_closed M ops S ->
       forall i, mask !! i = Some true -> S i).
Proof.
  intros ops st'. exists (LogicalLog.dependency_mask [M] M isdir ops).
  split; [apply dependency_mask_length|].
  subst st'. rewrite process_metadata_log_foldl.
  rewrite find_dependent_ops_mask. fold ops. cbn [fst snd].
  rewrite reverse_involutive.
  match goal with |- context [foldl _ ?s0 _] => set (st1 := s0) end.
  pose proof (foldl_apply_op world apply st1
                (LogicalLog.select_by (LogicalLog.dependency_mask [M] M isdir ops)
                   true ops)) as (H1 & H2 & H3).
  cbv zeta in H1, H2, H3. rewrite H1, H2.
  split; [done|]. split; [done|]. split.
  - destruct (depends_closed M ops) as [Hb Hs]. split.
    + intros i o Hi HM. apply dependency_mask_depends, depends_target. eauto.
    + intros i j o o' x Hj Hij Hi Hj' Hx Hx'.
      apply dependency_mask_depends, depends_target.
      apply dependency_mask_depends, depends_target in Hj. eauto.
  - intros S HS i Hi. apply (depends_least M ops S HS).
    by apply dependency_mask_depends, depends_target in Hi.
Qed.

(** The spec's scenario 4: [/d1], [/d1/d2], [/d1/d2/f] and [/d1/d2/g] are
    created in this order (mnodes 2, 3, 4, 5 under the root 1) and [f] is
    fsynced: the creations of [d1], [d2] and [f] are selected, oldest first
    after the reversal, and the creation of [g] stays in the log. *)
Example fsync_leaf_file :
  let ops := [LogicalLog.mfs_operation_create 10 2 1 1 "d1";
              LogicalLog.mfs_operation_create 20 3 2 1 "d2";
              LogicalLog.mfs_operation_create 30 4 3 2 "f";
              LogicalLog.mfs_operation_create 40 5 3 2 "g"] in
  LogicalLog.find_dependent_ops LogicalLog.check_parent_dependency
    LogicalLog.check_dependency 4 false ops =
  ([LogicalLog.mfs_operation_create 30 4 3 2 "f";
    LogicalLog.mfs_operation_create 20 3 2 1 "d2";
    LogicalLog.mfs_operation_create 10 2 1 1 "d1"],
   [LogicalLog.mfs_operation_create 40 5 3 2 "g"]).
Proof. reflexivity. Qed.

(** C5, as stated, fails. Two files [f] (mnode 4) and [g] (mnode 5) are
    created in the directory with mnode 3, [f] first, and [f] is fsynced. The
    creation of [g] shares the mnum 3 with the creation of [f], which mentions
    the target, so its closure touches the target; yet the walk meets it
    first, when only the target is needed, and leaves it in the log: the
    applied set does not contain every operation whose closure touches the
    target. *)
Lemma fsync_minimality_counterexample :
  let ops := [LogicalLog.mfs_operation_create 30 4 3 2 "f";
              LogicalLog.mfs_operation_create 40 5 3 2 "g"] in
  let st := LogicalLog.mk_log_state ops [] tt [] in
  let st' := LogicalLog.process_metadata_log LogicalLog.check_parent_dependency
               LogicalLog.check_dependency unit
               (fun _ tr w => (tr, w)) 4 false st in
  ~ (forall i o, ops !! i = Some o -> LogicalLog.touches 4 ops i ->
       o ∈ LogicalLog.applied st').
Proof.
  intros ops st st' Hall.
  assert (Hg : LogicalLog.mfs_operation_create 40 5 3 2 "g" ∈ LogicalLog.applied st').
  { apply (Hall 1%nat); [reflexivity|].
    apply (LogicalLog.touches_shared 4 ops 1 0
             (LogicalLog.mfs_operation_create 40 5 3 2 "g")
             (LogicalLog.mfs_operation_create 30 4 3 2 "f") 3);
      [|reflexivity|reflexivity| |].
    - apply (LogicalLog.touches_target 4 ops 0
               (LogicalLog.mfs_operation_create 30 4 3 2 "f")); [reflexivity|].
      simpl. set_solver.
    - simpl. set_solver.
    - simpl. set_solver. }
  vm_compute in Hg. apply list_elem_of_singleton in Hg. discriminate.
Qed.

(** Witness for [fsync_applies_oldest_first]: the log of scenario 4, with an
    [apply] that notes in the transaction the number of the operations
    applied before it and keeps the timestamps of the operations applied. *)
Lemma fsync_applies_oldest_first_witness :
  let ops := [LogicalLog.mfs_operation_create 10 2 1 1 "d1";
              LogicalLog.mfs_operation_create 20 3 2 1 "d2";
              LogicalLog.mfs_operation_create 30 4 3 2 "f";
              LogicalLog.mfs_operation_create 40 5 3 2 "g"] in
  let apply := fun (op : LogicalLog.mfs_operation) (tr : transaction) (w : list Z) =>
                 (mk_transaction (timestamp_ tr) [] [Z.of_nat (length w)] [],
                  w ++ [LogicalLog.timestamp op]) in
  let st := LogicalLog.mk_log_state ops [] [] [] in
  let found := LogicalLog.find_dependent_ops LogicalLog.check_parent_dependency
                 LogicalLog.check_dependency 4 false ops in
  let deps := found.1 in
  let st' := LogicalLog.process_metadata_log LogicalLog.check_parent_dependency
               LogicalLog.check_dependency (list Z) apply 4 false st in
  let run := Sync.apply_in_order (list Z) apply (reverse deps) [] in
  LogicalLog.oldest_first ops /\
  LogicalLog.newest_first deps /\
  LogicalLog.applied st' = [] ++ reverse deps /\
  LogicalLog.oldest_first (reverse deps) /\
  reverse deps `sublist_of` ops /\
  length (LogicalLog.transaction_log st') = (0 + length deps)%nat /\
  LogicalLog.transaction_log st' = [] ++ run.1 /\
  LogicalLog.the_world st' = run.2 /\
  LogicalLog.log_operation_vec st' = found.2.
Proof.
  intros ops apply st found deps st' run.
  assert (Hs : LogicalLog.oldest_first ops).
  { unfold LogicalLog.oldest_first, ops.
    repeat (constructor; [|repeat (constructor; [simpl; lia|]); constructor]).
    constructor. }
  split; [exact Hs|].
  exact (fsync_applies_oldest_first LogicalLog.check_parent_dependency
           LogicalLog.check_dependency (list Z) apply 4 false st Hs).
Defined.

(** In that run the journal receives the transactions of [d1], [d2] and [f]
    in this order, each filled in the state its predecessors left, and the
    creation of [g] stays in the logical log. *)
Example fsync_leaf_file_transactions :
  let apply := fun (op : LogicalLog.mfs_operation) (tr : transaction) (w : list Z) =>
                 (mk_transaction (timestamp_ tr) [] [Z.of_nat (length w)] [],
                  w ++ [LogicalLog.timestamp op]) in
  let st' := LogicalLog.process_metadata_log LogicalLog.check_parent_dependency
               LogicalLog.check_dependency (list Z) apply 4 false
               (LogicalLog.mk_log_state
                  [LogicalLog.mfs_operation_create 10 2 1 1 "d1";
                   LogicalLog.mfs_operation_create 20 3 2 1 "d2";
                   LogicalLog.mfs_operation_create 30 4 3 2 "f";
                   LogicalLog.mfs_operation_create 40 5 3 2 "g"] [] [] []) in
  LogicalLog.transaction_log st' =
    [mk_transaction 10 [] [0] []; mk_transaction 20 [] [1] [];
     mk_transaction 30 [] [2] []] /\
  LogicalLog.the_world st' = [10; 20; 30] /\
  LogicalLog.log_operation_vec st' = [LogicalLog.mfs_operation_create 40 5 3 2 "g"].
Proof. by vm_compute. Qed.

(** ** The commit path *)

Section TraceOrder.
Import Journal.

Lemma all_before_split P Q (l1 l2 : list event) :
  Forall (fun e => ~ Q e) l1 -> Forall (fun e => ~ P e) l2 ->
  all_before P Q (l1 ++ l2).
Proof.
  intros H1 H2 i j x y Hi Hj HP HQ.
  rewrite Forall_lookup in H1. rewrite Forall_lookup in H2.
  destruct (decide (i < length l1)%nat) as [Hil|Hil].
  - destruct (decide (j < length l1)%nat) as [Hjl|Hjl]; [|lia].
    rewrite lookup_app_l in Hj by done. by destruct (H1 _ _ Hj).
  - rewrite lookup_app_r in Hi by lia. by destruct (H2 _ _ Hi).
Qed.

Lemma all_before_prefix P Q (evs l : list event) :
  evs `prefix_of` l -> all_before P Q l -> all_before P Q evs.
Proof.
  intros Hp Hl i j x y Hi Hj. apply Hl; by eapply prefix_lookup_Some.
Qed.

Lemma separated_by_split W P Q (l1 l2 : list event) w :
  W w -> Forall (fun e => ~ Q e) l1 -> ~ Q w -> ~ P w ->
  Forall (fun e => ~ P e) l2 ->
  separated_by W P Q (l1 ++ w :: l2).
Proof.
  intros HW H1 HQw HPw H2 i j x y Hi Hj HP HQ Hij.
  rewrite Forall_lookup in H1. rewrite Forall_lookup in H2.
  exists (length l1), w. split; [|split; [by apply list_lookup_middle|done]].
  assert (Hi' : (i < length l1)%nat).
  { destruct (decide (i < length l1)%nat) as [|Hn]; [done|].
    destruct (decide (i = length l1)) as [->|Hne].
    - rewrite list_lookup_middle in Hi by done. by simplify_eq.
    - rewrite lookup_app_r in Hi by lia.
      destruct (i - length l1)%nat as [|n] eqn:E; [lia|]. simpl in Hi.
      by destruct (H2 _ _ Hi). }
  assert (Hj' : (length l1 < j)%nat).
  { destruct (decide (length l1 < j)%nat) as [|Hn]; [done|].
    destruct (decide (j = length l1)) as [->|Hne].
    - rewrite list_lookup_middle in Hj by done. by simplify_eq.
    - rewrite lookup_app_l in Hj by lia. by destruct (H1 _ _ Hj). }
  lia.
Qed.

Lemma separated_by_prefix W P Q (evs l : list event) :
  evs `prefix_of` l -> separated_by W P Q l -> separated_by W P Q evs.
Proof.
  intros Hp Hl i j x y Hi Hj HP HQ Hij.
  destruct (Hl i j x y) as (k & w & Hk & Hw & HW);
    [by eapply prefix_lookup_Some|by eapply prefix_lookup_Some|done..|].
  exists k, w. split; [done|]. split; [|done].
  destruct Hp as [l' ->]. rewrite lookup_app_l in Hw; [done|].
  apply lookup_lt_Some in Hj. lia.
Qed.

(** *** The calls of the monadic code *)

Lemma follows_ret {A} (a : A) st (Q : A -> kstate -> Prop) :
  Q a st -> follows (ret a) st [] Q.
Proof. intros HQ. exists []. simpl. by rewrite app_nil_r. Qed.

Lemma follows_emit e st (Q : unit -> kstate -> Prop) :
  Q tt (emit e st).2 -> follows (emit e) st [e] Q.
Proof. intros HQ. by exists [e]. Qed.

Lemma follows_bind {A B} (m : M A) (k : A -> M B) st E1 E2
    (Q1 : A -> kstate -> Prop) (Q2 : B -> kstate -> Prop) :
  follows m st E1 Q1 ->
  (forall a st1, Q1 a st1 -> follows (k a) st1 E2 Q2) ->
  follows (bind m k) st (E1 ++ E2) Q2.
Proof.
  intros (evs1 & Ht1 & Hp1 & Hr1) Hk. unfold follows, bind.
  destruct (m st) as [[a|] st1]; simpl in *.
  - destruct Hr1 as [-> HQ1].
    destruct (Hk a st1 HQ1) as (evs2 & Ht2 & Hp2 & Hr2).
    exists (E1 ++ evs2). rewrite Ht2, Ht1, <- app_assoc. split; [done|].
    split; [by apply prefix_app|].
    destruct ((k a st1).1); [|done]. destruct Hr2 as [-> ?]. done.
  - exists evs1. split; [done|]. split; [|done]. by apply prefix_app_r.
Qed.

Lemma follows_weaken {A} (m : M A) st E (Q Q' : A -> kstate -> Prop) :
  follows m st E Q -> (forall a s, Q a s -> Q' a s) -> follows m st E Q'.
Proof.
  intros (evs & Ht & Hp & Hr) HQ. exists evs. split; [done|]. split; [done|].
  destruct ((m st).1); [|done]. destruct Hr. eauto.
Qed.

Lemma follows_events {A} (m : M A) st E (Q : A -> kstate -> Prop) :
  follows m st E Q ->
  events_of m st `prefix_of` E /\
  (forall a, (m st).1 = Ok a -> events_of m st = E /\ Q a (m st).2).
Proof.
  intros (evs & Ht & Hp & Hr). unfold events_of. rewrite Ht, drop_app_length.
  split; [done|]. intros a Ha. by rewrite Ha in Hr.
Qed.
End TraceOrder.

Section CommitFacts.
Import Journal.
Context `{JournalBlockTypes}.
Variable writei : kstate -> Z -> Z -> Z.
Variable balloc_on_disk : list Z -> transaction -> transaction.
Variable bfree_on_disk : list Z -> transaction -> transaction.
Variable prepare_for_commit : transaction -> transaction.

Local Abbreviation commit_transaction :=
  (commit_transaction writei balloc_on_disk bfree_on_disk prepare_for_commit).
Local Abbreviation add_fsync_to_journal :=
  (add_fsync_to_journal writei balloc_on_disk bfree_on_disk prepare_for_commit).
Local Abbreviation commit_events :=
  (commit_events balloc_on_disk bfree_on_disk prepare_for_commit).
Local Abbreviation prepared :=
  (prepared balloc_on_disk bfree_on_disk prepare_for_commit).
Local Abbreviation start_and_data :=
  (start_and_data balloc_on_disk bfree_on_disk prepare_for_commit).

Lemma follows_journal_writei offset n st (Q : unit -> kstate -> Prop) :
  Q tt st -> follows (journal_writei writei offset n) st [] Q.
Proof.
  intros HQ. exists []. unfold journal_writei.
  destruct (writei st offset n =? n); simpl; by rewrite app_nil_r.
Qed.

Lemma follows_write_journal_hdrblock hd d trans st :
  follows (write_journal_hdrblock writei hd d trans) st
    [Ev_journal_record (journal_offset st) hd d]
    (fun r st' => r = trans ++ [(hd, d)] /\
                  journal_offset st' =
                    u32 (u32 (journal_offset st + hdr_size) + BSIZE)).
Proof.
  unfold write_journal_hdrblock.
  apply (follows_bind _ _ _ [] _ (fun o s => o = journal_offset st /\ s = st)).
  { exists []. simpl. by rewrite app_nil_r. }
  intros o st1 [-> ->].
  apply (follows_bind _ _ _ [_] [] (fun _ s => journal_offset s = journal_offset st)).
  { by apply follows_emit. }
  intros [] st1 Ho.
  apply (follows_bind _ _ _ [] [] (fun _ s => journal_offset s = journal_offset st)).
  { by apply follows_journal_writei. }
  intros [] st2 Ho2.
  apply (follows_bind _ _ _ [] [] (fun _ s => journal_offset s = journal_offset st)).
  { by apply follows_journal_writei. }
  intros [] st3 Ho3.
  apply (follows_bind _ _ _ [] []
           (fun _ s => journal_offset s =
                       u32 (u32 (journal_offset st + hdr_size) + BSIZE))).
  { exists []. simpl. by rewrite app_nil_r. }
  intros [] st4 Ho4. by apply follows_ret.
Qed.

Lemma follows_write_journal_transaction_blocks vec ts trans st :
  follows (write_journal_transaction_blocks writei vec ts trans) st
    (record_events (journal_offset st)
       (map (fun b => (Hdr.mk_header ts (blocknum b) jrnl_data, blockdata b)) vec))
    (fun r st' =>
       r = trans ++
           map (fun b => (Hdr.mk_header ts (blocknum b) jrnl_data, blockdata b)) vec /\
       journal_offset st' = record_offset (journal_offset st) (length vec)).
Proof.
  revert trans st. induction vec as [|b vec IH]; intros trans st; simpl.
  - apply follows_ret. by rewrite app_nil_r.
  - apply (follows_bind _ _ _ [_] _ _ _ (follows_write_journal_hdrblock _ _ _ _)).
    intros r st1 [-> Ho]. rewrite <- Ho.
    eapply follows_weaken; [apply IH|].
    intros r s [-> Hs]. split; [by rewrite <- app_assoc|done].
Qed.

Lemma follows_for_each_emit {A} (f : A -> event) l st :
  follows (for_each (fun x => emit (f x)) l) st (map f l)
    (fun _ st' => journal_offset st' = journal_offset st).
Proof.
  revert st. induction l as [|x l IH]; intros st; simpl.
  - by apply follows_ret.
  - apply (follows_bind _ _ _ [_] _
             (fun _ s => journal_offset s = journal_offset st)).
    { by apply follows_emit. }
    intros [] st1 Ho. eapply follows_weaken; [apply IH|].
    intros [] s Hs. simpl in Hs. congruence.
Qed.

Lemma follows_free_block bno st :
  follows (free_block bno) st [Ev_free_block bno]
    (fun _ st' => journal_offset st' = journal_offset st).
Proof.
  unfold free_block.
  apply (follows_bind _ _ _ [_] []
           (fun _ s => journal_offset s = journal_offset st)).
  { by apply follows_emit. }
  intros [] st1 Ho. exists []. rewrite app_nil_r.
  destruct (Allocator.free_block bno (alloc st1)); simpl; done.
Qed.

Lemma follows_for_each_free_block l st :
  follows (for_each free_block l) st (map Ev_free_block l)
    (fun _ st' => journal_offset st' = journal_offset st).
Proof.
  revert st. induction l as [|x l IH]; intros st; simpl.
  - by apply follows_ret.
  - apply (follows_bind _ _ _ [_] _ _ _ (follows_free_block _ _)).
    intros [] st1 Ho. eapply follows_weaken; [apply IH|].
    intros [] s Hs. simpl in Hs. congruence.
Qed.

Lemma follows_post_process_transaction tr st :
  follows (post_process_transaction tr) st
    (map Ev_free_block (free_block_list tr) ++
     map (fun b => Ev_writeback_async (blocknum b)) (blocks tr) ++
     map (fun b => Ev_async_iowait (blocknum b)) (blocks tr) ++ [Ev_ideflush])
    (fun _ st' => journal_offset st' = journal_offset st).
Proof.
  unfold post_process_transaction.
  apply (follows_bind _ _ _ _ _ _ _ (follows_for_each_free_block _ _)).
  intros [] st1 Ho1.
  apply (follows_bind _ _ _ _ _
           (fun _ s => journal_offset s = journal_offset st)).
  { eapply follows_weaken; [apply follows_for_each_emit|].
    intros [] s Hs. simpl in Hs. congruence. }
  intros [] st2 Ho2.
  apply (follows_bind _ _ _ _ _
           (fun _ s => journal_offset s = journal_offset st)).
  { eapply follows_weaken;
      [apply (follows_for_each_emit (fun b => Ev_async_iowait (blocknum b)))|].
    intros [] s Hs. simpl in Hs. congruence. }
  intros [] st3 Ho3. by apply follows_emit.
Qed.

Lemma follows_clear_journal st :
  follows clear_journal st [Ev_zero_fill (journal_offset st)]
    (fun _ st' => journal_offset st' = 0).
Proof.
  unfold clear_journal.
  apply (follows_bind _ _ _ [] _ (fun o s => o = journal_offset st /\ s = st)).
  { exists []. simpl. by rewrite app_nil_r. }
  intros o st1 [-> ->].
  apply (follows_bind _ _ _ [_] [] (fun _ _ => True)).
  { by apply follows_emit. }
  intros [] st1 _. exists []. simpl. by rewrite app_nil_r.
Qed.

Lemma follows_write_journal_header_start ts trans st :
  follows (write_journal_header writei jrnl_start ts trans) st
    [Ev_journal_record (journal_offset st) (Hdr.mk_header ts 0 jrnl_start) zero_block]
    (fun r st' => r = trans ++ [(Hdr.mk_header ts 0 jrnl_start, zero_block)] /\
                  journal_offset st' =
                    u32 (u32 (journal_offset st + hdr_size) + BSIZE)).
Proof.
  unfold write_journal_header. rewrite Z.eqb_refl.
  apply follows_write_journal_hdrblock.
Qed.

Lemma follows_write_journal_header_commit ts trans st :
  follows (write_journal_header writei jrnl_commit ts trans) st
    [Ev_journal_record (journal_offset st) (Hdr.mk_header ts 0 jrnl_commit) zero_block]
    (fun r st' => r = trans ++ [(Hdr.mk_header ts 0 jrnl_commit, zero_block)] /\
                  journal_offset st' =
                    u32 (u32 (journal_offset st + hdr_size) + BSIZE)).
Proof.
  unfold write_journal_header. rewrite eqb_commit_start, Z.eqb_refl.
  apply follows_write_journal_hdrblock.
Qed.

Lemma record_offset_S offset n :
  record_offset offset (S n) =
  u32 (u32 (record_offset offset n + hdr_size) + BSIZE).
Proof.
  revert offset. induction n as [|n IH]; intros offset; [done|].
  change (record_offset offset (S (S n)))
    with (record_offset (u32 (u32 (offset + hdr_size) + BSIZE)) (S n)).
  by rewrite IH.
Qed.
Lemma follows_pre_process_transaction tr st :
  follows (pre_process_transaction balloc_on_disk bfree_on_disk tr) st
    [Ev_balloc_on_disk (allocated_block_list tr);
     Ev_bfree_on_disk
       (free_block_list (balloc_on_disk (allocated_block_list tr) tr))]
    (fun r st' =>
       r = bfree_on_disk
             (free_block_list (balloc_on_disk (allocated_block_list tr) tr))
             (balloc_on_disk (allocated_block_list tr) tr) /\
       journal_offset st' = journal_offset st).
Proof.
  unfold pre_process_transaction.
  apply (follows_bind _ _ _ [_] [_]
           (fun _ s => journal_offset s = journal_offset st)).
  { by apply follows_emit. }
  intros [] st1 Ho1.
  apply (follows_bind _ _ _ [_] []
           (fun _ s => journal_offset s = journal_offset st)).
  { by apply follows_emit. }
  intros [] st2 Ho2. by apply follows_ret.
Qed.

(** The commit makes the calls of [commit_events], in this order; a panic
    cuts the sequence short. *)
Lemma follows_commit_transaction_steps tr st :
  let off := journal_offset st in
  let tr1 := balloc_on_disk (allocated_block_list tr) tr in
  let ts := timestamp_ tr in
  let data := map (fun b => (Hdr.mk_header ts (blocknum b) jrnl_data, blockdata b))
                  (blocks (prepared tr)) in
  let off1 := u32 (u32 (off + hdr_size) + BSIZE) in
  let offn := record_offset off1 (length (blocks (prepared tr))) in
  let offe := u32 (u32 (offn + hdr_size) + BSIZE) in
  follows (commit_transaction tr) st
    ([Ev_balloc_on_disk (allocated_block_list tr);
      Ev_bfree_on_disk (free_block_list tr1)] ++
     [Ev_prepare_for_commit ts] ++
     [Ev_journal_record off (Hdr.mk_header ts 0 jrnl_start) zero_block] ++
     record_events off1 data ++
     [Ev_write_to_disk ([(Hdr.mk_header ts 0 jrnl_start, zero_block)] ++ data)] ++
     [Ev_journal_record offn (Hdr.mk_header ts 0 jrnl_commit) zero_block] ++
     [Ev_write_to_disk ([] ++ [(Hdr.mk_header ts 0 jrnl_commit, zero_block)])] ++
     (map Ev_free_block (free_block_list (prepared tr)) ++
      map (fun b => Ev_writeback_async (blocknum b)) (blocks (prepared tr)) ++
      map (fun b => Ev_async_iowait (blocknum b)) (blocks (prepared tr)) ++
      [Ev_ideflush]) ++
     [Ev_zero_fill offe])
    (fun _ st' => journal_offset st' = 0).
Proof.
  intros off tr1 ts data off1 offn offe.
  unfold Journal.commit_transaction.
  apply (follows_bind _ _ _ _ _ _ _ (follows_pre_process_transaction tr st)).
  intros tr2 st1 [-> Ho1]. fold tr1.
  apply (follows_bind _ _ _ [_] _ (fun _ s => journal_offset s = off)).
  { by apply follows_emit. }
  intros [] st2 Ho2.
  change (prepare_for_commit (bfree_on_disk (free_block_list tr1) tr1))
    with (prepared tr).
  pose proof (follows_write_journal_header_start ts [] st2) as Hs.
  rewrite Ho2 in Hs. fold off1 in Hs.
  apply (follows_bind _ _ _ _ _ _ _ Hs). clear Hs.
  intros trans st3 [-> Ho3].
  pose proof (follows_write_journal_transaction_blocks
                (blocks (prepared tr)) ts
                ([] ++ [(Hdr.mk_header ts 0 jrnl_start, zero_block)]) st3) as Hd.
  rewrite Ho3 in Hd. fold data offn in Hd.
  apply (follows_bind _ _ _ _ _ _ _ Hd). clear Hd.
  intros trans st4 [-> Ho4].
  apply (follows_bind _ _ _ [_] _ (fun _ s => journal_offset s = offn)).
  { by apply follows_emit. }
  intros [] st5 Ho5.
  pose proof (follows_write_journal_header_commit ts [] st5) as Hc.
  rewrite Ho5 in Hc. fold offe in Hc.
  apply (follows_bind _ _ _ _ _ _ _ Hc). clear Hc.
  intros trans st6 [-> Ho6].
  apply (follows_bind _ _ _ [_] _ (fun _ s => journal_offset s = offe)).
  { by apply follows_emit. }
  intros [] st7 Ho7.
  apply (follows_bind _ _ _ _ _ (fun _ s => journal_offset s = offe)).
  { eapply follows_weaken; [apply follows_post_process_transaction|].
    intros [] s Hs. simpl in Hs. congruence. }
  intros [] st8 Ho8. rewrite <- Ho8. apply follows_clear_journal.
Qed.

Lemma follows_commit_transaction tr st :
  follows (commit_transaction tr) st (commit_events (journal_offset st) tr)
    (fun _ st' => journal_offset st' = 0).
Proof.
  pose proof (follows_commit_transaction_steps tr st) as Hf. cbv zeta in Hf.
  match type of Hf with follows _ _ ?E _ =>
    replace E with (commit_events (journal_offset st) tr) in Hf; [exact Hf|] end.
  unfold Journal.commit_events, Journal.commit_only, Journal.start_and_data.
  fold (prepared tr). cbn [record_events length app].
  rewrite length_map, <- !app_assoc. cbn [app].
  rewrite (record_offset_S _ (S _)). reflexivity.
Qed.
(** *** The order of the calls of a commit *)

Lemma Forall_record_events (P : event -> Prop) offset recs :
  Forall (fun r : journal_record => forall o, P (Ev_journal_record o r.1 r.2)) recs ->
  Forall P (record_events offset recs).
Proof.
  revert offset. induction recs as [|[hd d] recs IH]; intros offset Hr; simpl.
  - constructor.
  - apply Forall_cons in Hr as [Hh Hr]. constructor; [apply Hh|by apply IH].
Qed.

Lemma Forall_map_event {A} (P : event -> Prop) (f : A -> event) l :
  (forall x, P (f x)) -> Forall P (map f l).
Proof. intros Hf. apply Forall_fmap, Forall_forall. intros x _. apply Hf. Qed.

Lemma start_and_data_types tr :
  Forall (fun r : journal_record =>
            Hdr.block_type r.1 = jrnl_start \/ Hdr.block_type r.1 = jrnl_data)
         (start_and_data tr).
Proof.
  unfold Journal.start_and_data. constructor; [by left|].
  apply Forall_fmap, Forall_forall. intros b _. by right.
Qed.

Lemma preceded_by_split W Q (l1 l2 : list event) w :
  W w -> ~ Q w -> Forall (fun e => ~ Q e) l1 ->
  preceded_by W Q (l1 ++ w :: l2).
Proof.
  intros HW HQw H1 j y Hj HQ. rewrite Forall_lookup in H1.
  exists (length l1), w. split; [|split; [by apply list_lookup_middle|done]].
  destruct (decide (length l1 < j)%nat) as [|Hn]; [done|].
  destruct (decide (j = length l1)) as [->|Hne].
  - rewrite list_lookup_middle in Hj by done. by simplify_eq.
  - rewrite lookup_app_l in Hj by lia. by destruct (H1 _ _ Hj).
Qed.

Lemma preceded_by_prefix W Q (evs l : list event) :
  evs `prefix_of` l -> preceded_by W Q l -> preceded_by W Q evs.
Proof.
  intros Hp Hl j y Hj HQ.
  destruct (Hl j y) as (i & w & Hi & Hw & HW); [by eapply prefix_lookup_Some|done|].
  exists i, w. split; [done|]. split; [|done].
  destruct Hp as [l' ->]. rewrite lookup_app_l in Hw; [done|].
  apply lookup_lt_Some in Hj. lia.
Qed.

Lemma start_and_data_not_commit tr :
  Forall (fun r : journal_record => Hdr.block_type r.1 <> jrnl_commit)
         (start_and_data tr).
Proof.
  eapply Forall_impl; [apply start_and_data_types|].
  pose proof jrnl_start_commit. pose proof jrnl_data_commit.
  intros r [Hr|Hr]; congruence.
Qed.

Lemma write_to_disk_start_and_data_not_commit tr :
  ~ is_write_to_disk_of jrnl_commit (Ev_write_to_disk (start_and_data tr)).
Proof.
  simpl. rewrite <- Forall_Exists_neg. apply start_and_data_not_commit.
Qed.

Lemma write_to_disk_commit_only_not_start tr :
  ~ is_write_to_disk_of jrnl_start (Ev_write_to_disk (commit_only tr)).
Proof.
  simpl. rewrite <- Forall_Exists_neg. unfold commit_only.
  constructor; [|constructor]. simpl. pose proof jrnl_start_commit. congruence.
Qed.

(** The events of the Start and Data records are record events of one of
    these two types; the first is the Start record, Data records follow. *)
Lemma record_events_start_and_data (P : event -> Prop) offset tr :
  (forall o hd d, Hdr.block_type hd = jrnl_start \/ Hdr.block_type hd = jrnl_data ->
                  P (Ev_journal_record o hd d)) ->
  Forall P (record_events offset (start_and_data tr)).
Proof.
  intros HP. apply Forall_record_events.
  eapply Forall_impl; [apply start_and_data_types|].
  intros [hd d] Hr o. by apply HP.
Qed.

Lemma record_events_commit_only (P : event -> Prop) offset tr :
  (forall o hd d, Hdr.block_type hd = jrnl_commit -> P (Ev_journal_record o hd d)) ->
  Forall P (record_events offset (commit_only tr)).
Proof.
  intros HP. apply Forall_record_events. unfold commit_only.
  constructor; [|constructor]. intros o. by apply HP.
Qed.

Ltac kinds :=
  repeat first
    [ apply record_events_start_and_data; intros ? ? ? [?|?]
    | apply record_events_commit_only; intros ? ? ? ?
    | apply Forall_map_event; intros ?
    | simple apply Forall_app_2 | simple apply Forall_cons_2
    | simple apply Forall_nil_2
    | apply write_to_disk_start_and_data_not_commit
    | apply write_to_disk_commit_only_not_start
    | match goal with Hp : Forall _ ?p |- Forall _ ?p =>
        apply (Forall_impl _ _ _ Hp); intros ? -> end ];
  simpl;
  try (pose proof jrnl_start_data; pose proof jrnl_start_commit;
       pose proof jrnl_data_commit; intuition congruence).

(** The order of the calls in the full sequence of a commit. [pre] stands
    for the lock that [add_fsync_to_journal] takes first. *)
Lemma commit_events_order pre offset tr :
  Forall (fun e => e = Ev_journal_lock) pre ->
  let L := pre ++ commit_events offset tr in
  let start_or_data e := is_record_of jrnl_start e \/ is_record_of jrnl_data e in
  let after_commit e := is_free_block e \/ is_home_writeback e in
  preceded_by (is_write_to_disk_of jrnl_commit) is_free_block L /\
  all_before is_free_block is_home_writeback L /\
  all_before (is_record_of jrnl_start) (is_record_of jrnl_data) L /\
  all_before start_or_data is_write_to_disk L /\
  all_before start_or_data (is_record_of jrnl_commit) L /\
  separated_by (is_write_to_disk_of jrnl_start) start_or_data
    (is_record_of jrnl_commit) L /\
  all_before (is_record_of jrnl_commit) after_commit L /\
  separated_by (is_write_to_disk_of jrnl_commit) (is_record_of jrnl_commit)
    after_commit L.
Proof.
  intros Hpre L start_or_data after_commit. subst L start_or_data after_commit.
  unfold Journal.commit_events.
  set (s0 := [Ev_balloc_on_disk _; Ev_bfree_on_disk _; Ev_prepare_for_commit _]).
  set (r1 := record_events offset _).
  set (w1 := Ev_write_to_disk (start_and_data tr)).
  set (r2 := record_events _ (commit_only tr)).
  set (w2 := Ev_write_to_disk (commit_only tr)).
  set (f := map Ev_free_block _).
  set (wb := map (fun b => Ev_writeback_async _) _).
  set (io := map (fun b => Ev_async_iowait _) _).
  set (z := [Ev_ideflush; Ev_zero_fill _]).
  assert (Hw2 : is_write_to_disk_of jrnl_commit w2).
  { simpl. by apply Exists_cons_hd. }
  assert (Hw1 : is_write_to_disk_of jrnl_start w1).
  { simpl. by apply Exists_cons_hd. }
  split; [|split; [|split; [|split; [|split; [|split; [|split]]]]]].
  - replace (pre ++ s0 ++ r1 ++ [w1] ++ r2 ++ [w2] ++ f ++ wb ++ io ++ z)
      with ((pre ++ s0 ++ r1 ++ [w1] ++ r2) ++ w2 :: (f ++ wb ++ io ++ z))
      by (by rewrite <- !app_assoc).
    apply preceded_by_split; [exact Hw2| |];
      clear Hw1 Hw2; subst s0 r1 w1 r2 w2 f wb io z; kinds.
  - replace (pre ++ s0 ++ r1 ++ [w1] ++ r2 ++ [w2] ++ f ++ wb ++ io ++ z)
      with ((pre ++ s0 ++ r1 ++ [w1] ++ r2 ++ [w2] ++ f) ++ (wb ++ io ++ z))
      by (by rewrite <- !app_assoc).
    apply all_before_split; clear Hw1 Hw2; subst s0 r1 w1 r2 w2 f wb io z; kinds.
  - subst r1. unfold Journal.start_and_data at 1. cbn [record_events].
    set (d := record_events _ (map _ _)).
    replace (pre ++ s0 ++ (Ev_journal_record offset
               (Hdr.mk_header (timestamp_ tr) 0 jrnl_start) zero_block :: d) ++
             [w1] ++ r2 ++ [w2] ++ f ++ wb ++ io ++ z)
      with ((pre ++ s0 ++ [Ev_journal_record offset
               (Hdr.mk_header (timestamp_ tr) 0 jrnl_start) zero_block]) ++
            (d ++ [w1] ++ r2 ++ [w2] ++ f ++ wb ++ io ++ z))
      by (by rewrite <- !app_assoc).
    apply all_before_split; clear Hw1 Hw2; subst s0 d w1 r2 w2 f wb io z; kinds.
    apply Forall_record_events, Forall_fmap, Forall_forall.
    intros b _ o. simpl. pose proof jrnl_start_data. congruence.
  - replace (pre ++ s0 ++ r1 ++ [w1] ++ r2 ++ [w2] ++ f ++ wb ++ io ++ z)
      with ((pre ++ s0 ++ r1) ++ ([w1] ++ r2 ++ [w2] ++ f ++ wb ++ io ++ z))
      by (by rewrite <- !app_assoc).
    apply all_before_split; clear Hw1 Hw2; subst s0 r1 w1 r2 w2 f wb io z; kinds.
  - replace (pre ++ s0 ++ r1 ++ [w1] ++ r2 ++ [w2] ++ f ++ wb ++ io ++ z)
      with ((pre ++ s0 ++ r1) ++ ([w1] ++ r2 ++ [w2] ++ f ++ wb ++ io ++ z))
      by (by rewrite <- !app_assoc).
    apply all_before_split; clear Hw1 Hw2; subst s0 r1 w1 r2 w2 f wb io z; kinds.
  - replace (pre ++ s0 ++ r1 ++ [w1] ++ r2 ++ [w2] ++ f ++ wb ++ io ++ z)
      with ((pre ++ s0 ++ r1) ++ w1 :: (r2 ++ [w2] ++ f ++ wb ++ io ++ z))
      by (by rewrite <- !app_assoc).
    apply separated_by_split; [exact Hw1| | | |];
      clear Hw1 Hw2; subst s0 r1 w1 r2 w2 f wb io z; kinds.
  - replace (pre ++ s0 ++ r1 ++ [w1] ++ r2 ++ [w2] ++ f ++ wb ++ io ++ z)
      with ((pre ++ s0 ++ r1 ++ [w1] ++ r2 ++ [w2]) ++ (f ++ wb ++ io ++ z))
      by (by rewrite <- !app_assoc).
    apply all_before_split; clear Hw1 Hw2; subst s0 r1 w1 r2 w2 f wb io z; kinds.
  - replace (pre ++ s0 ++ r1 ++ [w1] ++ r2 ++ [w2] ++ f ++ wb ++ io ++ z)
      with ((pre ++ s0 ++ r1 ++ [w1] ++ r2) ++ w2 :: (f ++ wb ++ io ++ z))
      by (by rewrite <- !app_assoc).
    apply separated_by_split; [exact Hw2| | | |];
      clear Hw1 Hw2; subst s0 r1 w1 r2 w2 f wb io z; kinds.
Qed.

Lemma order_of_prefix pre offset tr evs :
  Forall (fun e => e = Ev_journal_lock) pre ->
  evs `prefix_of` pre ++ commit_events offset tr ->
  let start_or_data e := is_record_of jrnl_start e \/ is_record_of jrnl_data e in
  let after_commit e := is_free_block e \/ is_home_writeback e in
  preceded_by (is_write_to_disk_of jrnl_commit) is_free_block evs /\
  all_before is_free_block is_home_writeback evs /\
  all_before (is_record_of jrnl_start) (is_record_of jrnl_data) evs /\
  all_before start_or_data is_write_to_disk evs /\
  all_before start_or_data (is_record_of jrnl_commit) evs /\
  separated_by (is_write_to_disk_of jrnl_start) start_or_data
    (is_record_of jrnl_commit) evs /\
  all_before (is_record_of jrnl_commit) after_commit evs /\
  separated_by (is_write_to_disk_of jrnl_commit) (is_record_of jrnl_commit)
    after_commit evs.
Proof.
  intros Hpre Hp.
  destruct (commit_events_order pre offset tr Hpre)
    as (O1 & O2 & O3 & O4 & O5 & O6 & O7 & O8).
  cbv zeta.
  split; [by eapply preceded_by_prefix|].
  split; [by eapply all_before_prefix|].
  split; [by eapply all_before_prefix|].
  split; [by eapply all_before_prefix|].
  split; [by eapply all_before_prefix|].
  split; [by eapply separated_by_prefix|].
  split; [by eapply all_before_prefix|by eapply separated_by_prefix].
Qed.

Lemma follows_for_each_commit_transaction log st :
  follows (for_each commit_transaction log) st
    (flush_events balloc_on_disk bfree_on_disk prepare_for_commit
       (journal_offset st) log)
    (fun _ _ => True).
Proof.
  revert st. induction log as [|tr log IH]; intros st; simpl.
  - by apply follows_ret.
  - apply (follows_bind _ _ _ _ _ _ _ (follows_commit_transaction tr st)).
    intros [] st1 Ho. rewrite <- Ho. apply IH.
Qed.

(** [flush_journal_locked] commits the transactions of the log in the order
    of the log, each with the calls of [commit_events], and leaves the log
    empty. *)
Lemma follows_flush_journal_locked st :
  follows
    (flush_journal_locked writei balloc_on_disk bfree_on_disk prepare_for_commit) st
    (flush_events balloc_on_disk bfree_on_disk prepare_for_commit
       (journal_offset st) (Journal.transaction_log st))
    (fun _ st' => Journal.transaction_log st' = []).
Proof.
  unfold flush_journal_locked.
  apply (follows_bind _ _ _ [] _
           (fun log s => log = Journal.transaction_log st /\ s = st)).
  { exists []. simpl. by rewrite app_nil_r. }
  intros log st1 [-> ->].
  match goal with |- follows _ _ ?E _ => rewrite <- (app_nil_r E) end.
  apply (follows_bind _ _ _ _ [] _ _ (follows_for_each_commit_transaction _ st)).
  intros [] st2 _. exists []. simpl. by rewrite app_nil_r.
Qed.

Lemma follows_add_fsync_to_journal tr st :
  follows (add_fsync_to_journal tr) st
    ([Ev_journal_lock] ++ commit_events (journal_offset st) tr)
    (fun _ st' => journal_offset st' = 0).
Proof.
  unfold Journal.add_fsync_to_journal.
  apply (follows_bind _ _ _ [_] _
           (fun _ s => journal_offset s = journal_offset st)).
  { by apply follows_emit. }
  intros [] st1 Ho. rewrite <- Ho. apply follows_commit_transaction.
Qed.
End CommitFacts.

(** C2 (amended). In every commit, online through [add_fsync_to_journal] or
    as one turn of the loop of [flush_journal_locked], whatever [writei]
    returns and whether or not the commit panics on the way: every
    [free_block] call for the transaction's [free_block_list] comes after the
    [write_to_disk] that carries the Commit record, and before every
    [writeback_async], [async_iowait] and the [ideflush] barrier. A commit
    that returns makes exactly the calls of [commit_events], in that order. *)
Theorem free_block_after_commit_before_writeback `{JournalBlockTypes}
    (writei : Journal.kstate -> Z -> Z -> Z)
    (balloc_on_disk bfree_on_disk : list Z -> transaction -> transaction)
    (prepare_for_commit : transaction -> transaction)
    (tr : transaction) (st : Journal.kstate) :
  let fsync := Journal.add_fsync_to_journal writei balloc_on_disk bfree_on_disk
                 prepare_for_commit tr in
  let flush_turn := Journal.commit_transaction writei balloc_on_disk bfree_on_disk
                      prepare_for_commit tr in
  let calls := Journal.commit_events balloc_on_disk bfree_on_disk
                 prepare_for_commit (Journal.journal_offset st) tr in
  (Journal.preceded_by (Journal.is_write_to_disk_of jrnl_commit)
     Journal.is_free_block (Journal.events_of fsync st) /\
   Journal.all_before Journal.is_free_block Journal.is_home_writeback
     (Journal.events_of fsync st)) /\
  (Journal.preceded_by (Journal.is_write_to_disk_of jrnl_commit)
     Journal.is_free_block (Journal.events_of flush_turn st) /\
   Journal.all_before Journal.is_free_block Journal.is_home_writeback
     (Journal.events_of flush_turn st)) /\
  match (fsync st).1 with
  | Journal.Ok _ => Journal.events_of fsync st = Journal.Ev_journal_lock :: calls
  | Journal.Panic => True
  end /\
  match (flush_turn st).1 with
  | Journal.Ok _ => Journal.events_of flush_turn st = calls
  | Journal.Panic => True
  end.
Proof.
  intros fsync flush_turn calls.
  pose proof (follows_add_fsync_to_journal writei balloc_on_disk bfree_on_disk
                prepare_for_commit tr st) as Hf.
  pose proof (follows_commit_transaction writei balloc_on_disk bfree_on_disk
                prepare_for_commit tr st) as Hc.
  apply follows_events in Hf as [Hfp Hfo]. apply follows_events in Hc as [Hcp Hco].
  fold fsync in Hfp, Hfo. fold flush_turn in Hcp, Hco. fold calls in Hfp, Hfo, Hcp, Hco.
  destruct (order_of_prefix balloc_on_disk bfree_on_disk prepare_for_commit
              [Journal.Ev_journal_lock] _ tr _ ltac:(repeat constructor) Hfp)
    as (F1 & F2 & _).
  destruct (order_of_prefix balloc_on_disk bfree_on_disk prepare_for_commit
              [] _ tr _ ltac:(constructor) Hcp)
    as (C1 & C2 & _).
  split; [done|]. split; [done|]. split.
  - destruct ((fsync st).1) as [a|] eqn:E; [|done]. by destruct (Hfo a).
  - destruct ((flush_turn st).1) as [a|] eqn:E; [|done]. by destruct (Hco a).
Qed.

(** C3 (amended). In every commit, online through [add_fsync_to_journal] or
    as one turn of the loop of [flush_journal_locked]: the Start record is
    written before the Data records, and all of them are written before any
    [write_to_disk], so that nothing is waited for between the Start record
    and the Data records; the one [write_to_disk] that carries the Start and
    Data records lies between these records and the Commit record; the
    [write_to_disk] that carries the Commit record lies between the Commit
    record and every [free_block] and home-location writeback call. *)
Theorem journal_records_written_in_two_batches `{JournalBlockTypes}
    (writei : Journal.kstate -> Z -> Z -> Z)
    (balloc_on_disk bfree_on_disk : list Z -> transaction -> transaction)
    (prepare_for_commit : transaction -> transaction)
    (tr : transaction) (st : Journal.kstate) :
  let fsync := Journal.add_fsync_to_journal writei balloc_on_disk bfree_on_disk
                 prepare_for_commit tr in
  let flush_turn := Journal.commit_transaction writei balloc_on_disk bfree_on_disk
                      prepare_for_commit tr in
  let start_or_data e :=
    Journal.is_record_of jrnl_start e \/ Journal.is_record_of jrnl_data e in
  let after_commit e := Journal.is_free_block e \/ Journal.is_home_writeback e in
  let ordered evs :=
    Journal.all_before (Journal.is_record_of jrnl_start)
      (Journal.is_record_of jrnl_data) evs /\
    Journal.all_before start_or_data Journal.is_write_to_disk evs /\
    Journal.all_before start_or_data (Journal.is_record_of jrnl_commit) evs /\
    Journal.separated_by (Journal.is_write_to_disk_of jrnl_start) start_or_data
      (Journal.is_record_of jrnl_commit) evs /\
    Journal.all_before (Journal.is_record_of jrnl_commit) after_commit evs /\
    Journal.separated_by (Journal.is_write_to_disk_of jrnl_commit)
      (Journal.is_record_of jrnl_commit) after_commit evs in
  ordered (Journal.events_of fsync st) /\
  ordered (Journal.events_of flush_turn st).
Proof.
  intros fsync flush_turn start_or_data after_commit ordered.
  pose proof (follows_add_fsync_to_journal writei balloc_on_disk bfree_on_disk
                prepare_for_commit tr st) as Hf.
  pose proof (follows_commit_transaction writei balloc_on_disk bfree_on_disk
                prepare_for_commit tr st) as Hc.
  apply follows_events in Hf as [Hfp _]. apply follows_events in Hc as [Hcp _].
  destruct (order_of_prefix balloc_on_disk bfree_on_disk prepare_for_commit
              [Journal.Ev_journal_lock] _ tr _ ltac:(repeat constructor) Hfp)
    as (_ & _ & F3 & F4 & F5 & F6 & F7 & F8).
  destruct (order_of_prefix balloc_on_disk bfree_on_disk prepare_for_commit
              [] _ tr _ ltac:(constructor) Hcp)
    as (_ & _ & C3 & C4 & C5 & C6 & C7 & C8).
  split; unfold ordered; done.
Qed.

(** The calls of the example commit, by position. *)
Example example_commit_calls :
  (fun e => match e with
            | Journal.Ev_journal_record o hd _ =>
                Journal.Ev_journal_record o hd []
            | Journal.Ev_write_to_disk recs =>
                Journal.Ev_write_to_disk (map (fun r => (r.1, [])) recs)
            | _ => e
            end) <$> Journal.example_commit =
  [Journal.Ev_journal_lock;
   Journal.Ev_balloc_on_disk [];
   Journal.Ev_bfree_on_disk [60];
   Journal.Ev_prepare_for_commit 7;
   Journal.Ev_journal_record 0 (Hdr.mk_header 7 0 1) [];
   Journal.Ev_journal_record 4109 (Hdr.mk_header 7 50 2) [];
   Journal.Ev_write_to_disk [(Hdr.mk_header 7 0 1, []); (Hdr.mk_header 7 50 2, [])];
   Journal.Ev_journal_record 8218 (Hdr.mk_header 7 0 3) [];
   Journal.Ev_write_to_disk [(Hdr.mk_header 7 0 3, [])];
   Journal.Ev_free_block 60;
   Journal.Ev_writeback_async 50;
   Journal.Ev_async_iowait 50;
   Journal.Ev_ideflush;
   Journal.Ev_zero_fill 12327].
Proof. vm_compute. reflexivity. Qed.

(** C2, as stated, fails: in the example commit [free_block(60)] is the
    tenth call and [writeback_async] of block 50 the eleventh; the free bit is
    marked before the block is written home and before the barrier. *)
Lemma free_block_before_writeback_counterexample :
  ~ Journal.freed_after_writeback Journal.example_commit.
Proof.
  intros [Hab _].
  specialize (Hab 10%nat 9%nat (Journal.Ev_writeback_async 50)
                (Journal.Ev_free_block 60)).
  assert (10 < 9)%nat; [|lia].
  apply Hab; [by vm_compute|by vm_compute|exact I|exact I].
Qed.

(** C3, as stated, fails: in the example commit the Start record is the
    fifth call and the Data record the sixth, with no [write_to_disk] between
    them; the first wait follows the Data record. *)
Lemma journal_records_not_awaited_one_by_one_counterexample :
  ~ Journal.awaited_per_record (H := sv6_block_types) Journal.example_commit.
Proof.
  intros [Hsep _].
  destruct (Hsep 4%nat 5%nat
              (Journal.Ev_journal_record 0 (Hdr.mk_header 7 0 1) zero_block)
              (Journal.Ev_journal_record 4109 (Hdr.mk_header 7 50 2) [1]))
    as (k & w & Hk & _); [by vm_compute|by vm_compute|reflexivity|reflexivity|lia|].
  lia.
Qed.

(** ** The mapping tables *)

Section MfsFacts.
Import Mfs.
Context `{InodeLayer} `{MnodeLayer} `{LinearHash}.

Lemma lh_insert_fresh {V} k (v : V) (m : gmap Z V) :
  m !! k = None -> lh_insert k v m = <[k := v]> m.
Proof. intros Hk. unfold lh_insert. by rewrite Hk. Qed.

Lemma lh_insert_lookup_ne {V} k k' (v : V) (m : gmap Z V) :
  k <> k' -> lh_insert k v m !! k' = m !! k'.
Proof.
  intros Hne. unfold lh_insert.
  destruct (m !! k), insert_replaces; by rewrite ?lookup_insert_ne.
Qed.

Lemma lh_insert_lookup_eq {V} k (v : V) (m : gmap Z V) :
  lh_insert k v m !! k = Some v \/ lh_insert k v m !! k = m !! k.
Proof.
  unfold lh_insert.
  destruct (m !! k) eqn:Hk, insert_replaces;
    rewrite ?lookup_insert_eq, ?Hk; auto.
Qed.

(** A new pair, entered in both tables, keeps the inum→mnode entries
    matched, whichever way [insert] treats an inode number that is already
    there and whether or not the mnode reference is null. *)
Lemma tables_map_back_insert m2i i2m mnum inum (ref : option Z) :
  tables_map_back m2i i2m -> m2i !! mnum = None ->
  (ref = None \/ ref = Some mnum) ->
  tables_map_back (lh_insert mnum inum m2i) (lh_insert inum ref i2m).
Proof.
  intros Hmb Hfresh Href M I HI.
  rewrite (lh_insert_fresh _ _ _ Hfresh).
  destruct (decide (I = inum)) as [->|Hne].
  - destruct (lh_insert_lookup_eq inum ref i2m) as [Hl|Hl]; rewrite Hl in HI.
    + destruct Href as [->| ->]; simplify_eq. apply lookup_insert_eq.
    + apply Hmb in HI. assert (M <> mnum) by congruence.
      by rewrite lookup_insert_ne.
  - rewrite lh_insert_lookup_ne in HI by done. apply Hmb in HI.
    assert (M <> mnum) by congruence. by rewrite lookup_insert_ne.
Qed.

Lemma tables_map_back_delete_inum m2i i2m inum :
  tables_map_back m2i i2m -> tables_map_back m2i (delete inum i2m).
Proof.
  intros Hmb M I HI. apply lookup_delete_Some in HI as [_ HI]. by apply Hmb.
Qed.

Lemma tables_map_back_delete_mnum m2i i2m mnum :
  tables_map_back m2i i2m ->
  (forall inum, i2m !! inum <> Some (Some mnum)) ->
  tables_map_back (delete mnum m2i) i2m.
Proof.
  intros Hmb Hno M I HI. assert (M <> mnum) by (intros ->; by eapply Hno).
  rewrite lookup_delete_ne by done. by apply Hmb.
Qed.

Lemma mnode_ref_cases s mnum :
  mnode_ref s mnum = None \/ mnode_ref s mnum = Some mnum.
Proof. unfold mnode_ref. destruct (mfs_get _ _); auto. Qed.

(** What the two create helpers do to the tables: nothing, or one new pair
    entered in both. *)
Lemma create_file_if_new_tables mnum parent ty name tr link s r tr' s' :
  create_file_if_new mnum parent ty name tr link s = Some (r, tr', s') ->
  (r = 0 /\ tr' = tr /\ s' = s /\ is_Some (mnode_to_inode s !! mnum)) \/
  (mnode_to_inode s !! mnum = None /\
   mnode_to_inode s' = lh_insert mnum r (mnode_to_inode s) /\
   inum_to_mnode s' = lh_insert r (mnode_ref s mnum) (inum_to_mnode s) /\
   root_fs s' = root_fs s).
Proof.
  unfold create_file_if_new, inode_lookup. intros Hc.
  destruct (mnode_to_inode s !! mnum) as [i|] eqn:Hm.
  { left. by simplify_eq. }
  right. split; [done|].
  destruct (mnode_to_inode s !! parent) as [pi|]; [|done].
  destruct (ialloc ty (dsk s)) as [[inum d1]|]; [|done].
  destruct (iupdate inum tr d1) as [tr1 d2].
  destruct link.
  - destruct (iget d2 pi); [|done].
    destruct (dir_flush pi tr1 _) as [tr2 d4]. by simplify_eq.
  - by simplify_eq.
Qed.

Lemma create_dir_if_new_tables mnum parent ty name tr link s r tr' s' :
  create_dir_if_new mnum parent ty name tr link s = Some (r, tr', s') ->
  (r = 0 /\ tr' = tr /\ s' = s /\ is_Some (mnode_to_inode s !! mnum)) \/
  (mnode_to_inode s !! mnum = None /\
   mnode_to_inode s' = lh_insert mnum r (mnode_to_inode s) /\
   inum_to_mnode s' = lh_insert r (mnode_ref s mnum) (inum_to_mnode s) /\
   root_fs s' = root_fs s).
Proof.
  unfold create_dir_if_new, inode_lookup. intros Hc.
  destruct (mnode_to_inode s !! mnum) as [i|] eqn:Hm.
  { left. by simplify_eq. }
  right. split; [done|].
  destruct (mnode_to_inode s !! parent) as [pi|]; [|done].
  destruct (ialloc ty (dsk s)) as [[inum d1]|]; [|done].
  destruct (dir_flush inum tr _) as [tr1 d3].
  destruct link.
  - destruct (iget d3 pi); [|done].
    destruct (dir_flush pi tr1 _) as [tr2 d5]. by simplify_eq.
  - by simplify_eq.
Qed.

Lemma create_file_if_new_maps_back mnum parent ty name tr link s r tr' s' :
  maps_back s ->
  create_file_if_new mnum parent ty name tr link s = Some (r, tr', s') ->
  maps_back s'.
Proof.
  intros Hmb Hc. apply create_file_if_new_tables in Hc
    as [(_ & _ & -> & _)|(Hf & Hm & Hi & _)]; [done|].
  unfold maps_back. rewrite Hm, Hi.
  apply tables_map_back_insert; [done..|apply mnode_ref_cases].
Qed.

Lemma create_dir_if_new_maps_back mnum parent ty name tr link s r tr' s' :
  maps_back s ->
  create_dir_if_new mnum parent ty name tr link s = Some (r, tr', s') ->
  maps_back s'.
Proof.
  intros Hmb Hc. apply create_dir_if_new_tables in Hc
    as [(_ & _ & -> & _)|(Hf & Hm & Hi & _)]; [done|].
  unfold maps_back. rewrite Hm, Hi.
  apply tables_map_back_insert; [done..|apply mnode_ref_cases].
Qed.

Lemma link_directory_entry_maps_back i mdir name dirent ty tr s tr' s' :
  maps_back s ->
  link_directory_entry i mdir name dirent ty tr s = Some (tr', s') ->
  maps_back s'.
Proof.
  intros Hmb. unfold link_directory_entry.
  destruct (negb _); [intros ?; simplify_eq; exact Hmb|].
  destruct (ty =? type_file).
  { destruct (create_file_if_new _ _ _ _ _ _ _) as [[[r tr1] s1]|] eqn:Hc; [|done].
    intros ?; simplify_eq. change (maps_back s1).
    by eapply create_file_if_new_maps_back. }
  destruct (ty =? type_dir); [|intros; by simplify_eq].
  destruct (create_dir_if_new _ _ _ _ _ _ _) as [[[r tr1] s1]|] eqn:Hc; [|done].
  intros ?; simplify_eq. change (maps_back s1).
  by eapply create_dir_if_new_maps_back.
Qed.

Lemma create_directory_entry_maps_back mdir name dirent ty tr s tr' s' :
  maps_back s ->
  create_directory_entry mdir name dirent ty tr s = Some (tr', s') ->
  maps_back s'.
Proof.
  intros Hmb. unfold create_directory_entry.
  destruct (get_inode mdir s) as [i|]; [|done].
  destruct (dirlookup (dsk s) i name) as [di|];
    [|by apply link_directory_entry_maps_back].
  destruct (di =? dirent); [intros; by simplify_eq|].
  destruct (inode_nlink _ di =? 0).
  - destruct (itrunc di 0 tr _) as [tr1 d2].
    apply link_directory_entry_maps_back.
    by apply tables_map_back_delete_inum.
  - by apply link_directory_entry_maps_back.
Qed.

Lemma unlink_old_inode_maps_back mdir name tr s tr' s' :
  maps_back s ->
  unlink_old_inode mdir name tr s = Some (tr', s') ->
  maps_back s' /\ mnode_to_inode s' = mnode_to_inode s.
Proof.
  intros Hmb. unfold unlink_old_inode.
  destruct (get_inode mdir s) as [i|]; [|done].
  destruct (dirlookup (dsk s) i name) as [target|]; [|intros; by simplify_eq].
  intros Hu. simplify_eq. split; [|done]. unfold maps_back. simpl.
  destruct (inode_nlink _ target =? 0); [|done].
  by apply tables_map_back_delete_inum.
Qed.

Lemma free_inode_tables mnum tr s tr' s' :
  free_inode mnum tr s = Some (tr', s') ->
  mnode_to_inode s' = mnode_to_inode s /\ inum_to_mnode s' = inum_to_mnode s.
Proof.
  unfold free_inode. destruct (get_inode mnum s) as [ip|]; [|done].
  destruct (inode_nlink _ ip =? 0); [|done].
  destruct (iupdate ip tr _) as [tr1 d2]. intros. by simplify_eq.
Qed.

Lemma delete_old_inode_tables mnum tr s tr' s' :
  delete_old_inode mnum tr s = Some (tr', s') ->
  mnode_to_inode s' = delete mnum (mnode_to_inode s) /\
  inum_to_mnode s' = inum_to_mnode s.
Proof.
  unfold delete_old_inode. destruct (get_inode mnum s) as [ip|]; [|done].
  destruct (itrunc ip 0 tr (dsk s)) as [tr1 d1].
  destruct (free_inode mnum tr1 _) as [[tr2 s2]|] eqn:Hf; [|done].
  apply free_inode_tables in Hf as [Hm Hi]. intros. simplify_eq. simpl.
  by rewrite Hm, Hi.
Qed.

Lemma delete_old_inode_maps_back mnum tr s tr' s' :
  maps_back s ->
  (forall inum, inum_to_mnode s !! inum <> Some (Some mnum)) ->
  delete_old_inode mnum tr s = Some (tr', s') ->
  maps_back s'.
Proof.
  intros Hmb Hno Hd. apply delete_old_inode_tables in Hd as [Hm Hi].
  unfold maps_back. rewrite Hm, Hi. by apply tables_map_back_delete_mnum.
Qed.


(** *** The pairs of the two tables *)











End MfsFacts.

(** The stand-in file system keeps the promises of [InodeLayerLaws]. *)
#[export] Instance simple_fs_laws : @Mfs.InodeLayerLaws Mfs.simple_fs.
Proof.
  split.
  - intros dp name inum dec d. change (gmap Z Mfs.inode) in d. cbn.
    destruct (decide (inum = dp)) as [->|Hne].
    + rewrite lookup_alter_eq, lookup_alter_eq.
      destruct (d !! dp) as [ip|]; [|done]. cbn. apply lookup_delete_eq.
    + rewrite lookup_alter_ne, lookup_alter_eq by done.
      destruct (d !! dp) as [ip|]; [|done]. cbn. apply lookup_delete_eq.
  - intros dp name inum dec d x. change (gmap Z Mfs.inode) in d. cbn.
    rewrite !lookup_alter. repeat case_decide; subst;
      rewrite ?lookup_alter_eq, ?lookup_alter_ne by done;
      by destruct (d !! _) as [ip|].
  - intros dp name inum dec d x. change (gmap Z Mfs.inode) in d. cbn.
    rewrite !lookup_alter. repeat case_decide; subst;
      rewrite ?lookup_alter_eq, ?lookup_alter_ne by done;
      by destruct (d !! _) as [ip|].
Qed.

(** C10. When the directory of mnode [mdir_inum] has an inode and holds no
    entry for [name], [unlink_old_inode] returns, without a panic, and leaves
    everything as it was: both mapping tables, the disk with its directory
    entries and inode fields, the mnode layer and the transaction. *)
Theorem unlink_old_inode_missing_name
    `{IL : Mfs.InodeLayer} `{ML : Mfs.MnodeLayer} `{LH : Mfs.LinearHash}
    (mdir_inum : Z) (name : string) (tr : transaction) (s : Mfs.mfs_state) (i : Z) :
  Mfs.mnode_to_inode s !! mdir_inum = Some i ->
  Mfs.iget (Mfs.dsk s) i = true ->
  Mfs.dirlookup (Mfs.dsk s) i name = None ->
  Mfs.unlink_old_inode mdir_inum name tr s = Some (tr, s).
Proof.
  intros Hm Hi Hl. unfold Mfs.unlink_old_inode, Mfs.get_inode.
  by rewrite Hm, Hi, Hl.
Qed.

(** C8. When the directory of mnode [mdir_inum] has an inode and holds an
    entry for [name], [unlink_old_inode] returns with the entry removed. The
    inum→mnode entry of the target is removed if the target's link count is
    zero after the removal and the table is untouched otherwise. Nothing else
    changes: the mnum→inum table and the mnode layer are as before, the
    transaction comes back as it was given (nothing was truncated or logged),
    the disk is what the one [dirunlink] call left, and no inode changed its
    type or its size. *)
Theorem unlink_old_inode_frame
    `{IL : Mfs.InodeLayer} `{!Mfs.InodeLayerLaws} `{ML : Mfs.MnodeLayer}
    `{LH : Mfs.LinearHash}
    (mdir_inum : Z) (name : string) (tr : transaction) (s : Mfs.mfs_state)
    (i target : Z) :
  Mfs.mnode_to_inode s !! mdir_inum = Some i ->
  Mfs.iget (Mfs.dsk s) i = true ->
  Mfs.dirlookup (Mfs.dsk s) i name = Some target ->
  exists s',
    Mfs.unlink_old_inode mdir_inum name tr s = Some (tr, s') /\
    Mfs.dirlookup (Mfs.dsk s') i name = None /\
    (Mfs.inode_nlink (Mfs.dsk s') target = 0 ->
       Mfs.inum_to_mnode s' = delete target (Mfs.inum_to_mnode s)) /\
    (Mfs.inode_nlink (Mfs.dsk s') target <> 0 ->
       Mfs.inum_to_mnode s' = Mfs.inum_to_mnode s) /\
    Mfs.mnode_to_inode s' = Mfs.mnode_to_inode s /\
    Mfs.root_fs s' = Mfs.root_fs s /\
    Mfs.dsk s' = Mfs.dirunlink i name target
                   (Mfs.inode_type (Mfs.dsk s) target =? Mfs.T_DIR) (Mfs.dsk s) /\
    (forall x, Mfs.inode_type (Mfs.dsk s') x = Mfs.inode_type (Mfs.dsk s) x) /\
    (forall x, Mfs.inode_size (Mfs.dsk s') x = Mfs.inode_size (Mfs.dsk s) x).
Proof.
  intros Hm Hi Hl. unfold Mfs.unlink_old_inode, Mfs.get_inode.
  rewrite Hm, Hi, Hl. eexists. split; [reflexivity|]. simpl.
  split; [apply Mfs.dirunlink_lookup|].
  split; [intros Hz; apply Z.eqb_eq in Hz; by rewrite Hz|].
  split; [intros Hz; apply Z.eqb_neq in Hz; by rewrite Hz|].
  split; [done|]. split; [done|]. split; [done|].
  split; intros x; [apply Mfs.dirunlink_type|apply Mfs.dirunlink_size].
Qed.

(** C7. [create_file_if_new] is idempotent: when [mnum] has an entry in
    [mnode_to_inode] the call returns 0 and changes neither the state nor the
    transaction; and after a call that returned, a second call with the same
    arguments returns 0 and leaves the state and the transaction of the first
    call as they are. *)
Theorem create_file_if_new_idempotent
    `{IL : Mfs.InodeLayer} `{ML : Mfs.MnodeLayer} `{LH : Mfs.LinearHash}
    (mnum parent type : Z) (name : string) (link_in_parent : bool) :
  (forall s tr inum,
     Mfs.mnode_to_inode s !! mnum = Some inum ->
     Mfs.create_file_if_new mnum parent type name tr link_in_parent s
       = Some (0, tr, s)) /\
  (forall s tr r tr1 s1,
     Mfs.create_file_if_new mnum parent type name tr link_in_parent s
       = Some (r, tr1, s1) ->
     Mfs.create_file_if_new mnum parent type name tr1 link_in_parent s1
       = Some (0, tr1, s1)).
Proof.
  assert (Hfirst : forall s tr inum,
            Mfs.mnode_to_inode s !! mnum = Some inum ->
            Mfs.create_file_if_new mnum parent type name tr link_in_parent s
              = Some (0, tr, s)).
  { intros s tr inum Hm. unfold Mfs.create_file_if_new, Mfs.inode_lookup.
    by rewrite Hm. }
  split; [exact Hfirst|].
  intros s tr r tr1 s1 Hc.
  apply create_file_if_new_tables in Hc
    as [(_ & -> & -> & [inum Hm])|(Hf & Hm & _)].
  - by eapply Hfirst.
  - apply (Hfirst s1 tr1 r). rewrite Hm, (lh_insert_fresh _ _ _ Hf).
    apply lookup_insert_eq.
Qed.


#[local] Existing Instance Mfs.simple_fs.
#[local] Existing Instance Mfs.simple_mnodes.



(** Why the creates need [root_fs->get(mnum)] to be a reference: for mnode
    30, which the mnode layer of the example state does not hold,
    [create_file_if_new] enters the new inode with the null reference, and
    the pair is then matched in one direction only. *)
Example create_for_missing_mnode_enters_null_reference :
  exists r tr' s',
    Mfs.create_file_if_new (H1 := Mfs.keeping_hash) 30 10 2 "b"
      (new_transaction 0) false Mfs.example_state = Some (r, tr', s') /\
    Mfs.mnode_to_inode s' !! 30 = Some r /\
    Mfs.inum_to_mnode s' !! r = Some None.
Proof. eexists _, _, _. split; [reflexivity|]. by vm_compute. Qed.


(** Witness for [unlink_old_inode_missing_name]: the root directory of the
    example state has no entry ["b"]. *)
Lemma unlink_old_inode_missing_name_witness :
  Mfs.unlink_old_inode 10 "b" (new_transaction 0) Mfs.example_state
  = Some (new_transaction 0, Mfs.example_state).
Proof.
  apply (unlink_old_inode_missing_name (LH := Mfs.keeping_hash)
           10 "b" (new_transaction 0) Mfs.example_state 1); reflexivity.
Defined.

(** Witness for [unlink_old_inode_frame]: the entry ["a"] of the example
    state. *)
Lemma unlink_old_inode_frame_witness :
  exists s',
    Mfs.unlink_old_inode 10 "a" (new_transaction 0) Mfs.example_state
      = Some (new_transaction 0, s') /\
    Mfs.dirlookup (Mfs.dsk s') 1 "a" = None /\
    (Mfs.inode_nlink (Mfs.dsk s') 2 = 0 ->
       Mfs.inum_to_mnode s' = delete 2 (Mfs.inum_to_mnode Mfs.example_state)) /\
    (Mfs.inode_nlink (Mfs.dsk s') 2 <> 0 ->
       Mfs.inum_to_mnode s' = Mfs.inum_to_mnode Mfs.example_state) /\
    Mfs.mnode_to_inode s' = Mfs.mnode_to_inode Mfs.example_state /\
    Mfs.root_fs s' = Mfs.root_fs Mfs.example_state /\
    Mfs.dsk s' = Mfs.dirunlink 1 "a" 2
                   (Mfs.inode_type (Mfs.dsk Mfs.example_state) 2 =? Mfs.T_DIR)
                   (Mfs.dsk Mfs.example_state) /\
    (forall x, Mfs.inode_type (Mfs.dsk s') x
               = Mfs.inode_type (Mfs.dsk Mfs.example_state) x) /\
    (forall x, Mfs.inode_size (Mfs.dsk s') x
               = Mfs.inode_size (Mfs.dsk Mfs.example_state) x).
Proof.
  apply (unlink_old_inode_frame (LH := Mfs.keeping_hash)
           10 "a" (new_transaction 0) Mfs.example_state 1 2); reflexivity.
Defined.

(** Witness for [create_file_if_new_idempotent]: mnode 20 has an inode, and
    mnode 30 gets one by the first of two calls. *)
Lemma create_file_if_new_idempotent_witness :
  Mfs.create_file_if_new (H1 := Mfs.keeping_hash) 20 10 2 "a" (new_transaction 0)
    true Mfs.example_state
  = Some (0, new_transaction 0, Mfs.example_state) /\
  exists r tr1 s1,
    Mfs.create_file_if_new (H1 := Mfs.keeping_hash) 30 10 2 "c" (new_transaction 0)
      true Mfs.example_state
    = Some (r, tr1, s1) /\
    Mfs.create_file_if_new (H1 := Mfs.keeping_hash) 30 10 2 "c" tr1 true s1
    = Some (0, tr1, s1).
Proof.
  split.
  - apply (proj1 (create_file_if_new_idempotent (LH := Mfs.keeping_hash)
                    20 10 2 "a" true)
             Mfs.example_state (new_transaction 0) 2).
    reflexivity.
  - eexists _, _, _. split; [reflexivity|].
    eapply (proj2 (create_file_if_new_idempotent (LH := Mfs.keeping_hash)
                     30 10 2 "c" true)
              Mfs.example_state (new_transaction 0)).
    reflexivity.
Defined.

(** C4, as stated, fails. The journal below holds no Start record: a Data
    record for block 5 and a Commit record, both with timestamp 0. The scan
    starts with [current_transaction = 0], so both records match, and
    [process_journal] applies block 5 although no transaction of the journal
    has a Start record. *)
Lemma process_journal_applies_without_start :
  let journal := [(Hdr.mk_header 0 5 jrnl_data, [1; 2]);
                  (Hdr.mk_header 0 0 jrnl_commit, zero_block)] in
  Forall (fun r : journal_record => Hdr.block_type r.1 <> jrnl_start) journal /\
  Recovery.process_journal journal = [mk_diskblock 5 [1; 2]].
Proof.
  split; [|reflexivity].
  repeat constructor; discriminate.
Qed.

(** Witness for [process_journal_applies_committed]: a transaction that was
    cut after its Data record, a committed transaction with two blocks, and
    another transaction cut after its Data record (the spec's scenario 3),
    followed by an end-of-log header and stale records. Only the blocks of
    the committed transaction are applied. *)
Lemma process_journal_applies_committed_witness :
  let b1 := mk_diskblock 7 [1; 2] in
  let b2 := mk_diskblock 9 [3] in
  let b3 := mk_diskblock 11 [4] in
  let b4 := mk_diskblock 12 [5] in
  let txs := [((7, [b3]), false); ((8, [b1; b2]), true); ((9, [b4]), false)] in
  let tail := [(Hdr.mk_header 0 0 0, zero_block); Recovery.commit_record 9] in
  let journal := flat_map Recovery.logged_records txs ++ tail in
  Forall (fun tx => Forall (fun r : journal_record => is_zero_header r.1 = false)
                      (Recovery.logged_records tx)) txs /\
  Recovery.uncommitted (Recovery.last_timestamp (fst <$> txs)) tail /\
  Recovery.process_journal journal = [b1; b2] /\
  Recovery.process_journal journal =
    Recovery.committed_blocks (Recovery.scanned 0 journal).
Proof.
  intros b1 b2 b3 b4 txs tail journal.
  assert (Hnz : Forall (fun tx => Forall (fun r : journal_record =>
                                            is_zero_header r.1 = false)
                                    (Recovery.logged_records tx)) txs).
  { repeat constructor. }
  assert (Hun : Recovery.uncommitted (Recovery.last_timestamp (fst <$> txs)) tail).
  { apply Recovery.unc_zero. reflexivity. }
  split; [exact Hnz|]. split; [exact Hun|].
  split.
  - exact (proj2 process_journal_applies_committed txs tail Hnz Hun).
  - exact (proj1 process_journal_applies_committed journal).
Defined.

(** * Further properties of scalefs.cc *)

(** ** The block allocator in use *)

Section AllocatorUse.
Import Allocator FreeBlocks.

Lemma set_is_free_id bit b : is_free bit = b -> set_is_free b bit = bit.
Proof. intros <-. by destruct bit. Qed.

Lemma free_block_Some bno s s' :
  free_block bno s = Some s' ->
  0 <= bno /\
  exists bit, free_bit_vector s !! Z.to_nat bno = Some bit /\ is_free bit = false /\
    s' = {| free_bit_vector :=
              <[Z.to_nat bno := set_is_free true bit]> (free_bit_vector s);
            free_bit_freelist := Z.to_nat bno :: free_bit_freelist s;
            sb_size := sb_size s |}.
Proof.
  unfold free_block. destruct (bno <? 0) eqn:Hb; [done|]. apply Z.ltb_ge in Hb.
  destruct (free_bit_vector s !! Z.to_nat bno) as [bit|] eqn:Hit; [|done].
  destruct (is_free bit) eqn:Hf; [done|]. intros [= <-]. eauto.
Qed.

Lemma alloc_blocks_freelist n s :
  alloc_inv s ->
  exists s',
    alloc_blocks n s =
      Some ((Z.of_nat <$> take n (free_bit_freelist s)) ++
            replicate (n - length (free_bit_freelist s)) (sb_size s), s') /\
    free_bit_freelist s' = drop n (free_bit_freelist s) /\
    sb_size s' = sb_size s /\ alloc_inv s'.
Proof.
  revert s. induction n as [|n IH]; intros s Hinv.
  { exists s. simpl. rewrite drop_0. done. }
  pose proof Hinv as [Hb Hn Hf Hs]. simpl. unfold alloc_block.
  destruct (free_bit_freelist s) as [|it rest] eqn:Hfl.
  - destruct (IH s Hinv) as (s' & Ha & Hd & Hsz & Hi). rewrite Ha, Hfl. simpl.
    exists s'. rewrite Hd, Hfl, take_nil, drop_nil. simpl.
    rewrite Nat.sub_0_r. done.
  - assert (Hin : it ∈ it :: rest) by by left.
    apply Hf in Hin as (bit & Hit & Hfree). rewrite Hit, Hfree.
    set (s1 := {| free_bit_vector := _ |}).
    assert (Ha1 : alloc_block s = Some (bno_ bit, s1)).
    { unfold alloc_block. by rewrite Hfl, Hit, Hfree. }
    pose proof (alloc_block_inv _ _ _ Hinv Ha1) as Hinv1.
    destruct (IH s1 Hinv1) as (s' & Ha & Hd & Hsz & Hi). rewrite Ha.
    exists s'. simpl. rewrite (Hb _ _ Hit). done.
Qed.

Lemma init_bit_built bitmap K s bi n :
  (Z.of_nat bi < BPB) ->
  Z.of_nat K * BPB + Z.of_nat bi = Z.of_nat n ->
  built bitmap n s ->
  built bitmap (S n) (init_bit bitmap (Z.of_nat K * BPB) s bi).
Proof.
  intros Hbi Hn [Hv Hfl]. unfold built, init_bit.
  cbn [free_bit_vector free_bit_freelist].
  assert (HBPB : BPB = 32768) by reflexivity.
  assert (Hdiv : Z.of_nat K * BPB / BPB = Z.of_nat n / BPB).
  { rewrite <- Hn. rewrite Z.div_mul by lia.
    rewrite Z.add_comm, Z.div_add by lia. rewrite Z.div_small; lia. }
  assert (Hmod : Z.of_nat bi = Z.of_nat n mod BPB).
  { rewrite <- Hn. rewrite Z.add_comm, Z.mod_add by lia.
    rewrite Z.mod_small; lia. }
  assert (Hf : (Z.land (bitmap (Z.of_nat K * BPB / BPB) (Z.of_nat bi / 8))
                  (Z.shiftl 1 (Z.of_nat bi mod 8)) =? 0)
               = free_on_disk bitmap (Z.of_nat n)).
  { unfold free_on_disk. by rewrite Hdiv, Hmod. }
  rewrite Hf, Hn, seq_S, fmap_app, filter_app, Hv, Hfl, length_fmap, length_seq.
  split; [done|]. simpl. rewrite filter_cons, filter_nil.
  destruct (free_on_disk bitmap (Z.of_nat n)) eqn:E.
  - rewrite decide_True by done. done.
  - rewrite decide_False by done. by rewrite app_nil_r.
Qed.

Lemma init_bits_built bitmap K s n m :
  (Z.of_nat m <= BPB) ->
  Z.of_nat K * BPB = Z.of_nat n ->
  built bitmap n s ->
  built bitmap (n + m) (foldl (init_bit bitmap (Z.of_nat K * BPB)) s (seq 0 m)).
Proof.
  intros Hm Hn Hb. induction m as [|m IH].
  - simpl. by rewrite Nat.add_0_r.
  - rewrite seq_S, foldl_app. cbn [foldl Nat.add].
    rewrite Nat.add_succ_r. apply init_bit_built; [lia|lia|]. apply IH. lia.
Qed.

Lemma init_blocks_built bitmap size K :
  0 <= size ->
  (Z.of_nat K <= (size + BPB - 1) / BPB) ->
  built bitmap (Z.to_nat (Z.min size (Z.of_nat K * BPB)))
    (foldl (init_block bitmap)
       {| free_bit_vector := []; free_bit_freelist := []; sb_size := size |}
       (seq 0 K)).
Proof.
  intros Hsize. induction K as [|K IH]; intros HK.
  - replace (Z.to_nat (Z.min size (Z.of_nat 0 * BPB))) with O by lia. done.
  - rewrite seq_S, foldl_app. cbn [foldl Nat.add].
    pose proof (init_blocks_building bitmap size K Hsize) as (_ & Hlen & Hsz); [lia|].
    cbv zeta in Hlen, Hsz. specialize (IH ltac:(lia)).
    set (s := foldl _ _ _) in *.
    assert (HBPB : BPB = 32768) by reflexivity.
    assert (Hlt : Z.of_nat K * BPB < size).
    { assert (Z.of_nat K + 1 <= (size + BPB - 1) / BPB) by lia.
      assert (BPB * ((size + BPB - 1) / BPB) <= size + BPB - 1)
        by (apply Z.mul_div_le; lia).
      nia. }
    unfold init_block. rewrite Hsz.
    replace (Z.to_nat (Z.min size (Z.of_nat (S K) * BPB)))
      with (Z.to_nat (Z.min size (Z.of_nat K * BPB)) +
            Z.to_nat (Z.min BPB (size - Z.of_nat K * BPB)))%nat by lia.
    apply init_bits_built; [lia|lia|done].
Qed.

Lemma initialize_built bitmap size :
  0 <= size ->
  built bitmap (Z.to_nat size) (initialize_free_bit_vector bitmap size).
Proof.
  intros Hsize. unfold initialize_free_bit_vector.
  assert (HBPB : BPB = 32768) by reflexivity.
  assert (0 <= (size + BPB - 1) / BPB) by (apply Z.div_pos; lia).
  pose proof (init_blocks_built bitmap size
                (Z.to_nat ((size + BPB - 1) / BPB)) Hsize ltac:(lia)) as Hb.
  replace (Z.to_nat (Z.min size (Z.of_nat (Z.to_nat ((size + BPB - 1) / BPB)) * BPB)))
    with (Z.to_nat size) in Hb; [done|].
  rewrite Z2Nat.id by done.
  assert (size + BPB - 1 < BPB * ((size + BPB - 1) / BPB) + BPB).
  { pose proof (Z.mod_pos_bound (size + BPB - 1) BPB).
    pose proof (Z.div_mod (size + BPB - 1) BPB). lia. }
  lia.
Qed.

(** The free bits of a vector, counted without the [u32] wrap-around. *)
Lemma count_free_filter v :
  Z.of_nat (length v) < 2 ^ 32 ->
  count_free v = Z.of_nat (length (filter (fun bit => is_free bit = true) v)).
Proof.
  unfold count_free. induction v as [|bit v IH] using rev_ind; intros Hlen; [done|].
  rewrite length_app in Hlen. simpl in Hlen.
  rewrite foldl_app, filter_app, length_app. cbn [foldl].
  rewrite IH by lia. rewrite filter_cons, filter_nil.
  pose proof (length_filter (fun bit => is_free bit = true) v) as Hle.
  destruct (is_free bit) eqn:E.
  - rewrite decide_True by done. simpl. unfold Journal.u32.
    rewrite Z.mod_small; lia.
  - rewrite decide_False by done. simpl. lia.
Qed.

Lemma filter_ext_in {A} (P Q : A -> Prop) `{!forall x, Decision (P x)}
    `{!forall x, Decision (Q x)} (l : list A) :
  (forall x, x ∈ l -> (P x <-> Q x)) -> filter P l = filter Q l.
Proof.
  induction l as [|x l IH]; intros Hl; [done|].
  rewrite !filter_cons.
  assert (HPQ : P x <-> Q x) by (apply Hl; by left).
  rewrite IH by (intros y Hy; apply Hl; by right).
  destruct (decide (P x)), (decide (Q x)); tauto.
Qed.

(** Under the invariant the freelist links as many bits as are free. *)
Lemma freelist_length s :
  alloc_inv s ->
  length (free_bit_freelist s) =
  length (filter (fun bit => is_free bit = true) (free_bit_vector s)).
Proof.
  intros [Hb Hn Hf Hs].
  assert (Hperm : free_bit_freelist s ≡ₚ
            filter (fun i => is_free <$> free_bit_vector s !! i = Some true)
                   (seq 0 (length (free_bit_vector s)))).
  { apply NoDup_Permutation; [done|apply NoDup_filter, NoDup_seq|].
    intros i. rewrite list_elem_of_filter, Hf, elem_of_seq. split.
    - intros (bit & Hl & Hfr). split; [by rewrite Hl; simpl; rewrite Hfr|].
      apply lookup_lt_Some in Hl. lia.
    - intros [Hl _]. destruct (free_bit_vector s !! i) as [bit|]; [|done].
      exists bit. split; [done|]. by simplify_eq/=. }
  rewrite Hperm. clear Hperm Hb Hn Hf Hs.
  induction (free_bit_vector s) as [|bit v IH] using rev_ind; [done|].
  rewrite length_app. simpl. rewrite Nat.add_1_r, seq_S, !filter_app, !length_app.
  simpl. f_equal.
  - rewrite <- IH. f_equal. apply filter_ext_in.
    intros i Hi. apply elem_of_seq in Hi. by rewrite lookup_app_l by lia.
  - rewrite !filter_cons, !filter_nil. rewrite lookup_app_r by lia.
    rewrite Nat.sub_diag. simpl.
    destruct (is_free bit) eqn:E.
    + by rewrite !decide_True.
    + rewrite !decide_False; [done|congruence|congruence].
Qed.
End AllocatorUse.

(** X1. A block that [alloc_block] hands out can be given back at once:
    from a reachable state with a non-empty freelist, [free_block] on the
    returned block number succeeds and restores the allocator to the very
    state before the allocation. The out-of-space sentinel is no block: with
    an empty freelist [alloc_block] returns [sb.size], and [free_block] on it
    panics. *)
Theorem alloc_then_free_restores (s s' : Allocator.alloc_state) (bno : Z) :
  Allocator.reachable s ->
  Allocator.alloc_block s = Some (bno, s') ->
  (Allocator.free_bit_freelist s <> [] -> Allocator.free_block bno s' = Some s) /\
  (Allocator.free_bit_freelist s = [] -> Allocator.free_block bno s' = None).
Proof.
  intros Hr Ha. pose proof (reachable_inv s Hr) as [Hb Hn Hf Hs].
  unfold Allocator.alloc_block in Ha.
  destruct (Allocator.free_bit_freelist s) as [|it rest] eqn:Hfl.
  - simplify_eq. split; [done|]. intros _. unfold Allocator.free_block.
    destruct (Allocator.sb_size s' <? 0); [done|].
    rewrite lookup_ge_None_2; [done|]. lia.
  - split; [|done]. intros _.
    assert (Hin : it ∈ it :: rest) by by left.
    apply Hf in Hin as (bit & Hit & Hfree). rewrite Hit, Hfree in Ha.
    simplify_eq. pose proof (Hb _ _ Hit) as Hbno.
    pose proof (lookup_lt_Some _ _ _ Hit) as Hlt.
    unfold Allocator.free_block; simpl.
    assert (Hnn : (Allocator.bno_ bit <? 0) = false) by (apply Z.ltb_ge; lia).
    rewrite Hnn, Hbno, Nat2Z.id, list_lookup_insert_eq by done. simpl.
    rewrite list_insert_insert_eq.
    replace (Allocator.set_is_free true (Allocator.set_is_free false bit)) with bit
      by (destruct bit; simpl in *; by subst).
    rewrite list_insert_id by done. rewrite <- Hfl. by destruct s.
Qed.

(** X2. The freelist is last-in first-out: in a reachable state, right after
    [free_block(bno)] has returned, [alloc_block] returns that same [bno] and
    leaves the allocator as it was before the block was freed. *)
Theorem free_then_alloc_returns_block (s s' : Allocator.alloc_state) (bno : Z) :
  Allocator.reachable s ->
  Allocator.free_block bno s = Some s' ->
  Allocator.alloc_block s' = Some (bno, s).
Proof.
  intros Hr Hfb. pose proof (reachable_inv s Hr) as [Hb Hn Hf Hs].
  apply free_block_Some in Hfb as (Hpos & bit & Hit & Hfree & ->).
  pose proof (lookup_lt_Some _ _ _ Hit) as Hlt.
  unfold Allocator.alloc_block; simpl.
  rewrite list_lookup_insert_eq by done. simpl.
  rewrite list_insert_insert_eq.
  rewrite (Hb _ _ Hit), Z2Nat.id by done.
  replace (Allocator.set_is_free false (Allocator.set_is_free true bit)) with bit
    by (destruct bit; simpl in *; by subst).
  rewrite list_insert_id by done. by destruct s.
Qed.

(** X3. When [free_block] is fatal. In a reachable state [free_block(bno)]
    panics exactly when [bno] is outside [0, sb.size) (the range check of
    [free_bit_vector.at]) or the bit of [bno] is already free ("freeing free
    block"). When it returns, the bit of [bno] is free, no other bit has
    changed, and a second [free_block(bno)] panics. *)
Theorem free_block_fatal_cases (s : Allocator.alloc_state) (bno : Z) :
  Allocator.reachable s ->
  (Allocator.free_block bno s = None <->
     bno < 0 \/ Allocator.sb_size s <= bno \/
     Allocator.bit_is_free s bno = Some true) /\
  (forall s', Allocator.free_block bno s = Some s' ->
     Allocator.bit_is_free s' bno = Some true /\
     (forall b, b <> bno -> Allocator.bit_is_free s' b = Allocator.bit_is_free s b) /\
     Allocator.free_block bno s' = None).
Proof.
  intros Hr. pose proof (reachable_inv s Hr) as [Hb Hn Hf Hs]. split.
  - unfold Allocator.free_block, Allocator.bit_is_free.
    destruct (bno <? 0) eqn:Hneg.
    { apply Z.ltb_lt in Hneg. split; [by left|done]. }
    apply Z.ltb_ge in Hneg.
    destruct (Allocator.free_bit_vector s !! Z.to_nat bno) as [bit|] eqn:Hit; simpl.
    + pose proof (lookup_lt_Some _ _ _ Hit) as Hlt.
      destruct (Allocator.is_free bit) eqn:Hfree.
      * split; [by right; right|done].
      * split; [done|]. intros [?|[?|?]]; [lia|lia|done].
    + apply lookup_ge_None_1 in Hit. split; [|done]. intros _. right. left. lia.
  - intros s' Hfb.
    apply free_block_Some in Hfb as (Hpos & bit & Hit & Hfree & ->).
    pose proof (lookup_lt_Some _ _ _ Hit) as Hlt.
    assert (Hnn : (bno <? 0) = false) by (by apply Z.ltb_ge).
    unfold Allocator.free_block, Allocator.bit_is_free; simpl. rewrite Hnn.
    rewrite list_lookup_insert_eq by done. simpl. split; [done|]. split; [|done].
    intros b Hne. destruct (b <? 0) eqn:Hb0; [done|].
    apply Z.ltb_ge in Hb0. rewrite list_lookup_insert_ne; [done|lia].
Qed.

(** X4. Repeated allocation walks the freelist: [n] calls of [alloc_block]
    in a row from a reachable state all return; they hand out the blocks of
    the freelist in its order, each of them once and each in [0, sb.size),
    and when the freelist is used up every further call returns the sentinel
    [sb.size]. *)
Theorem alloc_blocks_follow_freelist (n : nat) (s : Allocator.alloc_state) :
  Allocator.reachable s ->
  let fl := Allocator.free_bit_freelist s in
  let handed := Z.of_nat <$> take n fl in
  exists s',
    FreeBlocks.alloc_blocks n s =
      Some (handed ++ replicate (n - length fl) (Allocator.sb_size s), s') /\
    Allocator.free_bit_freelist s' = drop n fl /\
    NoDup handed /\
    Forall (fun b => 0 <= b < Allocator.sb_size s) handed.
Proof.
  intros Hr fl handed. pose proof (reachable_inv s Hr) as Hinv.
  destruct (alloc_blocks_freelist n s Hinv) as (s' & Ha & Hd & _ & _).
  exists s'. split; [exact Ha|]. split; [exact Hd|].
  destruct Hinv as [Hb Hn Hf Hs]. split.
  - apply NoDup_fmap_2_strong; [intros x y _ _; lia|].
    eapply sublist_NoDup; [exact Hn|apply sublist_take].
  - apply Forall_fmap, Forall_forall. intros i Hi. simpl.
    assert (Hin : i ∈ fl).
    { apply elem_of_take in Hi as (k & Hk & _). by eapply list_elem_of_lookup_2. }
    apply Hf in Hin as (bit & Hl & _). apply lookup_lt_Some in Hl. lia.
Qed.

(** X5. [initialize_free_bit_vector] reads the on-disk bitmap faithfully:
    for a superblock size [size >= 0] the vector gets one entry per block
    number of [0, size), the entry of [bno] is free exactly when bit
    [bno % 8] of byte [(bno % BPB) / 8] of the bitmap block of [bno] is
    clear, and the freelist holds the free blocks in ascending order, so that
    the first allocation after boot returns the lowest free block. *)
Theorem initialize_free_bit_vector_reads_bitmap (bitmap : Z -> Z -> Z) (size : Z) :
  0 <= size ->
  let s := Allocator.initialize_free_bit_vector bitmap size in
  Allocator.sb_size s = size /\
  (forall bno, Allocator.bit_is_free s bno =
     if (0 <=? bno) && (bno <? size)
     then Some (FreeBlocks.free_on_disk bitmap bno) else None) /\
  Allocator.free_bit_freelist s =
    filter (fun i => FreeBlocks.free_on_disk bitmap (Z.of_nat i) = true)
           (seq 0 (Z.to_nat size)).
Proof.
  intros Hsize s.
  destruct (initialize_built bitmap size Hsize) as [Hv Hfl]. fold s in Hv, Hfl.
  pose proof (initialize_inv bitmap size Hsize) as [_ _ _ Hs]. fold s in Hs.
  split; [|split; [|exact Hfl]].
  - rewrite <- Hs, Hv, length_fmap, length_seq. lia.
  - intros bno. unfold Allocator.bit_is_free. rewrite Hv.
    destruct (bno <? 0) eqn:Hneg.
    { apply Z.ltb_lt in Hneg. by rewrite (proj2 (Z.leb_gt 0 bno)). }
    apply Z.ltb_ge in Hneg. rewrite (proj2 (Z.leb_le 0 bno)) by done. simpl.
    rewrite list_lookup_fmap. destruct (bno <? size) eqn:Hlt.
    + apply Z.ltb_lt in Hlt. rewrite lookup_seq_lt by lia. simpl.
      by rewrite Z2Nat.id.
    + apply Z.ltb_ge in Hlt. rewrite lookup_seq_ge by lia. done.
Qed.

(** X6. The free-block statistic is exact between operations: in a reachable
    state of a disk with fewer than [2^32] blocks, [print_free_blocks] prints
    as "Num free blocks" the length of the freelist, and as the total the
    superblock's [size]. *)
Theorem print_free_blocks_counts_freelist (s : Allocator.alloc_state) :
  Allocator.reachable s ->
  Allocator.sb_size s < 2 ^ 32 ->
  FreeBlocks.print_free_blocks s =
    (Z.of_nat (length (Allocator.free_bit_freelist s)), Allocator.sb_size s).
Proof.
  intros Hr Hlt. pose proof (reachable_inv s Hr) as Hinv.
  unfold FreeBlocks.print_free_blocks.
  rewrite count_free_filter by (by rewrite (Allocator.inv_size s Hinv)).
  by rewrite <- freelist_length, (Allocator.inv_size s Hinv).
Qed.

(** The allocator states used below: a disk of four blocks whose bitmap byte
    [5] marks the blocks 0 and 2 as allocated, and the state after block 1
    has been handed out. *)
Lemma alloc_then_free_restores_witness :
  let s := Allocator.initialize_free_bit_vector (fun _ _ => 5) 4 in
  let s' := Allocator.mk_alloc_state
              [Allocator.mk_free_bit 0 false; Allocator.mk_free_bit 1 false;
               Allocator.mk_free_bit 2 false; Allocator.mk_free_bit 3 true]
              [3%nat] 4 in
  (Allocator.free_bit_freelist s <> [] -> Allocator.free_block 1 s' = Some s) /\
  (Allocator.free_bit_freelist s = [] -> Allocator.free_block 1 s' = None).
Proof.
  intros s s'. apply (alloc_then_free_restores s s' 1).
  - apply Allocator.reach_init. lia.
  - reflexivity.
Defined.

Lemma free_then_alloc_returns_block_witness :
  let s := Allocator.initialize_free_bit_vector (fun _ _ => 5) 4 in
  let s' := Allocator.mk_alloc_state
              [Allocator.mk_free_bit 0 false; Allocator.mk_free_bit 1 true;
               Allocator.mk_free_bit 2 true; Allocator.mk_free_bit 3 true]
              [2%nat; 1%nat; 3%nat] 4 in
  Allocator.alloc_block s' = Some (2, s).
Proof.
  intros s s'. apply (free_then_alloc_returns_block s s' 2).
  - apply Allocator.reach_init. lia.
  - reflexivity.
Defined.

Lemma free_block_fatal_cases_witness :
  let s := Allocator.initialize_free_bit_vector (fun _ _ => 5) 4 in
  (Allocator.free_block 1 s = None <->
     1 < 0 \/ Allocator.sb_size s <= 1 \/
     Allocator.bit_is_free s 1 = Some true) /\
  (forall s', Allocator.free_block 1 s = Some s' ->
     Allocator.bit_is_free s' 1 = Some true /\
     (forall b, b <> 1 -> Allocator.bit_is_free s' b = Allocator.bit_is_free s b) /\
     Allocator.free_block 1 s' = None).
Proof.
  intros s. apply (free_block_fatal_cases s 1).
  apply Allocator.reach_init. lia.
Defined.

Lemma alloc_blocks_follow_freelist_witness :
  let s := Allocator.initialize_free_bit_vector (fun _ _ => 5) 4 in
  let fl := Allocator.free_bit_freelist s in
  let handed := Z.of_nat <$> take 3 fl in
  exists s',
    FreeBlocks.alloc_blocks 3 s =
      Some (handed ++ replicate (3 - length fl) (Allocator.sb_size s), s') /\
    Allocator.free_bit_freelist s' = drop 3 fl /\
    NoDup handed /\
    Forall (fun b => 0 <= b < Allocator.sb_size s) handed.
Proof.
  intros s. apply (alloc_blocks_follow_freelist 3 s).
  apply Allocator.reach_init. lia.
Defined.

(** Three allocations on that disk return the blocks 1 and 3 and then the
    sentinel 4. *)
Example alloc_blocks_example :
  fst <$> FreeBlocks.alloc_blocks 3
            (Allocator.initialize_free_bit_vector (fun _ _ => 5) 4)
  = Some [1; 3; 4].
Proof. reflexivity. Qed.

Lemma initialize_free_bit_vector_reads_bitmap_witness :
  let s := Allocator.initialize_free_bit_vector (fun _ _ => 5) 4 in
  Allocator.sb_size s = 4 /\
  (forall bno, Allocator.bit_is_free s bno =
     if (0 <=? bno) && (bno <? 4)
     then Some (FreeBlocks.free_on_disk (fun _ _ => 5) bno) else None) /\
  Allocator.free_bit_freelist s =
    filter (fun i => FreeBlocks.free_on_disk (fun _ _ => 5) (Z.of_nat i) = true)
           (seq 0 (Z.to_nat 4)).
Proof.
  apply (initialize_free_bit_vector_reads_bitmap (fun _ _ => 5) 4). lia.
Defined.

Lemma print_free_blocks_counts_freelist_witness :
  let s := Allocator.initialize_free_bit_vector (fun _ _ => 5) 4 in
  FreeBlocks.print_free_blocks s =
    (Z.of_nat (length (Allocator.free_bit_freelist s)), Allocator.sb_size s).
Proof.
  intros s. apply (print_free_blocks_counts_freelist s).
  - apply Allocator.reach_init. lia.
  - reflexivity.
Defined.

(** ** Recovery and the commit path *)

Section ReplayFacts.
Import Recovery Replay.
Context `{JournalBlockTypes}.

Lemma loop_zero_header j1 hd d j2 cur block_vec trans :
  is_zero_header hd = true ->
  process_journal_loop (j1 ++ (hd, d) :: j2) cur block_vec trans =
  process_journal_loop j1 cur block_vec trans.
Proof.
  intros Hz. revert cur block_vec trans.
  induction j1 as [|[h db] j1 IH]; intros cur block_vec trans; simpl.
  - by rewrite Hz.
  - repeat case_match; auto.
Qed.

Lemma loop_sublist j cur block_vec trans :
  process_journal_loop j cur block_vec trans
    `sublist_of` trans ++ block_vec ++ data_blocks j.
Proof.
  revert cur block_vec trans.
  induction j as [|[hd d] j IH]; intros cur block_vec trans; simpl.
  { apply sublist_inserts_r. done. }
  assert (Htr : trans `sublist_of`
                  trans ++ block_vec ++ data_blocks ((hd, d) :: j))
    by (by apply sublist_inserts_r).
  destruct (is_zero_header hd); [done|].
  unfold data_blocks. cbn [omap fst snd]. fold (data_blocks j).
  destruct (Hdr.block_type hd =? jrnl_start) eqn:Hs.
  { etrans; [apply IH|]. apply sublist_app; [done|].
    apply sublist_inserts_l. destruct (_ =? jrnl_data); simpl;
      [by apply sublist_cons|done]. }
  destruct (Hdr.block_type hd =? jrnl_data) eqn:Hd.
  { simpl. destruct (Hdr.timestamp hd =? cur).
    - etrans; [apply IH|]. by rewrite <- !app_assoc.
    - by apply sublist_inserts_r. }
  simpl. destruct (Hdr.block_type hd =? jrnl_commit); [|by apply sublist_inserts_r].
  destruct (Hdr.timestamp hd =? cur); [|by apply sublist_inserts_r].
  etrans; [apply IH|]. by rewrite <- !app_assoc.
Qed.

Lemma committed_at_cons r j b i k :
  committed_at j b i k -> committed_at (r :: j) b (S i) (S k).
Proof.
  intros (hd & d & hc & dc & Hik & Hi & Ht & Hb & Hk & Htc & Hts).
  exists hd, d, hc, dc. repeat split; try done. lia.
Qed.

Lemma loop_committed_only j cur block_vec trans b :
  b ∈ process_journal_loop j cur block_vec trans ->
  b ∈ trans \/
  (b ∈ block_vec /\
   exists k hc dc, j !! k = Some (hc, dc) /\ Hdr.block_type hc = jrnl_commit /\
                   Hdr.timestamp hc = cur) \/
  (exists i k, committed_at j b i k).
Proof.
  revert cur block_vec trans.
  induction j as [|[hd d] j IH]; intros cur block_vec trans; simpl; [by left|].
  destruct (is_zero_header hd); [by left|].
  destruct (Hdr.block_type hd =? jrnl_start) eqn:Hs.
  { intros Hin. apply IH in Hin as [Hin|[[Hin _]|(i & k & Hc)]].
    - by left.
    - by apply elem_of_nil in Hin.
    - right. right. exists (S i), (S k). by apply committed_at_cons. }
  destruct (Hdr.block_type hd =? jrnl_data) eqn:Hd.
  { apply Z.eqb_eq in Hd.
    destruct (Hdr.timestamp hd =? cur) eqn:Ht; [|by left]. apply Z.eqb_eq in Ht.
    intros Hin. apply IH in Hin as [Hin|[[Hin (k & hc & dc & Hk & Htc & Hts)]|(i & k & Hc)]].
    - by left.
    - apply elem_of_app in Hin as [Hin|Hin].
      + right. left. split; [done|]. exists (S k), hc, dc. done.
      + apply list_elem_of_singleton in Hin. right. right.
        exists 0%nat, (S k), hd, d, hc, dc. repeat split; try done; [lia|congruence].
    - right. right. exists (S i), (S k). by apply committed_at_cons. }
  destruct (Hdr.block_type hd =? jrnl_commit) eqn:Hc; [|by left].
  apply Z.eqb_eq in Hc.
  destruct (Hdr.timestamp hd =? cur) eqn:Ht; [|by left]. apply Z.eqb_eq in Ht.
  intros Hin. apply IH in Hin as [Hin|[[Hin _]|(i & k & Hcm)]].
  - apply elem_of_app in Hin as [Hin|Hin]; [by left|].
    right. left. split; [done|]. exists 0%nat, hd, d. done.
  - by apply elem_of_nil in Hin.
  - right. right. exists (S i), (S k). by apply committed_at_cons.
Qed.
End ReplayFacts.

(** X7. A zero header ends the log: whatever lies in the journal behind a
    header whose bytes are all zero is never read; [process_journal] applies
    what it would apply if the journal ended just before that header. *)
Theorem process_journal_stops_at_zero_header `{JournalBlockTypes}
    (j1 j2 : list journal_record) (hd : journal_block_header) (d : block_data) :
  is_zero_header hd = true ->
  Recovery.process_journal (j1 ++ (hd, d) :: j2) = Recovery.process_journal j1.
Proof. intros Hz. by apply loop_zero_header. Qed.

(** X8. Recovery applies nothing that was not committed, whatever the journal
    holds: the blocks that [process_journal] applies are blocks of Data
    records of the journal, in journal order, and each of them comes from a
    Data record that is followed by a Commit record with the same
    timestamp. *)
Theorem process_journal_applies_only_committed `{JournalBlockTypes}
    (journal : list journal_record) :
  Recovery.process_journal journal `sublist_of` Replay.data_blocks journal /\
  forall b, b ∈ Recovery.process_journal journal ->
    exists i k, Replay.committed_at journal b i k.
Proof.
  split.
  - apply (loop_sublist journal 0 [] []).
  - intros b Hin.
    apply loop_committed_only in Hin as [Hin|[[Hin _]|Hc]];
      [by apply elem_of_nil in Hin|by apply elem_of_nil in Hin|done].
Qed.

Section AtomicCommit.
Import Journal Replay.
Context `{JournalBlockTypes}.
Variable writei : kstate -> Z -> Z -> Z.
Variable balloc_on_disk : list Z -> transaction -> transaction.
Variable bfree_on_disk : list Z -> transaction -> transaction.
Variable prepare_for_commit : transaction -> transaction.

Local Abbreviation prepared :=
  (prepared balloc_on_disk bfree_on_disk prepare_for_commit).
Local Abbreviation start_and_data :=
  (start_and_data balloc_on_disk bfree_on_disk prepare_for_commit).

Lemma prefix_app_cases {A} (l l1 l2 : list A) :
  l `prefix_of` l1 ++ l2 ->
  l `prefix_of` l1 \/ exists k, l = l1 ++ k /\ k `prefix_of` l2.
Proof.
  intros [m Hm]. apply app_eq_inv in Hm as [(k & -> & ->)|(k & -> & ->)].
  - left. by exists k.
  - right. exists k. split; [done|]. by exists m.
Qed.

Lemma prefix_cons_cases {A} (l : list A) x l2 :
  l `prefix_of` x :: l2 -> l = [] \/ exists k, l = x :: k /\ k `prefix_of` l2.
Proof.
  destruct l as [|y l]; [by left|]. intros Hp. right.
  pose proof (prefix_cons_inv_1 _ _ _ _ Hp) as ->.
  apply prefix_cons_inv_2 in Hp. eauto.
Qed.

Local Abbreviation step :=
  (fun (j : list journal_record) e =>
     match e with
     | Ev_write_to_disk recs => j ++ recs
     | Ev_zero_fill _ => []
     | _ => j
     end).

Lemma foldl_quiet evs j : Forall quiet evs -> foldl step j evs = j.
Proof.
  revert j. induction evs as [|e evs IH]; intros j Hq; [done|].
  apply Forall_cons in Hq as [He Hq].
  destruct e; try done; simpl; by apply IH.
Qed.

Lemma quiet_not_elem_of e evs : ~ quiet e -> Forall quiet evs -> e ∉ evs.
Proof. intros He Hq Hin. eapply He, Forall_forall; eauto. Qed.

Lemma quiet_no_zero_fill evs : Forall quiet evs -> Forall (fun e => ~ is_zero_fill e) evs.
Proof.
  intros Hq. eapply Forall_impl; [exact Hq|]. intros e He Hz. by destruct e.
Qed.

Lemma Forall_prefix {A} (P : A -> Prop) (l k : list A) :
  l `prefix_of` k -> Forall P k -> Forall P l.
Proof. intros [m ->] Hk. by apply Forall_app in Hk as [? _]. Qed.

(** The journal file at the points at which a run of calls of the shape of
    a commit can be cut. *)
Lemma crash_points A recs1 B recs2 C z evs :
  Forall quiet A -> Forall quiet B -> Forall quiet C -> recs1 <> recs2 ->
  evs `prefix_of` A ++ [Ev_write_to_disk recs1] ++ B ++
                  [Ev_write_to_disk recs2] ++ C ++ [Ev_zero_fill z] ->
  (journal_on_disk evs = [] /\
   (Ev_write_to_disk recs2 ∉ evs \/ Exists is_zero_fill evs)) \/
  (journal_on_disk evs = recs1 /\ Ev_write_to_disk recs2 ∉ evs) \/
  (journal_on_disk evs = recs1 ++ recs2 /\
   Ev_write_to_disk recs2 ∈ evs /\ Forall (fun e => ~ is_zero_fill e) evs).
Proof.
  intros HA HB HC Hne Hp. unfold journal_on_disk.
  assert (HW2 : ~ quiet (Ev_write_to_disk recs2)) by (by intros []).
  apply prefix_app_cases in Hp as [Hp|(k1 & -> & Hp)].
  { left. pose proof (Forall_prefix _ _ _ Hp HA) as Hq.
    split; [by apply foldl_quiet|]. left. by apply quiet_not_elem_of. }
  apply prefix_cons_cases in Hp as [->|(k2 & -> & Hp)].
  { left. rewrite app_nil_r. split; [by apply foldl_quiet|].
    left. by apply quiet_not_elem_of. }
  apply prefix_app_cases in Hp as [Hp|(k3 & -> & Hp)].
  { right. left. pose proof (Forall_prefix _ _ _ Hp HB) as Hq.
    rewrite foldl_app, (foldl_quiet A) by done. simpl.
    split; [by apply foldl_quiet|].
    intros Hin. apply elem_of_app in Hin as [Hin|Hin];
      [exact (quiet_not_elem_of _ _ HW2 HA Hin)|].
    apply elem_of_cons in Hin as [Hin|Hin]; [congruence|].
    exact (quiet_not_elem_of _ _ HW2 Hq Hin). }
  apply prefix_cons_cases in Hp as [->|(k4 & -> & Hp)].
  { right. left. rewrite app_nil_r.
    rewrite foldl_app, (foldl_quiet A) by done. simpl.
    split; [by apply foldl_quiet|].
    intros Hin. apply elem_of_app in Hin as [Hin|Hin];
      [exact (quiet_not_elem_of _ _ HW2 HA Hin)|].
    apply elem_of_cons in Hin as [Hin|Hin]; [congruence|].
    exact (quiet_not_elem_of _ _ HW2 HB Hin). }
  assert (Hin2 : forall k, Ev_write_to_disk recs2 ∈
            A ++ Ev_write_to_disk recs1 :: B ++ Ev_write_to_disk recs2 :: k).
  { intros k. apply elem_of_app. right. right. apply elem_of_app. right. by left. }
  apply prefix_app_cases in Hp as [Hp|(k5 & -> & Hp)].
  { right. right. pose proof (Forall_prefix _ _ _ Hp HC) as Hq.
    rewrite foldl_app, (foldl_quiet A) by done. simpl.
    rewrite foldl_app, (foldl_quiet B) by done. simpl.
    split; [by apply foldl_quiet|]. split; [apply Hin2|].
    apply Forall_app. split; [by apply quiet_no_zero_fill|].
    apply Forall_cons. split; [by intros []|].
    apply Forall_app. split; [by apply quiet_no_zero_fill|].
    apply Forall_cons. split; [by intros []|]. by apply quiet_no_zero_fill. }
  apply prefix_cons_cases in Hp as [->|(k6 & -> & Hp)].
  { right. right. rewrite app_nil_r.
    rewrite foldl_app, (foldl_quiet A) by done. simpl.
    rewrite foldl_app, (foldl_quiet B) by done. simpl.
    split; [by apply foldl_quiet|]. split; [apply Hin2|].
    apply Forall_app. split; [by apply quiet_no_zero_fill|].
    apply Forall_cons. split; [by intros []|].
    apply Forall_app. split; [by apply quiet_no_zero_fill|].
    apply Forall_cons. split; [by intros []|]. by apply quiet_no_zero_fill. }
  apply prefix_nil_inv in Hp as ->. left.
  rewrite foldl_app, (foldl_quiet A) by done. simpl.
  rewrite foldl_app, (foldl_quiet B) by done. simpl.
  rewrite foldl_app, (foldl_quiet C) by done. simpl.
  split; [done|]. right.
  apply Exists_app. right. right. apply Exists_app. right. right.
  apply Exists_app. right. by left.
Qed.

Lemma replay_rest rest cur block_vec trans :
  (forall r, head rest = Some r -> is_zero_header r.1 = true) ->
  Recovery.process_journal_loop rest cur block_vec trans = trans.
Proof.
  intros Hr. destruct rest as [|[hd d] rest]; [done|].
  pose proof (Hr (hd, d) eq_refl) as Hz. simpl in Hz. simpl. by rewrite Hz.
Qed.

Lemma replay_start_and_data tr rest :
  (forall r, head rest = Some r -> is_zero_header r.1 = true) ->
  Recovery.process_journal (start_and_data tr ++ rest) = [].
Proof.
  intros Hr. unfold Recovery.process_journal. apply loop_uncommitted.
  unfold Journal.start_and_data. simpl.
  apply Recovery.unc_start; [done|]. simpl.
  induction (blocks (prepared tr)) as [|b bs IH]; simpl.
  - destruct rest as [|[hd d] rest]; [apply Recovery.unc_end|].
    apply Recovery.unc_zero. apply (Hr (hd, d) eq_refl).
  - by apply Recovery.unc_data.
Qed.

Lemma replay_committed tr rest :
  timestamp_ tr <> 0 ->
  (forall r, head rest = Some r -> is_zero_header r.1 = true) ->
  Recovery.process_journal (start_and_data tr ++ commit_only tr ++ rest) =
  blocks (prepared tr).
Proof.
  intros Hts Hr. unfold Recovery.process_journal.
  replace (start_and_data tr ++ commit_only tr ++ rest)
    with (flat_map Recovery.committed_records
            [(timestamp_ tr, blocks (prepared tr))] ++ rest).
  2: { unfold Recovery.committed_records, Journal.start_and_data, commit_only.
       cbn [flat_map fst snd]. rewrite app_nil_r.
       rewrite <- !app_comm_cons, <- app_assoc. reflexivity. }
  rewrite loop_committed_prefix; [by cbn [flat_map snd app]; rewrite app_nil_r| |].
  - constructor; [|constructor]. unfold Recovery.nonzero_headers.
    apply Forall_forall. intros [hd d] Hin. unfold is_zero_header. cbn [fst].
    assert (Hdr.timestamp hd = timestamp_ tr) as ->.
    { unfold Recovery.committed_records in Hin. simpl in Hin.
      apply elem_of_cons in Hin as [Hin|Hin]; [by injection Hin as -> _|].
      apply elem_of_app in Hin as [Hin|Hin].
      - apply list_elem_of_fmap in Hin as (b & Hb & _). by injection Hb as -> _.
      - apply list_elem_of_singleton in Hin. by injection Hin as -> _. }
    simpl. by rewrite (proj2 (Z.eqb_neq _ _) Hts).
  - destruct rest as [|[hd d] rest]; [apply Recovery.unc_end|].
    apply Recovery.unc_zero. apply (Hr (hd, d) eq_refl).
Qed.

Lemma quiet_record_events offset recs : Forall quiet (record_events offset recs).
Proof.
  apply Forall_record_events, Forall_forall. intros r _ o. exact I.
Qed.

Lemma crash_points_of_commit pre offset tr evs :
  Forall quiet pre ->
  evs `prefix_of`
    pre ++ commit_events balloc_on_disk bfree_on_disk prepare_for_commit offset tr ->
  (journal_on_disk evs = [] /\
   (Ev_write_to_disk (commit_only tr) ∉ evs \/ Exists is_zero_fill evs)) \/
  (journal_on_disk evs = start_and_data tr /\
   Ev_write_to_disk (commit_only tr) ∉ evs) \/
  (journal_on_disk evs = start_and_data tr ++ commit_only tr /\
   Ev_write_to_disk (commit_only tr) ∈ evs /\
   Forall (fun e => ~ is_zero_fill e) evs).
Proof.
  intros Hpre Hp. unfold commit_events in Hp. cbv zeta in Hp.
  set (z := record_offset offset (S (length (start_and_data tr)))) in Hp.
  set (off2 := record_offset offset (length (start_and_data tr))) in Hp.
  apply (crash_points
           (pre ++ [Ev_balloc_on_disk (allocated_block_list tr);
                    Ev_bfree_on_disk
                      (free_block_list (balloc_on_disk (allocated_block_list tr) tr));
                    Ev_prepare_for_commit (timestamp_ tr)] ++
                   record_events offset (start_and_data tr))
           (start_and_data tr)
           (record_events off2 (commit_only tr))
           (commit_only tr)
           (map Ev_free_block (free_block_list (prepared tr)) ++
            map (fun b => Ev_writeback_async (blocknum b)) (blocks (prepared tr)) ++
            map (fun b => Ev_async_iowait (blocknum b)) (blocks (prepared tr)) ++
            [Ev_ideflush]) z).
  - apply Forall_app. split; [done|]. apply Forall_app. split.
    + repeat constructor.
    + apply quiet_record_events.
  - apply quiet_record_events.
  - apply Forall_app. split; [by apply Forall_map_event|].
    apply Forall_app. split; [by apply Forall_map_event|].
    apply Forall_app. split; [by apply Forall_map_event|]. repeat constructor.
  - unfold Journal.start_and_data, commit_only. intros Heq.
    injection Heq as Heq _. by apply jrnl_start_commit.
  - rewrite <- !app_assoc in *. exact Hp.
Qed.
End AtomicCommit.

(** X9. A commit is atomic for recovery. Cut the calls of a commit (through
    [add_fsync_to_journal] or as a turn of [flush_journal_locked]) at any
    point, whether it panics or not, and run [process_journal] on what the
    journal file then holds, followed by the zeroes of the cleared journal:
    recovery applies either nothing or exactly the blocks of the transaction.
    It applies them all once the [write_to_disk] of the Commit record has
    been made, until [clear_journal] has zero-filled the journal, and nothing
    before and after. The transaction's timestamp is not zero. *)
Theorem commit_is_atomic_under_recovery `{JournalBlockTypes}
    (writei : Journal.kstate -> Z -> Z -> Z)
    (balloc_on_disk bfree_on_disk : list Z -> transaction -> transaction)
    (prepare_for_commit : transaction -> transaction)
    (tr : transaction) (st : Journal.kstate)
    (evs : list Journal.event) (rest : list journal_record) :
  timestamp_ tr <> 0 ->
  (forall r, head rest = Some r -> is_zero_header r.1 = true) ->
  evs `prefix_of`
    Journal.events_of (Journal.add_fsync_to_journal writei balloc_on_disk
                         bfree_on_disk prepare_for_commit tr) st \/
  evs `prefix_of`
    Journal.events_of (Journal.commit_transaction writei balloc_on_disk
                         bfree_on_disk prepare_for_commit tr) st ->
  let recovered := Recovery.process_journal (Replay.journal_on_disk evs ++ rest) in
  let committed := Journal.Ev_write_to_disk (Journal.commit_only tr) in
  let all_blocks :=
    blocks (Journal.prepared balloc_on_disk bfree_on_disk prepare_for_commit tr) in
  (recovered = [] \/ recovered = all_blocks) /\
  (committed ∈ evs -> Forall (fun e => ~ Replay.is_zero_fill e) evs ->
   recovered = all_blocks) /\
  (committed ∉ evs \/ Exists Replay.is_zero_fill evs -> recovered = []).
Proof.
  intros Hts Hrest Hp recovered committed all_blocks.
  assert (Hcases :
    (Replay.journal_on_disk evs = [] /\
     (committed ∉ evs \/ Exists Replay.is_zero_fill evs)) \/
    (Replay.journal_on_disk evs =
       Journal.start_and_data balloc_on_disk bfree_on_disk prepare_for_commit tr /\
     committed ∉ evs) \/
    (Replay.journal_on_disk evs =
       Journal.start_and_data balloc_on_disk bfree_on_disk prepare_for_commit tr ++
       Journal.commit_only tr /\
     committed ∈ evs /\ Forall (fun e => ~ Replay.is_zero_fill e) evs)).
  { destruct Hp as [Hp|Hp].
    - pose proof (follows_add_fsync_to_journal writei balloc_on_disk bfree_on_disk
                    prepare_for_commit tr st) as Hf.
      apply follows_events in Hf as [Hf _].
      apply (crash_points_of_commit balloc_on_disk bfree_on_disk prepare_for_commit
               [Journal.Ev_journal_lock] (Journal.journal_offset st)).
      + repeat constructor.
      + by etrans.
    - pose proof (follows_commit_transaction writei balloc_on_disk bfree_on_disk
                    prepare_for_commit tr st) as Hf.
      apply follows_events in Hf as [Hf _].
      apply (crash_points_of_commit balloc_on_disk bfree_on_disk prepare_for_commit
               [] (Journal.journal_offset st)); [constructor|by etrans]. }
  assert (Hnone : Recovery.process_journal rest = []) by (by apply replay_rest).
  subst recovered.
  destruct Hcases as [[-> Hc]|[[-> Hc]|(-> & Hc & Hz)]].
  - simpl. rewrite Hnone. split; [by left|]. split; [|done].
    intros Hin Hall. destruct Hc as [Hc|Hc]; [done|].
    apply Exists_exists in Hc as (e & He & Hze).
    by eapply Forall_forall in Hall.
  - rewrite replay_start_and_data by done. split; [by left|]. split; done.
  - rewrite <- app_assoc, replay_committed by done.
    split; [by right|]. split; [done|]. intros [Hn|Hex]; [done|].
    apply Exists_exists in Hex as (e & He & Hze).
    by eapply Forall_forall in Hz.
Qed.

(** Witness for [commit_is_atomic_under_recovery]: the example commit, cut
    right after the [write_to_disk] of its Commit record. *)
Lemma commit_is_atomic_under_recovery_witness :
  let evs := take 9 Journal.example_commit in
  let rest := [(Hdr.mk_header 0 0 0, zero_block)] in
  let recovered := Recovery.process_journal (Replay.journal_on_disk evs ++ rest) in
  let committed := Journal.Ev_write_to_disk (Journal.commit_only Journal.example_transaction) in
  let all_blocks := blocks Journal.example_transaction in
  (recovered = [] \/ recovered = all_blocks) /\
  (committed ∈ evs -> Forall (fun e => ~ Replay.is_zero_fill e) evs ->
   recovered = all_blocks) /\
  (committed ∉ evs \/ Exists Replay.is_zero_fill evs -> recovered = []).
Proof.
  intros evs rest.
  apply (commit_is_atomic_under_recovery (H := sv6_block_types)
           Journal.writei_all Journal.keep_transaction Journal.keep_transaction id
           Journal.example_transaction Journal.example_kstate evs rest).
  - discriminate.
  - intros r [= <-]. reflexivity.
  - left. apply prefix_take.
Defined.

(** ** The logical log between fsync and sync *)

Section LogFacts.
Import LogicalLog.
Variable check_parent_dependency : mfs_operation -> list Z -> Z -> bool * list Z.
Variable check_dependency : mfs_operation -> list Z -> bool * list Z.

Lemma marked_partition (marks : list (mfs_operation * bool)) :
  marked true marks ++ marked false marks ≡ₚ marks.*1.
Proof.
  unfold marked. induction marks as [|[o b] marks IH]; [done|].
  rewrite !filter_cons. destruct b.
  - rewrite decide_True, decide_False by done. simpl. by f_equiv.
  - rewrite decide_False, decide_True by done. simpl.
    rewrite <- Permutation_middle. by f_equiv.
Qed.

Lemma marked_none (marks : list (mfs_operation * bool)) :
  marked true marks = [] -> marked false marks = marks.*1.
Proof.
  unfold marked. induction marks as [|[o b] marks IH]; [done|].
  rewrite !filter_cons. destruct b.
  - by rewrite decide_True.
  - rewrite decide_False, decide_True by done. intros Hm.
    by rewrite !fmap_cons, IH.
Qed.

Lemma find_dependent_ops_partition inum isdir ops :
  let r := find_dependent_ops check_parent_dependency check_dependency
             inum isdir ops in
  reverse r.1 ++ r.2 ≡ₚ ops /\ r.2 `sublist_of` ops /\
  (r.1 = [] -> r.2 = ops).
Proof.
  cbv zeta. rewrite find_dependent_ops_scan. cbn [fst snd].
  set (marks := (scan _ _ inum isdir (reverse ops) [inum]).1).
  assert (Hfst : marks.*1 = reverse ops) by apply scan_fst.
  split; [|split].
  - rewrite reverse_Permutation, (reverse_Permutation (marked false marks)).
    rewrite marked_partition, Hfst. apply reverse_Permutation.
  - rewrite <- (reverse_involutive ops), <- Hfst.
    apply sublist_reverse, marked_sublist.
  - intros Hnil. rewrite marked_none by done. by rewrite Hfst, reverse_involutive.
Qed.
End LogFacts.

(** X10. The dependency walk splits the log and loses nothing: whatever the
    two dependency checks answer, the operations that [find_dependent_ops]
    moves to [dependent_ops] and those it leaves in [operation_vec] are
    together the operations of the log, each of them once; what is left keeps
    the order of the log, and so do the dependent operations once they are
    reversed. *)
Theorem find_dependent_ops_partitions_log
    (check_parent_dependency : LogicalLog.mfs_operation -> list Z -> Z -> bool * list Z)
    (check_dependency : LogicalLog.mfs_operation -> list Z -> bool * list Z)
    (inum : Z) (isdir : bool) (ops : list LogicalLog.mfs_operation) :
  let r := LogicalLog.find_dependent_ops check_parent_dependency check_dependency
             inum isdir ops in
  reverse r.1 ++ r.2 ≡ₚ ops /\
  r.2 `sublist_of` ops /\
  reverse r.1 `sublist_of` ops.
Proof.
  intros r.
  destruct (find_dependent_ops_partition check_parent_dependency check_dependency
              inum isdir ops) as (Hp & Hs & _).
  split; [exact Hp|]. split; [exact Hs|].
  pose proof (find_dependent_ops_sublist check_parent_dependency check_dependency
                inum isdir ops) as Hsub.
  apply sublist_reverse in Hsub. by rewrite reverse_involutive in Hsub.
Qed.

(** X11. An fsync that finds no dependent operation returns at once
    ([dependent_ops.size() == 0]): the logical log, the journal's transaction
    log and the rest of the state are as before. This covers the empty
    log. *)
Theorem fsync_without_dependents_changes_nothing
    (check_parent_dependency : LogicalLog.mfs_operation -> list Z -> Z -> bool * list Z)
    (check_dependency : LogicalLog.mfs_operation -> list Z -> bool * list Z)
    (world : Type)
    (apply : LogicalLog.mfs_operation -> transaction -> world -> transaction * world)
    (inum : Z) (isdir : bool) (st : LogicalLog.log_state world) :
  (LogicalLog.find_dependent_ops check_parent_dependency check_dependency
     inum isdir (LogicalLog.log_operation_vec st)).1 = [] ->
  LogicalLog.process_metadata_log check_parent_dependency check_dependency
    world apply inum isdir st = st.
Proof.
  intros Hnil. rewrite process_metadata_log_foldl, Hnil.
  destruct (find_dependent_ops_partition check_parent_dependency check_dependency
              inum isdir (LogicalLog.log_operation_vec st)) as (_ & _ & Hrest).
  rewrite Hrest by done. by destruct st.
Qed.

(** X12. Between them, an fsync and the next sync apply every logged
    operation exactly once. After [process_metadata_log(max_tsc, inum, isdir)]
    followed by [process_metadata_log()], whatever the dependency checks and
    [apply] do: the journal's transaction log holds, behind what it held, the
    transactions that applying first the dependent operations, oldest logged
    first, and then the remaining ones in log order produces, each operation
    in the state its predecessors left, and the rest of the state is what
    these applications leave; the operations so applied are together the
    operations of the log, each of them once; the logical log is empty, and
    the journal has received one transaction per operation. *)
Theorem fsync_then_sync_applies_each_operation_once
    (check_parent_dependency : LogicalLog.mfs_operation -> list Z -> Z -> bool * list Z)
    (check_dependency : LogicalLog.mfs_operation -> list Z -> bool * list Z)
    (world : Type)
    (apply : LogicalLog.mfs_operation -> transaction -> world -> transaction * world)
    (inum : Z) (isdir : bool) (st : LogicalLog.log_state world) :
  let ops := LogicalLog.log_operation_vec st in
  let r := LogicalLog.find_dependent_ops check_parent_dependency check_dependency
             inum isdir ops in
  let st1 := LogicalLog.process_metadata_log check_parent_dependency
               check_dependency world apply inum isdir st in
  let st2 := Sync.process_metadata_log world apply st1 in
  let run := Sync.apply_in_order world apply (reverse r.1 ++ r.2)
               (LogicalLog.the_world st) in
  LogicalLog.applied st2 = LogicalLog.applied st ++ reverse r.1 ++ r.2 /\
  reverse r.1 ++ r.2 ≡ₚ ops /\
  LogicalLog.log_operation_vec st2 = [] /\
  length (LogicalLog.transaction_log st2) =
    (length (LogicalLog.transaction_log st) + length ops)%nat /\
  LogicalLog.transaction_log st2 = LogicalLog.transaction_log st ++ run.1 /\
  LogicalLog.the_world st2 = run.2.
Proof.
  intros ops r st1 st2 run.
  destruct (find_dependent_ops_partition check_parent_dependency check_dependency
              inum isdir ops) as (Hp & _ & _). fold r in Hp.
  assert (H1 : LogicalLog.applied st1 = LogicalLog.applied st ++ reverse r.1 /\
               LogicalLog.log_operation_vec st1 = r.2 /\
               length (LogicalLog.transaction_log st1) =
                 (length (LogicalLog.transaction_log st) + length r.1)%nat /\
               LogicalLog.transaction_log st1 =
                 LogicalLog.transaction_log st ++
                 (Sync.apply_in_order world apply (reverse r.1)
                    (LogicalLog.the_world st)).1 /\
               LogicalLog.the_world st1 =
                 (Sync.apply_in_order world apply (reverse r.1)
                    (LogicalLog.the_world st)).2).
  { subst st1. rewrite process_metadata_log_foldl. fold ops r.
    match goal with |- context [foldl _ ?s0 _] => set (s1 := s0) end.
    pose proof (foldl_apply_op world apply s1 (reverse r.1)) as (A1 & A2 & A3).
    pose proof (foldl_apply_in_order world apply s1 (reverse r.1)) as (A4 & A5).
    cbv zeta in A1, A2, A3, A4, A5.
    by rewrite A1, A2, A3, A4, A5, length_reverse. }
  destruct H1 as (A1 & A2 & A3 & A4 & A5).
  subst st2. unfold Sync.process_metadata_log. rewrite A2.
  match goal with |- context [foldl _ ?s0 _] => set (s2 := s0) end.
  pose proof (foldl_apply_op world apply s2 r.2) as (B1 & B2 & B3).
  pose proof (foldl_apply_in_order world apply s2 r.2) as (B4 & B5).
  cbv zeta in B1, B2, B3, B4, B5. rewrite B1, B2, B3, B4, B5. subst s2.
  cbn [LogicalLog.applied LogicalLog.transaction_log LogicalLog.log_operation_vec
       LogicalLog.the_world].
  subst run. rewrite apply_in_order_app.
  cbn [fst snd].
  rewrite A1, A3, A4, A5, <- !app_assoc.
  split; [done|]. split; [done|]. split; [done|]. split; [|done].
  apply Permutation_length in Hp. rewrite length_app, length_reverse in Hp. lia.
Qed.

Lemma fsync_without_dependents_changes_nothing_witness :
  let st := LogicalLog.mk_log_state
              [LogicalLog.mfs_operation_create 40 5 3 2 "g"] [] tt [] in
  LogicalLog.process_metadata_log LogicalLog.check_parent_dependency
    LogicalLog.check_dependency unit (fun _ tr w => (tr, w)) 9 false st = st.
Proof.
  intros st.
  apply (fsync_without_dependents_changes_nothing
           LogicalLog.check_parent_dependency LogicalLog.check_dependency
           unit (fun _ tr w => (tr, w)) 9 false st).
  reflexivity.
Defined.

(** ** When a commit returns *)

Section CommitRuns.
Import Journal.
Context `{JournalBlockTypes}.
Variable writei : kstate -> Z -> Z -> Z.
Variable balloc_on_disk : list Z -> transaction -> transaction.
Variable bfree_on_disk : list Z -> transaction -> transaction.
Variable prepare_for_commit : transaction -> transaction.
Hypothesis writei_all_bytes : forall st offset n, writei st offset n = n.

Local Abbreviation returns m st Q :=
  (exists a st', m st = (Ok a, st') /\ Q a st').
Local Abbreviation panics m st := ((m st).1 = Panic).
(** The calls in between leave the allocator and the transaction log
    alone. *)
Local Abbreviation kept st :=
  (fun st' => alloc st' = alloc st /\
              Journal.transaction_log st' = Journal.transaction_log st).

Lemma returns_bind {A B} (m : M A) (k : A -> M B) st
    (Q1 : A -> kstate -> Prop) (Q2 : B -> kstate -> Prop) :
  returns m st Q1 ->
  (forall a st1, Q1 a st1 -> returns (k a) st1 Q2) ->
  returns (bind m k) st Q2.
Proof.
  intros (a & st1 & Hm & HQ) Hk. unfold bind. rewrite Hm. by apply Hk.
Qed.

Lemma panics_bind {A B} (m : M A) (k : A -> M B) st (Q1 : A -> kstate -> Prop) :
  returns m st Q1 ->
  (forall a st1, Q1 a st1 -> panics (k a) st1) ->
  panics (bind m k) st.
Proof.
  intros (a & st1 & Hm & HQ) Hk. unfold bind. rewrite Hm. by apply Hk.
Qed.

Lemma returns_weaken {A} (m : M A) st (Q Q' : A -> kstate -> Prop) :
  returns m st Q -> (forall a s, Q a s -> Q' a s) -> returns m st Q'.
Proof. intros (a & st1 & Hm & HQ) HQQ. eauto. Qed.

Lemma returns_emit e st : returns (emit e) st (fun _ => kept st).
Proof. eexists _, _; split; [reflexivity|]; by split. Qed.

Lemma returns_write_journal_hdrblock hd d trans st :
  returns (write_journal_hdrblock writei hd d trans) st (fun _ => kept st).
Proof.
  unfold write_journal_hdrblock, bind, current_offset, emit, journal_writei,
    update_offset, ret; simpl.
  repeat (rewrite writei_all_bytes, Z.eqb_refl; simpl). eexists _, _; split; [reflexivity|]; by split.
Qed.

Lemma returns_write_journal_header ty ts trans st :
  returns (write_journal_header writei ty ts trans) st (fun _ => kept st).
Proof.
  unfold write_journal_header.
  destruct (ty =? jrnl_start); [apply returns_write_journal_hdrblock|].
  destruct (ty =? jrnl_commit); [apply returns_write_journal_hdrblock|].
  eexists _, _; split; [reflexivity|]; by split.
Qed.

Lemma returns_write_journal_transaction_blocks vec ts trans st :
  returns (write_journal_transaction_blocks writei vec ts trans) st
    (fun _ => kept st).
Proof.
  revert trans st. induction vec as [|b vec IH]; intros trans st; simpl.
  - eexists _, _; split; [reflexivity|]; by split.
  - eapply returns_bind; [apply returns_write_journal_hdrblock|].
    intros r st1 [Ha Hl]. eapply returns_weaken; [apply IH|].
    intros _ s [? ?]. split; congruence.
Qed.

Lemma returns_for_each_emit {A} (f : A -> event) l st :
  returns (for_each (fun x => emit (f x)) l) st (fun _ => kept st).
Proof.
  revert st. induction l as [|x l IH]; intros st; simpl.
  - eexists _, _; split; [reflexivity|]; by split.
  - eapply returns_bind; [apply returns_emit|].
    intros [] st1 [Ha Hl]. eapply returns_weaken; [apply IH|].
    intros _ s [? ?]. split; congruence.
Qed.

Lemma returns_for_each_free_block l st a' :
  FreeBlocks.free_blocks l (alloc st) = Some a' ->
  returns (for_each free_block l) st
    (fun _ st' => alloc st' = a' /\
                  Journal.transaction_log st' = Journal.transaction_log st).
Proof.
  revert st. induction l as [|bno l IH]; intros st; simpl.
  - intros [= <-]. eexists _, _; split; [reflexivity|]; by split.
  - destruct (Allocator.free_block bno (alloc st)) as [a1|] eqn:Hf; [|done].
    intros Hl. unfold free_block at 1.
    eapply (returns_bind _ _ _
              (fun _ st1 => alloc st1 = a1 /\
                 Journal.transaction_log st1 = Journal.transaction_log st)).
    { unfold bind, emit; simpl. rewrite Hf. eexists _, _; split; [reflexivity|]; by split. }
    intros [] st1 [Ha Ht]. rewrite <- Ha in Hl.
    eapply returns_weaken; [apply (IH st1 Hl)|].
    intros _ s [? ?]. split; congruence.
Qed.

Lemma panics_for_each_free_block l st :
  FreeBlocks.free_blocks l (alloc st) = None ->
  panics (for_each free_block l) st.
Proof.
  revert st. induction l as [|bno l IH]; intros st; simpl; [done|].
  destruct (Allocator.free_block bno (alloc st)) as [a1|] eqn:Hf.
  - intros Hl. unfold free_block at 1.
    eapply (panics_bind _ _ _ (fun _ st1 => alloc st1 = a1)).
    { unfold bind, emit; simpl. rewrite Hf. eexists _, _; split; [reflexivity|]; by split. }
    intros [] st1 Ha. rewrite <- Ha in Hl. by apply IH.
  - intros _. unfold bind, free_block, bind, emit; simpl. by rewrite Hf.
Qed.

Lemma returns_pre_process_transaction tr st :
  returns (pre_process_transaction balloc_on_disk bfree_on_disk tr) st
    (fun r st' =>
       r = bfree_on_disk
             (free_block_list (balloc_on_disk (allocated_block_list tr) tr))
             (balloc_on_disk (allocated_block_list tr) tr) /\ kept st st').
Proof.
  unfold pre_process_transaction, bind, emit, ret; simpl.
  eexists _, _; split; [reflexivity|]; by split.
Qed.

Lemma returns_clear_journal st : returns clear_journal st (fun _ => kept st).
Proof.
  unfold clear_journal, bind, current_offset, emit, update_offset; simpl.
  eexists _, _; split; [reflexivity|]; by split.
Qed.

Local Abbreviation prepared :=
  (prepared balloc_on_disk bfree_on_disk prepare_for_commit).

(** The calls of a commit up to [post_process_transaction] return and leave
    the allocator and the transaction log alone. *)
Lemma returns_journal_writes tr st :
  let ts := timestamp_ tr in
  returns
    (do tr1 <- pre_process_transaction balloc_on_disk bfree_on_disk tr;
     emit (Ev_prepare_for_commit ts);;
     let tr2 := prepare_for_commit tr1 in
     do trans <- write_journal_header writei jrnl_start ts [];
     do trans <- write_journal_transaction_blocks writei (blocks tr2) ts trans;
     write_to_disk trans;;
     do trans <- write_journal_header writei jrnl_commit ts [];
     write_to_disk trans;;
     ret tr2)%J st
    (fun r st' => r = prepared tr /\ kept st st').
Proof.
  intros ts.
  eapply returns_bind; [apply returns_pre_process_transaction|].
  intros tr1 st1 (-> & Ha1 & Hl1).
  eapply returns_bind; [apply returns_emit|]. intros [] st2 [Ha2 Hl2].
  eapply returns_bind; [apply returns_write_journal_header|].
  intros trans1 st3 [Ha3 Hl3].
  eapply returns_bind; [apply returns_write_journal_transaction_blocks|].
  intros trans2 st4 [Ha4 Hl4].
  eapply returns_bind; [apply returns_emit|]. intros [] st5 [Ha5 Hl5].
  eapply returns_bind; [apply returns_write_journal_header|].
  intros trans3 st6 [Ha6 Hl6].
  eapply returns_bind; [apply returns_emit|]. intros [] st7 [Ha7 Hl7].
  eexists _, _. split; [reflexivity|]. split; [done|]. split; congruence.
Qed.

Lemma commit_transaction_split tr st :
  commit_transaction writei balloc_on_disk bfree_on_disk prepare_for_commit tr st =
  (do tr2 <-
     (do tr1 <- pre_process_transaction balloc_on_disk bfree_on_disk tr;
      emit (Ev_prepare_for_commit (timestamp_ tr));;
      let tr2 := prepare_for_commit tr1 in
      do trans <- write_journal_header writei jrnl_start (timestamp_ tr) [];
      do trans <- write_journal_transaction_blocks writei (blocks tr2)
                    (timestamp_ tr) trans;
      write_to_disk trans;;
      do trans <- write_journal_header writei jrnl_commit (timestamp_ tr) [];
      write_to_disk trans;;
      ret tr2);
   post_process_transaction tr2;;
   clear_journal)%J st.
Proof.
  unfold commit_transaction, bind, ret.
  repeat (match goal with |- context [match ?m with _ => _ end] =>
            destruct m as [[?|] ?] eqn:? end; try reflexivity).
Qed.

Lemma panics_bind_l {A B} (m : M A) (k : A -> M B) st :
  panics m st -> panics (bind m k) st.
Proof. unfold bind. by destruct (m st) as [[a|] st1]. Qed.

Lemma commit_transaction_outcome tr st :
  match FreeBlocks.free_blocks (free_block_list (prepared tr)) (alloc st) with
  | Some a' =>
      returns (commit_transaction writei balloc_on_disk bfree_on_disk
                 prepare_for_commit tr) st
        (fun _ st' => alloc st' = a' /\
                      Journal.transaction_log st' = Journal.transaction_log st)
  | None =>
      panics (commit_transaction writei balloc_on_disk bfree_on_disk
                prepare_for_commit tr) st
  end.
Proof.
  destruct (FreeBlocks.free_blocks _ _) as [a'|] eqn:Hfb.
  - setoid_rewrite commit_transaction_split.
    eapply returns_bind; [apply returns_journal_writes|].
    intros tr2 st1 (-> & Ha1 & Hl1). rewrite <- Ha1 in Hfb.
    eapply (returns_bind _ _ _
              (fun _ s => alloc s = a' /\
                 Journal.transaction_log s = Journal.transaction_log st)).
    { unfold post_process_transaction.
      eapply returns_bind; [apply (returns_for_each_free_block _ _ _ Hfb)|].
      intros [] st2 [Ha2 Hl2].
      eapply returns_bind; [apply returns_for_each_emit|]. intros [] st3 [Ha3 Hl3].
      eapply returns_bind; [apply returns_for_each_emit|]. intros [] st4 [Ha4 Hl4].
      eapply returns_weaken; [apply returns_emit|].
      intros [] s [Ha5 Hl5]. split; congruence. }
    intros [] st5 [Ha5 Hl5]. eapply returns_weaken; [apply returns_clear_journal|].
    intros _ s [? ?]. split; congruence.
  - rewrite commit_transaction_split.
    eapply panics_bind; [apply returns_journal_writes|].
    intros tr2 st1 (-> & Ha1 & Hl1). rewrite <- Ha1 in Hfb.
    apply panics_bind_l. unfold post_process_transaction.
    apply panics_bind_l. by apply panics_for_each_free_block.
Qed.
End CommitRuns.

Section FreeListFacts.
Import Allocator FreeBlocks.

Lemma free_block_bits bno s s' :
  free_block bno s = Some s' ->
  bit_is_free s bno = Some false /\ bit_is_free s' bno = Some true /\
  (forall b, b <> bno -> bit_is_free s' b = bit_is_free s b).
Proof.
  intros Hfb. apply free_block_Some in Hfb as (Hpos & bit & Hit & Hfree & ->).
  pose proof (lookup_lt_Some _ _ _ Hit) as Hlt.
  assert (Hnn : (bno <? 0) = false) by (by apply Z.ltb_ge).
  unfold bit_is_free; simpl. rewrite Hnn, Hit. simpl. rewrite Hfree.
  rewrite list_lookup_insert_eq by done. split; [done|]. split; [done|].
  intros b Hne. destruct (b <? 0) eqn:Hb0; [done|].
  apply Z.ltb_ge in Hb0. rewrite list_lookup_insert_ne; [done|lia].
Qed.

Lemma free_block_None bno s :
  free_block bno s = None -> bit_is_free s bno <> Some false.
Proof.
  unfold free_block, bit_is_free. destruct (bno <? 0); [done|].
  destruct (free_bit_vector s !! Z.to_nat bno) as [bit|]; [|done].
  simpl. by destruct (is_free bit).
Qed.

Lemma free_blocks_Some l s s' :
  free_blocks l s = Some s' ->
  NoDup l /\ Forall (fun b => bit_is_free s b = Some false) l /\
  (forall b, b ∈ l -> bit_is_free s' b = Some true) /\
  (forall b, b ∉ l -> bit_is_free s' b = bit_is_free s b).
Proof.
  revert s. induction l as [|bno l IH]; intros s; simpl.
  { intros [= <-]. split; [constructor|]. split; [constructor|].
    split; [|done]. intros b Hb. by apply elem_of_nil in Hb. }
  destruct (free_block bno s) as [s1|] eqn:Hfb; [|done]. intros Hl.
  apply free_block_bits in Hfb as (Hb0 & Hb1 & Hframe).
  apply IH in Hl as (Hnd & Hall & Hin & Hout).
  assert (Hnotin : bno ∉ l).
  { intros Hbl. eapply Forall_forall in Hall; [|exact Hbl]. congruence. }
  split; [by constructor|]. split; [|split].
  - constructor; [done|]. apply Forall_forall. intros b Hb.
    rewrite <- Hframe; [by eapply Forall_forall in Hall|]. by intros ->.
  - intros b Hb. apply elem_of_cons in Hb as [->|Hb]; [|by apply Hin].
    by rewrite Hout.
  - intros b Hb. apply not_elem_of_cons in Hb as [Hne Hb].
    rewrite Hout by done. by apply Hframe.
Qed.

Lemma free_blocks_None l s :
  free_blocks l s = None ->
  ~ (NoDup l /\ Forall (fun b => bit_is_free s b = Some false) l).
Proof.
  revert s. induction l as [|bno l IH]; intros s; simpl; [done|].
  destruct (free_block bno s) as [s1|] eqn:Hfb.
  - intros Hl [Hnd Hall]. apply NoDup_cons in Hnd as [Hnotin Hnd].
    apply Forall_cons in Hall as [_ Hall].
    apply free_block_bits in Hfb as (_ & _ & Hframe).
    apply (IH s1 Hl). split; [done|]. apply Forall_forall. intros b Hb.
    rewrite Hframe; [by eapply Forall_forall in Hall|]. by intros ->.
  - intros _ [_ Hall]. apply Forall_cons in Hall as [Hb _].
    by apply free_block_None in Hfb.
Qed.
End FreeListFacts.

(** X13. When a commit returns. If every [writei] on the journal writes the
    bytes it is given, a commit through [add_fsync_to_journal] returns
    exactly when every block of the transaction's [free_block_list] is in
    range and allocated and no block is listed twice; otherwise it panics
    ("freeing free block" or the range check). When it returns, the blocks of
    the list are free, no other free bit has changed, the journal's write
    offset is back at 0 and the journal's transaction log is untouched. *)
Theorem commit_returns_unless_bad_free_list `{JournalBlockTypes}
    (writei : Journal.kstate -> Z -> Z -> Z)
    (balloc_on_disk bfree_on_disk : list Z -> transaction -> transaction)
    (prepare_for_commit : transaction -> transaction)
    (tr : transaction) (st : Journal.kstate) :
  (forall s offset n, writei s offset n = n) ->
  let fsync := Journal.add_fsync_to_journal writei balloc_on_disk bfree_on_disk
                 prepare_for_commit tr in
  let fl := free_block_list
              (Journal.prepared balloc_on_disk bfree_on_disk prepare_for_commit tr) in
  let freeable :=
    NoDup fl /\
    Forall (fun b => Allocator.bit_is_free (Journal.alloc st) b = Some false) fl in
  (freeable ->
     (fsync st).1 = Journal.Ok tt /\
     Journal.journal_offset (fsync st).2 = 0 /\
     Journal.transaction_log (fsync st).2 = Journal.transaction_log st /\
     (forall b, b ∈ fl ->
        Allocator.bit_is_free (Journal.alloc (fsync st).2) b = Some true) /\
     (forall b, b ∉ fl ->
        Allocator.bit_is_free (Journal.alloc (fsync st).2) b =
        Allocator.bit_is_free (Journal.alloc st) b)) /\
  (~ freeable -> (fsync st).1 = Journal.Panic).
Proof.
  intros Hw fsync fl freeable.
  pose proof (follows_add_fsync_to_journal writei balloc_on_disk bfree_on_disk
                prepare_for_commit tr st) as Hf.
  apply follows_events in Hf as [_ Hf]. fold fsync in Hf.
  set (st0 := (Journal.emit Journal.Ev_journal_lock st).2).
  assert (Hrun : fsync st =
            Journal.commit_transaction writei balloc_on_disk bfree_on_disk
              prepare_for_commit tr st0) by reflexivity.
  pose proof (commit_transaction_outcome writei balloc_on_disk bfree_on_disk
                prepare_for_commit Hw tr st0) as Ho.
  change (Journal.alloc st0) with (Journal.alloc st) in Ho. fold fl in Ho.
  destruct (FreeBlocks.free_blocks fl (Journal.alloc st)) as [a'|] eqn:Hfb.
  - destruct Ho as ([] & st' & Hc & Ha & Hl). rewrite <- Hrun in Hc.
    apply free_blocks_Some in Hfb as (Hnd & Hall & Hin & Hout).
    split; [|intros Hn; by destruct Hn].
    intros _. destruct (Hf tt) as [_ Hoff]; [by rewrite Hc|].
    rewrite Hc in *. simpl in *. subst a'. done.
  - rewrite <- Hrun in Ho. split; [|done].
    intros Hfr. by apply free_blocks_None in Hfb.
Qed.

(** Witness for [commit_returns_unless_bad_free_list]: the example commit,
    which frees block 60 of a disk whose 64 blocks are all allocated. *)
Lemma commit_returns_unless_bad_free_list_witness :
  let fsync := Journal.add_fsync_to_journal (H := sv6_block_types)
                 Journal.writei_all Journal.keep_transaction
                 Journal.keep_transaction id Journal.example_transaction in
  let st := Journal.example_kstate in
  let fl := [60] in
  let freeable :=
    NoDup fl /\
    Forall (fun b => Allocator.bit_is_free (Journal.alloc st) b = Some false) fl in
  (freeable ->
     (fsync st).1 = Journal.Ok tt /\
     Journal.journal_offset (fsync st).2 = 0 /\
     Journal.transaction_log (fsync st).2 = Journal.transaction_log st /\
     (forall b, b ∈ fl ->
        Allocator.bit_is_free (Journal.alloc (fsync st).2) b = Some true) /\
     (forall b, b ∉ fl ->
        Allocator.bit_is_free (Journal.alloc (fsync st).2) b =
        Allocator.bit_is_free (Journal.alloc st) b)) /\
  (~ freeable -> (fsync st).1 = Journal.Panic).
Proof.
  apply (commit_returns_unless_bad_free_list (H := sv6_block_types)
           Journal.writei_all Journal.keep_transaction Journal.keep_transaction id
           Journal.example_transaction Journal.example_kstate).
  reflexivity.
Defined.

(** Witness for [process_journal_stops_at_zero_header]: a committed
    transaction, an all-zero header, and a stale committed transaction behind
    it. *)
Lemma process_journal_stops_at_zero_header_witness :
  let j1 := Recovery.committed_records (H := sv6_block_types) (5, [mk_diskblock 7 [1]]) in
  let j2 := Recovery.committed_records (H := sv6_block_types) (6, [mk_diskblock 8 [2]]) in
  Recovery.process_journal (j1 ++ (Hdr.mk_header 0 0 0, zero_block) :: j2) =
  Recovery.process_journal j1.
Proof.
  intros j1 j2.
  apply (process_journal_stops_at_zero_header (H := sv6_block_types)
           j1 j2 (Hdr.mk_header 0 0 0) zero_block).
  reflexivity.
Defined.

(** ** The metadata operations *)

Section OpsFacts.
Import Mfs MfsOps.
Context `{InodeLayer} `{MnodeLayer} `{LinearHash} `{!DirLayer} `{!MnodeTypes}.

Lemma update_dir_inode_tables mdir tr s tr' s' :
  update_dir_inode mdir tr s = Some (tr', s') ->
  mnode_to_inode s' = mnode_to_inode s /\ inum_to_mnode s' = inum_to_mnode s /\
  root_fs s' = root_fs s.
Proof.
  unfold update_dir_inode. destruct (get_inode mdir s) as [i|]; [|done].
  destruct (update_dir i tr (dsk s)) as [tr1 d1]. by intros [= <- <-].
Qed.

Lemma update_dir_inode_maps_back mdir tr s tr' s' :
  maps_back s -> update_dir_inode mdir tr s = Some (tr', s') -> maps_back s'.
Proof.
  intros Hm Hu. apply update_dir_inode_tables in Hu as (Ht1 & Ht2 & _).
  unfold maps_back. by rewrite Ht1, Ht2.
Qed.

Lemma mfs_create_maps_back mnode parent ty name tr s tr' s' :
  maps_back s -> mfs_create mnode parent ty name tr s = Some (tr', s') ->
  maps_back s'.
Proof.
  intros Hm. unfold mfs_create. destruct (ty =? type_file).
  { destruct (create_file_if_new mnode parent ty name tr true s)
      as [[[r tr1] s1]|] eqn:E; [|done].
    intros [= <- <-]. by eapply create_file_if_new_maps_back. }
  destruct (ty =? type_dir); [|by intros [= <- <-]].
  destruct (create_dir_if_new mnode parent ty name tr true s)
    as [[[r tr1] s1]|] eqn:E; [|done].
  intros [= <- <-]. by eapply create_dir_if_new_maps_back.
Qed.

Lemma mfs_link_maps_back mnode parent ty name tr s tr' s' :
  maps_back s -> mfs_link mnode parent ty name tr s = Some (tr', s') ->
  maps_back s'.
Proof.
  intros Hm. unfold mfs_link.
  destruct (create_directory_entry parent name mnode ty tr s)
    as [[tr1 s1]|] eqn:E; [|done].
  intros Hu. eapply update_dir_inode_maps_back; [|exact Hu].
  by eapply create_directory_entry_maps_back.
Qed.

Lemma mfs_unlink_maps_back parent name tr s tr' s' :
  maps_back s -> mfs_unlink parent name tr s = Some (tr', s') ->
  maps_back s' /\ mnode_to_inode s' = mnode_to_inode s.
Proof.
  intros Hm. unfold mfs_unlink.
  destruct (unlink_old_inode parent name tr s) as [[tr1 s1]|] eqn:E; [|done].
  intros Hu. destruct (unlink_old_inode_maps_back _ _ _ _ _ _ Hm E) as [Hm1 Ht1].
  split; [by eapply update_dir_inode_maps_back|].
  apply update_dir_inode_tables in Hu as (Ht2 & _ & _). congruence.
Qed.

Lemma mfs_rename_maps_back mnode parent new_parent ty name newname tr s tr' s' :
  maps_back s ->
  mfs_rename mnode parent new_parent ty name newname tr s = Some (tr', s') ->
  maps_back s'.
Proof.
  intros Hm. unfold mfs_rename.
  destruct (create_directory_entry new_parent newname mnode ty tr s)
    as [[tr1 s1]|] eqn:E1; [|done].
  destruct (update_dir_inode new_parent tr1 s1) as [[tr2 s2]|] eqn:E2; [|done].
  destruct (unlink_old_inode parent name tr2 s2) as [[tr3 s3]|] eqn:E3; [|done].
  intros Hu. eapply update_dir_inode_maps_back; [|exact Hu].
  eapply unlink_old_inode_maps_back; [|exact E3].
  eapply update_dir_inode_maps_back; [|exact E2].
  by eapply create_directory_entry_maps_back.
Qed.

Lemma created_is_mapped mnum r (m2i : gmap Z Z) :
  m2i !! mnum = None -> lh_insert mnum r m2i !! mnum = Some r.
Proof. intros Hn. rewrite lh_insert_fresh by done. apply lookup_insert_eq. Qed.

Lemma mfs_create_lookups mnode parent ty name tr s tr1 s1 :
  mfs_create mnode parent ty name tr s = Some (tr1, s1) ->
  (forall m', m' <> mnode -> inode_lookup m' s1 = inode_lookup m' s) /\
  (ty = type_file \/ ty = type_dir -> is_Some (inode_lookup mnode s1)).
Proof.
  unfold mfs_create, inode_lookup.
  destruct (ty =? type_file) eqn:Ef.
  { destruct (create_file_if_new mnode parent ty name tr true s)
      as [[[r tr'] s']|] eqn:E; [|done]. intros [= <- <-].
    apply create_file_if_new_tables in E
      as [(_ & _ & -> & Hsome)|(Hnone & -> & _ & _)]; [done|].
    split; [intros m' Hne; by apply lh_insert_lookup_ne|].
    intros _. rewrite created_is_mapped by done. eauto. }
  destruct (ty =? type_dir) eqn:Ed.
  { destruct (create_dir_if_new mnode parent ty name tr true s)
      as [[[r tr'] s']|] eqn:E; [|done]. intros [= <- <-].
    apply create_dir_if_new_tables in E
      as [(_ & _ & -> & Hsome)|(Hnone & -> & _ & _)]; [done|].
    split; [intros m' Hne; by apply lh_insert_lookup_ne|].
    intros _. rewrite created_is_mapped by done. eauto. }
  intros [= <- <-]. split; [done|].
  apply Z.eqb_neq in Ef, Ed. by intros [?|?].
Qed.

Lemma mfs_create_replay mnode parent ty name tr s tr1 s1 :
  mfs_create mnode parent ty name tr s = Some (tr1, s1) ->
  mfs_create mnode parent ty name tr1 s1 = Some (tr1, s1).
Proof.
  intros Hc. pose proof (mfs_create_lookups _ _ _ _ _ _ _ _ Hc) as [_ Hl].
  unfold mfs_create in *.
  destruct (ty =? type_file) eqn:Ef.
  { destruct Hl as [i Hi]; [left; by apply Z.eqb_eq|].
    unfold create_file_if_new. by rewrite Hi. }
  destruct (ty =? type_dir) eqn:Ed; [|done].
  destruct Hl as [i Hi]; [right; by apply Z.eqb_eq|].
  unfold create_dir_if_new. by rewrite Hi.
Qed.
End OpsFacts.

(** X14. The metadata operations keep one direction of the mapping tables
    through all the calls they are made of. If each [inum_to_mnode] entry is
    matched by its [mnode_to_inode] entry before [mfs_create], [mfs_link],
    [mfs_unlink] or [mfs_rename] is applied, it is so when the operation
    returns; [mfs_unlink] leaves [mnode_to_inode] as it is. ([mfs_delete] is
    [delete_old_inode].) *)
Theorem metadata_operations_keep_maps_back
    `{IL : Mfs.InodeLayer} `{ML : Mfs.MnodeLayer} `{LH : Mfs.LinearHash}
    `{DL : !MfsOps.DirLayer} (s : Mfs.mfs_state) :
  Mfs.maps_back s ->
  (forall mnode parent ty name tr tr' s',
     MfsOps.mfs_create mnode parent ty name tr s = Some (tr', s') ->
     Mfs.maps_back s') /\
  (forall mnode parent ty name tr tr' s',
     MfsOps.mfs_link mnode parent ty name tr s = Some (tr', s') ->
     Mfs.maps_back s') /\
  (forall parent name tr tr' s',
     MfsOps.mfs_unlink parent name tr s = Some (tr', s') ->
     Mfs.maps_back s' /\ Mfs.mnode_to_inode s' = Mfs.mnode_to_inode s) /\
  (forall mnode parent new_parent ty name newname tr tr' s',
     MfsOps.mfs_rename mnode parent new_parent ty name newname tr s
       = Some (tr', s') ->
     Mfs.maps_back s').
Proof.
  intros Hm.
  split; [intros; by eapply mfs_create_maps_back|].
  split; [intros; by eapply mfs_link_maps_back|].
  split; [intros; by eapply mfs_unlink_maps_back|].
  intros; by eapply mfs_rename_maps_back.
Qed.

(** X15. Replaying a create is harmless. When [mfs_create] returns, the new
    mnode of a file or directory has an inode ([inode_lookup] succeeds), the
    mapping of no other mnode has changed, and applying the same operation
    again returns without changing the transaction or the state; a create
    whose type is neither file nor directory changes nothing at all. *)
Theorem mfs_create_is_idempotent
    `{IL : Mfs.InodeLayer} `{ML : Mfs.MnodeLayer} `{LH : Mfs.LinearHash}
    (mnode parent ty : Z) (name : string) (tr tr1 : transaction)
    (s s1 : Mfs.mfs_state) :
  MfsOps.mfs_create mnode parent ty name tr s = Some (tr1, s1) ->
  MfsOps.mfs_create mnode parent ty name tr1 s1 = Some (tr1, s1) /\
  (forall m', m' <> mnode -> Mfs.inode_lookup m' s1 = Mfs.inode_lookup m' s) /\
  (ty = Mfs.type_file \/ ty = Mfs.type_dir -> is_Some (Mfs.inode_lookup mnode s1)) /\
  (ty <> Mfs.type_file -> ty <> Mfs.type_dir -> tr1 = tr /\ s1 = s).
Proof.
  intros Hc. split; [exact (mfs_create_replay _ _ _ _ _ _ _ _ Hc)|].
  destruct (mfs_create_lookups _ _ _ _ _ _ _ _ Hc) as [Hl1 Hl2].
  split; [done|]. split; [done|]. intros Hf Hd. unfold MfsOps.mfs_create in Hc.
  apply Z.eqb_neq in Hf, Hd. rewrite Hf, Hd in Hc. by simplify_eq.
Qed.

Section LoaderFacts.
Import Mfs MfsOps.
Context `{InodeLayer} `{MnodeLayer} `{LinearHash} `{!DirLayer} `{!MnodeTypes}.

Lemma evict_bufcache_fold s (l : list nat) (dropped : list Z) :
  maps_back s ->
  (forall m i, mnode_to_inode s !! m = Some i -> iget (dsk s) i = true) ->
  foldl (fun acc i =>
           match acc with
           | None => None
           | Some dropped =>
               match inum_to_mnode s !! Z.of_nat i with
               | Some (Some m) =>
                   if mnode_type (root_fs s) m =? type_file then
                     match get_inode m s with
                     | None => None
                     | Some ip => Some (dropped ++ [ip])
                     end
                   else Some dropped
               | _ => Some dropped
               end
           end) (Some dropped) l =
  Some (dropped ++
        (Z.of_nat <$> filter (fun i => is_file_inode s (Z.of_nat i) = true) l)).
Proof.
  intros Hm Hget. revert dropped.
  induction l as [|i l IH]; intros dropped; cbn [foldl].
  { by rewrite app_nil_r. }
  match goal with |- foldl _ ?a l = _ =>
    assert (Ha : a = Some (dropped ++
                   if is_file_inode s (Z.of_nat i) then [Z.of_nat i] else []))
  end.
  { unfold is_file_inode.
    destruct (inum_to_mnode s !! Z.of_nat i) as [[m|]|] eqn:Hi;
      [|by rewrite app_nil_r..].
    destruct (mnode_type (root_fs s) m =? type_file); [|by rewrite app_nil_r].
    pose proof (Hm _ _ Hi) as Hmi. unfold get_inode.
    by rewrite Hmi, (Hget _ _ Hmi). }
  rewrite Ha, IH, filter_cons.
  destruct (is_file_inode s (Z.of_nat i)).
  - rewrite decide_True by done. by rewrite fmap_cons, <- app_assoc.
  - rewrite decide_False by done. by rewrite app_nil_r.
Qed.
End LoaderFacts.

(** X16. A delete takes the mnode out of [mnode_to_inode] and nothing else
    out of the tables: when [mfs_delete] (that is, [delete_old_inode])
    returns, [inode_lookup] fails for the deleted mnode, the inode of every
    other mnode is as before and [inum_to_mnode] is unchanged. The mnode has
    no inode any more, so reading its file size or applying the delete a
    second time panics in [get_inode]. *)
Theorem delete_old_inode_unmaps_the_mnode
    `{IL : Mfs.InodeLayer} `{ML : Mfs.MnodeLayer}
    (mnum : Z) (tr tr' : transaction) (s s' : Mfs.mfs_state) :
  MfsOps.mfs_delete mnum tr s = Some (tr', s') ->
  Mfs.inode_lookup mnum s' = None /\
  (forall m', m' <> mnum -> Mfs.inode_lookup m' s' = Mfs.inode_lookup m' s) /\
  Mfs.inum_to_mnode s' = Mfs.inum_to_mnode s /\
  MfsOps.get_file_size mnum s' = None /\
  MfsOps.mfs_delete mnum tr' s' = None.
Proof.
  unfold MfsOps.mfs_delete.
  intros Hd. apply delete_old_inode_tables in Hd as [Hm2i Hi2m].
  assert (Hnone : Mfs.mnode_to_inode s' !! mnum = None)
    by (rewrite Hm2i; apply lookup_delete_eq).
  split; [exact Hnone|]. split; [|split; [exact Hi2m|]].
  - intros m' Hne. unfold Mfs.inode_lookup. rewrite Hm2i.
    by apply lookup_delete_ne.
  - unfold MfsOps.get_file_size, Mfs.delete_old_inode, Mfs.get_inode.
    by rewrite Hnone.
Qed.

(** X17. Replaying an unlink is harmless, given what [unlink_old_inode]
    relies on from [dirunlink] (it removes the name, and it neither creates
    nor destroys inodes): when [unlink_old_inode] returns it has not touched
    the transaction, the name is gone from the directory, and a second call
    with the same arguments returns without changing anything. *)
Theorem unlink_old_inode_is_idempotent
    `{IL : Mfs.InodeLayer} `{ML : Mfs.MnodeLayer} `{!Mfs.InodeLayerLaws}
    (mdir : Z) (name : string) (tr tr' : transaction) (s s' : Mfs.mfs_state) :
  (forall dp n inum dec d x,
     Mfs.iget (Mfs.dirunlink dp n inum dec d) x = Mfs.iget d x) ->
  Mfs.unlink_old_inode mdir name tr s = Some (tr', s') ->
  tr' = tr /\
  (exists i, Mfs.get_inode mdir s' = Some i /\
             Mfs.dirlookup (Mfs.dsk s') i name = None) /\
  Mfs.unlink_old_inode mdir name tr' s' = Some (tr', s').
Proof.
  intros Hget Hu. unfold Mfs.unlink_old_inode in Hu.
  destruct (Mfs.get_inode mdir s) as [i|] eqn:Hi; [|done].
  assert (Hkeep : forall s1, Mfs.mnode_to_inode s1 = Mfs.mnode_to_inode s ->
            (forall x, Mfs.iget (Mfs.dsk s1) x = Mfs.iget (Mfs.dsk s) x) ->
            Mfs.get_inode mdir s1 = Some i).
  { intros s1 Hm Hg. unfold Mfs.get_inode in *. rewrite Hm.
    destruct (Mfs.mnode_to_inode s !! mdir) as [inum|]; [|done].
    rewrite Hg. done. }
  destruct (Mfs.dirlookup (Mfs.dsk s) i name) as [target|] eqn:Hl.
  - simplify_eq. split; [done|].
    set (s' := Mfs.mk_mfs_state _ _ _ _).
    assert (Hi' : Mfs.get_inode mdir s' = Some i).
    { apply Hkeep; [done|]. intros x. apply Hget. }
    assert (Hgone : Mfs.dirlookup (Mfs.dsk s') i name = None)
      by apply Mfs.dirunlink_lookup.
    split; [eauto|]. unfold Mfs.unlink_old_inode. by rewrite Hi', Hgone.
  - simplify_eq. split; [done|]. split; [eauto|].
    unfold Mfs.unlink_old_inode. by rewrite Hi, Hl.
Qed.

(** X18. The root is loaded once. When [load_root] returns, inode 1 has an
    entry in [inum_to_mnode], the mnode returned is the one of that entry,
    and every later [load_root] returns the same mnode without allocating
    another one or changing the state. If the root had to be allocated and
    its fresh mnode number had no inode yet, [inode_lookup] maps the new
    mnode to inode 1. *)
Theorem load_root_is_idempotent
    `{IL : Mfs.InodeLayer} `{ML : Mfs.MnodeLayer} `{LH : Mfs.LinearHash}
    (s s' : Mfs.mfs_state) (m : option Z) :
  MfsOps.load_root s = Some (m, s') ->
  Mfs.inum_to_mnode s' !! 1 = Some m /\
  MfsOps.load_root s' = Some (m, s') /\
  (forall new, Mfs.inum_to_mnode s !! 1 = None -> m = Some new ->
     Mfs.mnode_to_inode s !! new = None -> Mfs.inode_lookup new s' = Some 1).
Proof.
  unfold MfsOps.load_root.
  destruct (Mfs.inum_to_mnode s !! 1) as [m0|] eqn:H1.
  { intros [= <- <-]. rewrite H1. done. }
  destruct (Mfs.iget (Mfs.dsk s) 1); [|done].
  destruct (Mfs.inode_type (Mfs.dsk s) 1 =? Mfs.T_DIR); [|done].
  unfold Mfs.mnode_alloc, Mfs.create_mapping.
  destruct (Mfs.mfs_alloc Mfs.type_dir (Mfs.root_fs s)) as [new fs] eqn:Ha.
  simpl. intros [= <- <-]. simpl.
  rewrite lh_insert_fresh by done. rewrite lookup_insert_eq.
  split; [done|]. split; [done|].
  intros new' _ [= <-] Hfresh. unfold Mfs.inode_lookup. simpl.
  rewrite lh_insert_fresh by done. apply lookup_insert_eq.
Qed.

(** X19. With the mapping tables consistent, evicting the buffer cache never
    panics and drops what it should. If every [inum_to_mnode] entry is
    matched by its [mnode_to_inode] entry and the mapped inodes exist,
    [evict_bufcache] returns, and it calls [drop_bufcache] once for every
    inode number below [sb.ninodes] whose mnode is a file, in ascending
    order, on the inode with that very number. *)
Theorem evict_bufcache_drops_the_file_inodes
    `{IL : Mfs.InodeLayer} `{ML : Mfs.MnodeLayer} `{MT : !MfsOps.MnodeTypes}
    (ninodes : Z) (s : Mfs.mfs_state) :
  Mfs.maps_back s ->
  (forall m i, Mfs.mnode_to_inode s !! m = Some i -> Mfs.iget (Mfs.dsk s) i = true) ->
  MfsOps.evict_bufcache ninodes s =
    Some (Z.of_nat <$>
            filter (fun i => MfsOps.is_file_inode s (Z.of_nat i) = true)
                   (seq 0 (Z.to_nat ninodes))).
Proof.
  intros Hm Hget. unfold MfsOps.evict_bufcache.
  by rewrite (evict_bufcache_fold s _ [] Hm Hget).
Qed.

#[local] Existing Instance MfsOps.simple_dirs.
#[local] Existing Instance MfsOps.simple_types.

(** The example state has every [inum_to_mnode] entry matched, and its
    mapped inodes exist. *)
Lemma example_state_maps_back : Mfs.maps_back Mfs.example_state.
Proof.
  intros M I Hl. unfold Mfs.example_state in *. cbn in *.
  apply lookup_insert_Some in Hl as [[<- ?]|[? Hl]]; [by simplify_eq|].
  apply lookup_singleton_Some in Hl as [<- ?]. by simplify_eq.
Qed.

Lemma example_state_inodes m i :
  Mfs.mnode_to_inode Mfs.example_state !! m = Some i ->
  Mfs.iget (Mfs.dsk Mfs.example_state) i = true.
Proof.
  unfold Mfs.example_state. cbn. intros Hl.
  apply lookup_insert_Some in Hl as [[<- <-]|[? Hl]]; [reflexivity|].
  apply lookup_singleton_Some in Hl as [<- <-]. reflexivity.
Qed.

(** Witness for [metadata_operations_keep_maps_back]: the file ["a"] of the
    example is renamed to ["b"] within the root directory. *)
Lemma metadata_operations_keep_maps_back_witness :
  exists tr' s',
    MfsOps.mfs_rename (H1 := Mfs.keeping_hash) 20 10 10 2 "a" "b"
      (new_transaction 7) Mfs.example_state = Some (tr', s') /\
    Mfs.maps_back s'.
Proof.
  eexists _, _. split; [reflexivity|].
  eapply (proj2 (proj2 (proj2
            (metadata_operations_keep_maps_back (LH := Mfs.keeping_hash)
               Mfs.example_state example_state_maps_back)))
            20 10 10 2 "a" "b" (new_transaction 7)).
  reflexivity.
Defined.

(** Witness for [mfs_create_is_idempotent]: a file ["c"] with mnode 30 is
    created in the root directory of the example. *)
Lemma mfs_create_is_idempotent_witness :
  exists tr1 s1,
    MfsOps.mfs_create (H1 := Mfs.keeping_hash) 30 10 2 "c" (new_transaction 7)
      Mfs.example_state = Some (tr1, s1) /\
    MfsOps.mfs_create (H1 := Mfs.keeping_hash) 30 10 2 "c" tr1 s1 = Some (tr1, s1) /\
    (forall m', m' <> 30 ->
       Mfs.inode_lookup m' s1 = Mfs.inode_lookup m' Mfs.example_state) /\
    (2 = Mfs.type_file \/ 2 = Mfs.type_dir -> is_Some (Mfs.inode_lookup 30 s1)) /\
    (2 <> Mfs.type_file -> 2 <> Mfs.type_dir ->
       tr1 = new_transaction 7 /\ s1 = Mfs.example_state).
Proof.
  eexists _, _. split; [reflexivity|].
  apply (mfs_create_is_idempotent (LH := Mfs.keeping_hash) 30 10 2 "c"
           (new_transaction 7) _ Mfs.example_state _).
  reflexivity.
Defined.

(** Witness for [delete_old_inode_unmaps_the_mnode]: the file ["a"] of the
    example is unlinked, which brings its link count to zero, and then
    deleted. *)
Lemma delete_old_inode_unmaps_the_mnode_witness :
  exists s1 tr' s',
    Mfs.unlink_old_inode 10 "a" (new_transaction 0) Mfs.example_state
      = Some (new_transaction 0, s1) /\
    MfsOps.mfs_delete 20 (new_transaction 0) s1 = Some (tr', s') /\
    Mfs.inode_lookup 20 s' = None /\
    (forall m', m' <> 20 -> Mfs.inode_lookup m' s' = Mfs.inode_lookup m' s1) /\
    Mfs.inum_to_mnode s' = Mfs.inum_to_mnode s1 /\
    MfsOps.get_file_size 20 s' = None /\
    MfsOps.mfs_delete 20 tr' s' = None.
Proof.
  eexists _, _, _. split; [reflexivity|]. split; [reflexivity|].
  eapply (delete_old_inode_unmaps_the_mnode 20 (new_transaction 0)).
  reflexivity.
Defined.

Lemma simple_fs_dirunlink_iget dp n inum dec (d : @Mfs.disk Mfs.simple_fs) x :
  Mfs.iget (Mfs.dirunlink dp n inum dec d) x = Mfs.iget d x.
Proof.
  cbn. change (gmap Z Mfs.inode) in d. apply bool_decide_ext.
  rewrite <- !elem_of_dom, !dom_alter_L. done.
Qed.

(** Witness for [unlink_old_inode_is_idempotent]: the file ["a"] of the
    example is unlinked. *)
Lemma unlink_old_inode_is_idempotent_witness :
  exists tr' s',
    Mfs.unlink_old_inode 10 "a" (new_transaction 0) Mfs.example_state
      = Some (tr', s') /\
    tr' = new_transaction 0 /\
    (exists i, Mfs.get_inode 10 s' = Some i /\
               Mfs.dirlookup (Mfs.dsk s') i "a" = None) /\
    Mfs.unlink_old_inode 10 "a" tr' s' = Some (tr', s').
Proof.
  eexists _, _. split; [reflexivity|].
  apply (unlink_old_inode_is_idempotent 10 "a"
           (new_transaction 0) _ Mfs.example_state _ simple_fs_dirunlink_iget).
  reflexivity.
Defined.

(** Witness for [load_root_is_idempotent]: a disk whose inode 1 is a
    directory, with empty tables and 10 as the next mnode number. *)
Lemma load_root_is_idempotent_witness :
  let s := Mfs.mk_mfs_state ∅ ∅ ({[1 := Mfs.mk_inode 1 1 0 ∅]} : gmap Z Mfs.inode)
             (10, ∅) in
  exists s',
    MfsOps.load_root (H1 := Mfs.keeping_hash) s = Some (Some 10, s') /\
    Mfs.inum_to_mnode s' !! 1 = Some (Some 10) /\
    MfsOps.load_root (H1 := Mfs.keeping_hash) s' = Some (Some 10, s') /\
    (forall new, Mfs.inum_to_mnode s !! 1 = None -> Some 10 = Some new ->
       Mfs.mnode_to_inode s !! new = None -> Mfs.inode_lookup new s' = Some 1).
Proof.
  intros s. eexists _. split; [reflexivity|].
  apply (load_root_is_idempotent (LH := Mfs.keeping_hash) s _ (Some 10)).
  reflexivity.
Defined.

(** Witness for [evict_bufcache_drops_the_file_inodes]: in the example, with
    eight inodes in the superblock, the buffers of inode 2 (the file ["a"])
    are dropped. *)
Lemma evict_bufcache_drops_the_file_inodes_witness :
  MfsOps.evict_bufcache 8 Mfs.example_state =
    Some (Z.of_nat <$>
            filter (fun i => MfsOps.is_file_inode Mfs.example_state (Z.of_nat i) = true)
                   (seq 0 (Z.to_nat 8))).
Proof.
  apply (evict_bufcache_drops_the_file_inodes 8
           Mfs.example_state example_state_maps_back example_state_inodes).
Defined.

Example evict_bufcache_example :
  MfsOps.evict_bufcache 8 Mfs.example_state = Some [2].
Proof. reflexivity. Qed.

(** ** The layout of the journal and the flush of the transaction log *)

Section LayoutFacts.
Import Journal Replay.
Context `{JournalBlockTypes}.
Variable writei : kstate -> Z -> Z -> Z.
Variable balloc_on_disk : list Z -> transaction -> transaction.
Variable bfree_on_disk : list Z -> transaction -> transaction.
Variable prepare_for_commit : transaction -> transaction.

Local Abbreviation record_size := (hdr_size + BSIZE).

Lemma record_offset_linear offset n :
  0 <= offset -> offset + Z.of_nat n * record_size < 2 ^ 32 ->
  record_offset offset n = offset + Z.of_nat n * record_size.
Proof.
  assert (Hh : hdr_size = 13) by reflexivity.
  assert (Hb : BSIZE = 4096) by reflexivity.
  revert offset. induction n as [|n IH]; intros offset Hpos Hlt; simpl; [lia|].
  assert (Hnext : u32 (u32 (offset + hdr_size) + BSIZE) = offset + record_size).
  { unfold u32. rewrite (Z.mod_small (offset + hdr_size)) by lia.
    rewrite Z.mod_small by lia. lia. }
  rewrite Hnext, IH by lia. lia.
Qed.

Lemma record_events_offsets offset recs :
  0 <= offset -> offset + Z.of_nat (length recs) * record_size < 2 ^ 32 ->
  record_offsets (record_events offset recs) =
  (fun k => offset + Z.of_nat k * record_size) <$> seq 0 (length recs).
Proof.
  assert (Hh : hdr_size = 13) by reflexivity.
  assert (Hb : BSIZE = 4096) by reflexivity.
  revert offset. induction recs as [|[hd d] recs IH]; intros offset Hpos Hlt; [done|].
  cbn [record_events length]. cbn [length] in Hlt.
  assert (Hnext : u32 (u32 (offset + hdr_size) + BSIZE) = offset + record_size).
  { unfold u32. rewrite (Z.mod_small (offset + hdr_size)) by lia.
    rewrite Z.mod_small by lia. lia. }
  rewrite Hnext.
  change (record_offsets
            (Ev_journal_record offset hd d ::
             record_events (offset + record_size) recs))
    with (offset :: record_offsets (record_events (offset + record_size) recs)).
  rewrite IH by lia. cbn [seq]. rewrite fmap_cons. f_equal; [lia|].
  rewrite <- fmap_S_seq, <- list_fmap_compose. apply list_fmap_ext.
  intros i k _. simpl. lia.
Qed.

Lemma record_offsets_app l1 l2 :
  record_offsets (l1 ++ l2) = record_offsets l1 ++ record_offsets l2.
Proof. apply omap_app. Qed.

Lemma record_offsets_none evs :
  Forall (fun e => forall o hd d, e <> Ev_journal_record o hd d) evs ->
  record_offsets evs = [].
Proof.
  induction 1 as [|e evs He _ IH]; [done|].
  destruct e; try exact IH. by destruct (He offset hd data).
Qed.

Lemma commit_events_offsets tr :
  let n := length (blocks (prepared balloc_on_disk bfree_on_disk
                             prepare_for_commit tr)) in
  (Z.of_nat n + 2) * record_size < 2 ^ 32 ->
  record_offsets (commit_events balloc_on_disk bfree_on_disk prepare_for_commit 0 tr) =
    (fun k => Z.of_nat k * record_size) <$> seq 0 (n + 2) /\
  last (commit_events balloc_on_disk bfree_on_disk prepare_for_commit 0 tr) =
    Some (Ev_zero_fill ((Z.of_nat n + 2) * record_size)).
Proof.
  intros n Hlt.
  assert (Hh : hdr_size = 13) by reflexivity.
  assert (Hb : BSIZE = 4096) by reflexivity.
  unfold commit_events. cbv zeta.
  set (sd := start_and_data balloc_on_disk bfree_on_disk prepare_for_commit tr).
  assert (Hlen : length sd = S n).
  { unfold sd, start_and_data. cbn [length]. by rewrite length_map. }
  rewrite Hlen.
  rewrite !record_offset_linear by (rewrite ?Nat2Z.inj_succ; lia).
  split.
  - rewrite !record_offsets_app.
    rewrite (record_offsets_none [_; _; _])
      by (repeat constructor; intros ? ? ?; discriminate).
    rewrite (record_offsets_none [Ev_write_to_disk sd])
      by (repeat constructor; intros ? ? ?; discriminate).
    change (record_offsets [Ev_write_to_disk (commit_only tr)]) with (@nil Z).
    rewrite (record_offsets_none (map Ev_free_block _))
      by (apply Forall_map_event; intros ? ? ? ?; discriminate).
    rewrite (record_offsets_none (map (fun b => Ev_writeback_async _) _))
      by (apply Forall_map_event; intros ? ? ? ?; discriminate).
    rewrite (record_offsets_none (map (fun b => Ev_async_iowait _) _))
      by (apply Forall_map_event; intros ? ? ? ?; discriminate).
    change (record_offsets [Ev_ideflush; Ev_zero_fill ?z]) with (@nil Z).
    rewrite !app_nil_r. cbn [app].
    rewrite !record_events_offsets
      by (rewrite ?Hlen; cbn [length commit_only]; rewrite ?Nat2Z.inj_succ; lia).
    rewrite Hlen. replace (n + 2)%nat with (S n + 1)%nat by lia.
    rewrite seq_app, fmap_app. f_equal.
  - rewrite !app_assoc. rewrite (app_assoc _ [Ev_ideflush] [_]) || idtac.
    match goal with |- last (?l ++ [Ev_ideflush; ?z]) = _ =>
      change (l ++ [Ev_ideflush; z]) with (l ++ [Ev_ideflush] ++ [z]) end.
    rewrite app_assoc, last_snoc. f_equal. f_equal.
    rewrite Nat2Z.inj_succ. lia.
Qed.
End LayoutFacts.

(** X20. The journal is written back to back and cleared in full. A commit
    through [add_fsync_to_journal] that starts on an empty journal (write
    offset 0) and returns has written its records, each a header of
    [sizeof(journal_block_header)] bytes and a block of [BSIZE] bytes, at the
    offsets 0, R, 2R, ... with R the size of a record: first the Start
    record, then one Data record per block, then the Commit record, which is
    where [process_journal] reads them. Its last call zero-fills the journal
    up to the end of the Commit record, and the write offset is 0 again. The
    records fit below [2^32], the range of the [u32] offset. *)
Theorem journal_records_are_laid_out_back_to_back `{JournalBlockTypes}
    (writei : Journal.kstate -> Z -> Z -> Z)
    (balloc_on_disk bfree_on_disk : list Z -> transaction -> transaction)
    (prepare_for_commit : transaction -> transaction)
    (tr : transaction) (st : Journal.kstate) :
  let fsync := Journal.add_fsync_to_journal writei balloc_on_disk bfree_on_disk
                 prepare_for_commit tr in
  let n := length (blocks (Journal.prepared balloc_on_disk bfree_on_disk
                             prepare_for_commit tr)) in
  let record_size := Journal.hdr_size + BSIZE in
  Journal.journal_offset st = 0 ->
  (Z.of_nat n + 2) * record_size < 2 ^ 32 ->
  (fsync st).1 = Journal.Ok tt ->
  Replay.record_offsets (Journal.events_of fsync st) =
    (fun k => Z.of_nat k * record_size) <$> seq 0 (n + 2) /\
  last (Journal.events_of fsync st) =
    Some (Journal.Ev_zero_fill ((Z.of_nat n + 2) * record_size)) /\
  Journal.journal_offset (fsync st).2 = 0.
Proof.
  intros fsync n record_size Hoff Hlt Hok.
  pose proof (follows_add_fsync_to_journal writei balloc_on_disk bfree_on_disk
                prepare_for_commit tr st) as Hf.
  apply follows_events in Hf as [_ Hf]. destruct (Hf tt Hok) as [Hev Ho].
  fold fsync in Hev, Ho. rewrite Hev, Hoff.
  destruct (commit_events_offsets balloc_on_disk bfree_on_disk prepare_for_commit
              tr Hlt) as [Hoffs Hlast].
  split; [|split; [|exact Ho]].
  - rewrite record_offsets_app. exact Hoffs.
  - rewrite last_app, Hlast. done.
Qed.

(** Witness for [journal_records_are_laid_out_back_to_back]: the example
    commit, with one block, writes three records. *)
Lemma journal_records_are_laid_out_back_to_back_witness :
  let fsync := Journal.add_fsync_to_journal (H := sv6_block_types)
                 Journal.writei_all Journal.keep_transaction
                 Journal.keep_transaction id Journal.example_transaction in
  let st := Journal.example_kstate in
  let record_size := Journal.hdr_size + BSIZE in
  Replay.record_offsets (Journal.events_of fsync st) =
    (fun k => Z.of_nat k * record_size) <$> seq 0 (1 + 2) /\
  last (Journal.events_of fsync st) =
    Some (Journal.Ev_zero_fill ((Z.of_nat 1 + 2) * record_size)) /\
  Journal.journal_offset (fsync st).2 = 0.
Proof.
  apply (journal_records_are_laid_out_back_to_back (H := sv6_block_types)
           Journal.writei_all Journal.keep_transaction Journal.keep_transaction id
           Journal.example_transaction Journal.example_kstate);
    reflexivity.
Defined.

(** X21. [flush_journal_locked] commits the transaction log in order, one
    transaction at a time. The calls it makes are those of a complete commit
    of the first transaction of the log, then those of a complete commit of
    the second, and so on, each commit after the first starting with the
    journal's write offset at 0; a panic cuts the sequence short. When it
    returns, all these calls have been made and the transaction log is
    empty. *)
Theorem flush_journal_locked_commits_in_log_order `{JournalBlockTypes}
    (writei : Journal.kstate -> Z -> Z -> Z)
    (balloc_on_disk bfree_on_disk : list Z -> transaction -> transaction)
    (prepare_for_commit : transaction -> transaction)
    (st : Journal.kstate) :
  let flush := Journal.flush_journal_locked writei balloc_on_disk bfree_on_disk
                 prepare_for_commit in
  let calls := Journal.flush_events balloc_on_disk bfree_on_disk prepare_for_commit
                 (Journal.journal_offset st) (Journal.transaction_log st) in
  Journal.events_of flush st `prefix_of` calls /\
  ((flush st).1 = Journal.Ok tt ->
     Journal.events_of flush st = calls /\
     Journal.transaction_log (flush st).2 = []).
Proof.
  intros flush calls.
  pose proof (follows_flush_journal_locked writei balloc_on_disk bfree_on_disk
                prepare_for_commit st) as Hf.
  apply follows_events in Hf as [Hp Hf]. split; [exact Hp|].
  intros Hok. exact (Hf tt Hok).
Qed.
